(** * OpenGLSpotLightGroup: spot lights translated into GPU records

    A shallow embedding of [src/OpenGL/openglspotlightgroup.cpp]:
    [initializeMesh], [translateBuffer] and [translateUniforms].

    - Scalars are the C++ [float]: an interface [Scalar] with the IEEE
      binary32 instance built on [SpecFloat] (precision 24, emax 128,
      round to nearest even), and an instance on the real numbers for the
      statements of exact arithmetic.  What a binary32 number stands for
      is read on the real numbers by [Binary32.value]; the length of a
      normalized direction is bounded from the rounding that [SpecFloat]'s
      operations perform.
    - The GLM operations the file calls ([mat4 * vec4], [mat4 * mat4],
      [normalize], [vec3(vec4)]) are written out over that interface as
      GLM's plain C++ implementation computes them, column-major, with its
      order of additions.
    - The destination is a byte buffer and [data] a byte offset into it.  A
      store outside the buffer and [*begin] outside the light container are
      undefined behaviour and stop the run.  The destination shares no byte
      with the lights or the render block.
    - The two [while (begin != end)] loops run on an explicit loop state,
      with fuel; each body is transcribed from its own lines of the
      source. *)

From Stdlib Require Import ZArith List Bool Lia Reals Lra.
From Stdlib Require Import Floats.SpecFloat.
From Stdlib Require Import Strings.Byte.
From stdpp Require Import base option list.

Open Scope Z_scope.

(** ** Scalars *)

(** The operations on [float] that the translation and GLM use. *)
Class Scalar (F : Type) := {
  fzero : F;
  fone : F;
  fadd : F → F → F;
  fsub : F → F → F;
  fmul : F → F → F;
  fdiv : F → F → F;
  fsqrt : F → F
}.

(** The four bytes a scalar occupies in memory, lowest address first. *)
Class Stored (F : Type) := {
  f_bytes : F → byte * byte * byte * byte
}.

Declare Scope glm_scope.
Delimit Scope glm_scope with glm.
Infix "+" := fadd : glm_scope.
Infix "-" := fsub : glm_scope.
Infix "*" := fmul : glm_scope.
Infix "/" := fdiv : glm_scope.

(** *** IEEE binary32 *)

Module Binary32.

Definition prec : Z := 24.
Definition emax : Z := 128.

Definition float : Type := spec_float.

(** The binary32 value of an integer (round to nearest even). *)
Definition of_Z (z : Z) : float := binary_normalize prec emax z 0 false.

(** The binary32 value nearest to [m * 2^e]. *)
Definition of_scaled (m e : Z) : float := binary_normalize prec emax m e false.

Definition sign_bit (s : bool) : Z := if s then 2 ^ 31 else 0.

(** The IEEE 754 interchange encoding.  [SpecFloat] keeps neither the sign
    nor the payload of a NaN, and IEEE 754 leaves both to the platform: a
    NaN is encoded as the one the x86-64 arithmetic instructions produce
    from operands that are not NaNs, [0xffc00000].  Where a value is a NaN
    its bytes in memory are known only up to this choice. *)
Definition bits (x : float) : Z :=
  match x with
  | S754_zero s => sign_bit s
  | S754_infinity s => sign_bit s + 255 * 2 ^ 23
  | S754_nan => sign_bit true + 255 * 2 ^ 23 + 2 ^ 22
  | S754_finite s m e =>
      if Z.pos (digits2_pos m) =? prec
      then sign_bit s + (e + 150) * 2 ^ 23 + (Z.pos m - 2 ^ 23)
      else sign_bit s + Z.pos m
  end.

Definition byte_of_Z (z : Z) : byte :=
  match Byte.of_N (Z.to_N (z mod 256)) with
  | Some b => b
  | None => x00
  end.

(** Little-endian, as on the platforms the engine targets. *)
Definition to_bytes (x : float) : byte * byte * byte * byte :=
  let w := bits x in
  (byte_of_Z w, byte_of_Z (w / 2 ^ 8), byte_of_Z (w / 2 ^ 16), byte_of_Z (w / 2 ^ 24)).

(** [fabs (x - y) <= tol], false when a NaN is involved. *)
Definition within (tol x y : float) : bool :=
  SFleb (SFabs (SFsub prec emax x y)) tol.

Definition signbit (x : float) : bool :=
  match x with
  | S754_zero s | S754_infinity s | S754_finite s _ _ => s
  | S754_nan => false
  end.

(** The values a transform is normally built from: a finite nonzero
    binary32 number, or [+0]; not [-0], an infinity or a NaN. *)
Definition ordinary (x : float) : bool :=
  match x with
  | S754_zero s => negb s
  | S754_finite _ m e => bounded prec emax m e
  | _ => false
  end.

Definition is_zero (x : float) : bool :=
  match x with
  | S754_zero _ => true
  | _ => false
  end.

(** Neither an infinity nor a NaN. *)
Definition finite (x : float) : bool :=
  match x with
  | S754_zero _ | S754_finite _ _ _ => true
  | _ => false
  end.

(** The same number: equal, or zeros of either sign. *)
Definition alike (x y : float) : Prop :=
  x = y ∨ (is_zero x = true ∧ is_zero y = true).

(** The number of binary digits of a mantissa. *)
Definition digits (m : positive) : Z := Z.pos (digits2_pos m).

Definition sign_of (s : bool) : R := if s then (-1)%R else 1%R.

(** The real number a finite binary32 value stands for; the statements
    that use it exclude the infinities and the NaN. *)
Definition value (x : float) : R :=
  match x with
  | S754_finite s m e => (sign_of s * IZR (Z.pos m) * powerRZ 2 e)%R
  | _ => 0%R
  end.

(** A normal number of sign [s]: a mantissa of 24 digits, at an exponent
    between [lo] and [hi]; its magnitude is at least [2^(lo + 23)] and
    less than [2^(hi + 24)]. *)
Definition normal (s : bool) (lo hi : Z) (x : float) : Prop :=
  ∃ m e, x = S754_finite s m e ∧ digits m = 24 ∧ lo ≤ e ≤ hi.

(** [FLT_EPSILON], [2^-23]: the bound used below on the relative error of
    one rounding to a normal number (rounding to nearest stays within half
    of it). *)
Definition epsilon : R := (/ 8388608)%R.

(** A zero of sign [s], or a finite number of sign [s], normal or
    subnormal, at an exponent of at most [hi]: of magnitude less than
    [2^(hi + 24)]. *)
Definition below (s : bool) (hi : Z) (x : float) : Prop :=
  x = S754_zero s
  ∨ ∃ m e, x = S754_finite s m e ∧ bounded prec emax m e = true ∧ e ≤ hi.

(** The same as a test, for either sign. *)
Definition finite_below (hi : Z) (x : float) : bool :=
  match x with
  | S754_zero _ => true
  | S754_finite _ m e => bounded prec emax m e && (e <=? hi)
  | _ => false
  end.

(** A normal number at an exponent of at least [lo]: of magnitude
    [2^(lo + 23)] or more. *)
Definition normal_above (lo : Z) (x : float) : bool :=
  match x with
  | S754_finite _ m e => (digits m =? 24) && (lo <=? e)
  | _ => false
  end.

(** The smallest positive binary32 number, [2^-149]: the bound on the
    error of a rounding that underflows. *)
Definition tiny : R := powerRZ 2 (-149).

End Binary32.

#[export] Instance binary32_scalar : Scalar Binary32.float := {|
  fzero := S754_zero false;
  fone := Binary32.of_Z 1;
  fadd := SFadd Binary32.prec Binary32.emax;
  fsub := SFsub Binary32.prec Binary32.emax;
  fmul := SFmul Binary32.prec Binary32.emax;
  fdiv := SFdiv Binary32.prec Binary32.emax;
  fsqrt := SFsqrt Binary32.prec Binary32.emax
|}.

#[export] Instance binary32_stored : Stored Binary32.float := {|
  f_bytes := Binary32.to_bytes
|}.

(** *** Exact arithmetic *)

#[export] Instance real_scalar : Scalar R := {|
  fzero := 0%R;
  fone := 1%R;
  fadd := Rplus;
  fsub := Rminus;
  fmul := Rmult;
  fdiv := Rdiv;
  fsqrt := sqrt
|}.

(** ** GLM vectors and matrices *)

Record vec3 (F : Type) := Vec3 { v3x : F; v3y : F; v3z : F }.
Record vec4 (F : Type) := Vec4 { v4x : F; v4y : F; v4z : F; v4w : F }.
(** [glm::mat4] is column-major: [m[i]] is column [i]. *)
Record mat4 (F : Type) := Mat4 { col0 : vec4 F; col1 : vec4 F; col2 : vec4 F; col3 : vec4 F }.

Arguments Vec3 {F} _ _ _.
Arguments v3x {F} _.
Arguments v3y {F} _.
Arguments v3z {F} _.
Arguments Vec4 {F} _ _ _ _.
Arguments v4x {F} _.
Arguments v4y {F} _.
Arguments v4z {F} _.
Arguments v4w {F} _.
Arguments Mat4 {F} _ _ _ _.
Arguments col0 {F} _.
Arguments col1 {F} _.
Arguments col2 {F} _.
Arguments col3 {F} _.

Module glm.
Section Ops.
Context {F : Type} `{Scalar F}.
Local Open Scope glm_scope.

(** [vec4 * vec4] and [vec4 + vec4], component by component. *)
Definition vec4_mul (a b : vec4 F) : vec4 F :=
  Vec4 (v4x a * v4x b) (v4y a * v4y b) (v4z a * v4z b) (v4w a * v4w b).

Definition vec4_add (a b : vec4 F) : vec4 F :=
  Vec4 (v4x a + v4x b) (v4y a + v4y b) (v4z a + v4z b) (v4w a + v4w b).

(** [vec4 * scalar]. *)
Definition vec4_scale (v : vec4 F) (s : F) : vec4 F :=
  Vec4 (v4x v * s) (v4y v * s) (v4z v * s) (v4w v * s).

(** [glm::vec4(s)]: the scalar in every component. *)
Definition splat (s : F) : vec4 F := Vec4 s s s s.

(** [glm::dot] on [vec4]: [tmp = a * b; (tmp.x + tmp.y) + (tmp.z + tmp.w)]. *)
Definition dot (a b : vec4 F) : F :=
  let tmp := vec4_mul a b in
  (v4x tmp + v4y tmp) + (v4z tmp + v4w tmp).

(** [glm::inversesqrt(x)] is [1 / sqrt(x)]. *)
Definition inversesqrt (x : F) : F := fone / fsqrt x.

(** [glm::normalize(v)] is [v * inversesqrt(dot(v, v))]; nothing guards a
    zero-length [v]. *)
Definition normalize (v : vec4 F) : vec4 F :=
  vec4_scale v (inversesqrt (dot v v)).

(** [glm::vec3(vec4)] drops [w]. *)
Definition to_vec3 (v : vec4 F) : vec3 F := Vec3 (v4x v) (v4y v) (v4z v).

(** [mat4 * vec4]: the columns weighted by the components of [v], summed
    as [(m[0]*v[0] + m[1]*v[1]) + (m[2]*v[2] + m[3]*v[3])]. *)
Definition mat4_mul_vec4 (m : mat4 F) (v : vec4 F) : vec4 F :=
  let Mul0 := vec4_mul (col0 m) (splat (v4x v)) in
  let Mul1 := vec4_mul (col1 m) (splat (v4y v)) in
  let Add0 := vec4_add Mul0 Mul1 in
  let Mul2 := vec4_mul (col2 m) (splat (v4z v)) in
  let Mul3 := vec4_mul (col3 m) (splat (v4w v)) in
  let Add1 := vec4_add Mul2 Mul3 in
  vec4_add Add0 Add1.

(** One column of [mat4 * mat4]:
    [A[0]*b[0] + A[1]*b[1] + A[2]*b[2] + A[3]*b[3]], summed left to right. *)
Definition mat4_mul_col (a : mat4 F) (b : vec4 F) : vec4 F :=
  vec4_add
    (vec4_add
       (vec4_add (vec4_scale (col0 a) (v4x b)) (vec4_scale (col1 a) (v4y b)))
       (vec4_scale (col2 a) (v4z b)))
    (vec4_scale (col3 a) (v4w b)).

Definition mat4_mul (a b : mat4 F) : mat4 F :=
  Mat4 (mat4_mul_col a (col0 b)) (mat4_mul_col a (col1 b))
       (mat4_mul_col a (col2 b)) (mat4_mul_col a (col3 b)).

(** [glm::mat4(1.0f)]. *)
Definition identity : mat4 F :=
  Mat4 (Vec4 fone fzero fzero fzero) (Vec4 fzero fone fzero fzero)
       (Vec4 fzero fzero fone fzero) (Vec4 fzero fzero fzero fone).

(** [glm::length] of a [vec3]: [sqrt(dot(v, v))], the dot product summed
    left to right. *)
Definition length3 (v : vec3 F) : F :=
  fsqrt ((v3x v * v3x v + v3y v * v3y v) + v3z v * v3z v).

End Ops.
End glm.

(** The Euclidean length of a binary32 vector, in exact arithmetic. *)
Definition exact_length3 (v : vec3 Binary32.float) : R :=
  sqrt (Binary32.value (v3x v) * Binary32.value (v3x v)
        + Binary32.value (v3y v) * Binary32.value (v3y v)
        + Binary32.value (v3z v) * Binary32.value (v3z v))%R.

(** A vector whose length [glm::normalize] computes without overflow or
    underflow: [w] is zero, [x], [y] and [z] are finite and of magnitude
    less than [2^60], and one of them is of magnitude [2^-60] or more. *)
Definition normalizable (v : vec4 Binary32.float) : bool :=
  Binary32.is_zero (v4w v)
    && Binary32.finite_below 36 (v4x v) && Binary32.finite_below 36 (v4y v)
    && Binary32.finite_below 36 (v4z v)
    && (Binary32.normal_above (-83) (v4x v) || Binary32.normal_above (-83) (v4y v)
        || Binary32.normal_above (-83) (v4z v)).

Definition finite3 (v : vec3 Binary32.float) : bool :=
  Binary32.finite (v3x v) && Binary32.finite (v3y v) && Binary32.finite (v3z v).

Definition finite4 (v : vec4 Binary32.float) : bool :=
  Binary32.finite (v4x v) && Binary32.finite (v4y v)
    && Binary32.finite (v4z v) && Binary32.finite (v4w v).

(** The same vector, up to the sign of zero components. *)
Definition alike3 (a b : vec3 Binary32.float) : Prop :=
  Binary32.alike (v3x a) (v3x b) ∧ Binary32.alike (v3y a) (v3y b)
  ∧ Binary32.alike (v3z a) (v3z b).

(** [a] is [A] up to [p] roundings: between [A * (1 - 2^-23)^p] and
    [A * (1 + 2^-23)^p]. *)
Definition roundings (p : nat) (A a : R) : Prop :=
  (A * (1 - Binary32.epsilon) ^ p <= a
   <= A * (1 + Binary32.epsilon) ^ p)%R.

Definition ordinary4 (v : vec4 Binary32.float) : bool :=
  Binary32.ordinary (v4x v) && Binary32.ordinary (v4y v)
    && Binary32.ordinary (v4z v) && Binary32.ordinary (v4w v).

Definition ordinary_mat (m : mat4 Binary32.float) : bool :=
  ordinary4 (col0 m) && ordinary4 (col1 m) && ordinary4 (col2 m) && ordinary4 (col3 m).

(** ** The engine's data, as far as this file reads it *)

(** Modelled from the spec: the engine's vector, colour and matrix types
    ([KVector3D], [KColor], [KMatrix4x4]) are declared outside the sources;
    they hold the same components as the GLM types [Karma::ToGlm] converts
    them to. *)
Definition KVector3D (F : Type) : Type := vec3 F.
Definition KColor (F : Type) : Type := vec4 F.
Definition KMatrix4x4 (F : Type) : Type := mat4 F.

(** Modelled from the spec: the spot light class is declared outside the
    sources; these are the accessors the translation calls
    ([lightSource->innerAngle()] and so on), read-only. *)
Record Light (F : Type) := {
  innerAngle : F;
  outerAngle : F;
  attenuation : KVector3D F;
  depth : F;
  diffuse : KColor F;
  specular : KVector3D F;
  direction : KVector3D F;
  translation : KVector3D F;
  toMatrix : KMatrix4x4 F
}.

Arguments innerAngle {F} _.
Arguments outerAngle {F} _.
Arguments attenuation {F} _.
Arguments depth {F} _.
Arguments diffuse {F} _.
Arguments specular {F} _.
Arguments direction {F} _.
Arguments translation {F} _.
Arguments toMatrix {F} _.

(** Modelled from the spec: [OpenGLRenderBlock] is declared outside the
    sources; it supplies the frame's two matrices. *)
Record OpenGLRenderBlock (F : Type) := {
  worldToView : mat4 F;
  worldToPersp : mat4 F
}.

Arguments worldToView {F} _.
Arguments worldToPersp {F} _.

Module Karma.
Section ToGlm.
Context {F : Type}.

(** [Karma::ToGlm(KVector3D)]. *)
Definition ToGlm (v : KVector3D F) : vec3 F := Vec3 (v3x v) (v3y v) (v3z v).

(** [Karma::ToGlm(KVector3D, float)]: the vector extended by [w]. *)
Definition ToGlm_w (v : KVector3D F) (w : F) : vec4 F :=
  Vec4 (v3x v) (v3y v) (v3z v) w.

(** [Karma::ToGlm(KColor)]. *)
Definition ToGlm_color (c : KColor F) : vec4 F :=
  Vec4 (v4x c) (v4y c) (v4z c) (v4w c).

(** [Karma::ToGlm(KMatrix4x4)]: the same matrix, column by column. *)
Definition ToGlm_mat (m : KMatrix4x4 F) : mat4 F :=
  Mat4 (col0 m) (col1 m) (col2 m) (col3 m).

End ToGlm.
End Karma.

(** Modelled from the spec: [DataType], the GPU light record, is declared in
    the header, which is not among the sources.  Its size and the byte
    offset of each member are parameters.  [TranslationOffset],
    [DirectionOffset], [AttenuationOffset], [DiffuseOffset],
    [SpecularOffset] and [PerpectiveOffset] are the offsets of [m_viewTrans],
    [m_direction], [m_attenuation], [m_diffuse], [m_specular] and
    [m_perspTrans] that [initializeMesh] passes on. *)
Record DataLayout := {
  sizeofDataType : Z;
  InnerAngleOffset : Z;
  OuterAngleOffset : Z;
  DiffAngleOffset : Z;
  AttenuationOffset : Z;
  DiffuseOffset : Z;
  DirectionOffset : Z;
  PerpectiveOffset : Z;
  SpecularOffset : Z;
  TranslationOffset : Z
}.

(** ** Destination memory *)

(** The destination buffer: the bytes the caller allocated.  Addresses are
    byte offsets from its start. *)
Definition Mem : Type := list byte.

(** A store of [bs] at [addr]; undefined outside the buffer. *)
Definition store_bytes (m : Mem) (addr : Z) (bs : list byte) : option Mem :=
  if decide (0 ≤ addr ∧ addr + Z.of_nat (length bs) ≤ Z.of_nat (length m))
  then Some (list_inserts (Z.to_nat addr) bs m)
  else None.

(** The [n] bytes at [addr]. *)
Definition load_bytes (m : Mem) (addr : Z) (n : nat) : option (list byte) :=
  if decide (0 ≤ addr ∧ addr + Z.of_nat n ≤ Z.of_nat (length m))
  then Some (take n (drop (Z.to_nat addr) m))
  else None.

Section Representation.
Context {F : Type} `{Stored F}.

Definition bytes_of_float (x : F) : list byte :=
  let '(b0, b1, b2, b3) := f_bytes x in [b0; b1; b2; b3].

Definition bytes_of_vec3 (v : vec3 F) : list byte :=
  bytes_of_float (v3x v) ++ bytes_of_float (v3y v) ++ bytes_of_float (v3z v).

Definition bytes_of_vec4 (v : vec4 F) : list byte :=
  bytes_of_float (v4x v) ++ bytes_of_float (v4y v)
    ++ bytes_of_float (v4z v) ++ bytes_of_float (v4w v).

Definition bytes_of_mat4 (m : mat4 F) : list byte :=
  bytes_of_vec4 (col0 m) ++ bytes_of_vec4 (col1 m)
    ++ bytes_of_vec4 (col2 m) ++ bytes_of_vec4 (col3 m).

(** An assignment to a member of [*lightDest]. *)
Definition store_float (m : Mem) (addr : Z) (x : F) : option Mem :=
  store_bytes m addr (bytes_of_float x).
Definition store_vec3 (m : Mem) (addr : Z) (v : vec3 F) : option Mem :=
  store_bytes m addr (bytes_of_vec3 v).
Definition store_vec4 (m : Mem) (addr : Z) (v : vec4 F) : option Mem :=
  store_bytes m addr (bytes_of_vec4 v).
Definition store_mat4 (m : Mem) (addr : Z) (a : mat4 F) : option Mem :=
  store_bytes m addr (bytes_of_mat4 a).

End Representation.

(** ** The translation loops *)

(** What a call can touch: the destination bytes, the light container the
    iterators range over, and the render block. *)
Record World (F : Type) := {
  w_dest : Mem;
  w_lights : list (Light F);
  w_stats : OpenGLRenderBlock F
}.

Arguments w_dest {F} _.
Arguments w_lights {F} _.
Arguments w_stats {F} _.

(** The loop state: the world and the two by-value parameters the loop
    advances, [data] (a byte offset) and [begin] (a position in the
    container). *)
Record LoopState (F : Type) := {
  ls_world : World F;
  ls_data : Z;
  ls_begin : nat
}.

Arguments ls_world {F} _.
Arguments ls_data {F} _.
Arguments ls_begin {F} _.

(** How a run ends: normally, in undefined behaviour (a store outside the
    buffer or [*begin] outside the container), or with the fuel used up. *)
Inductive outcome (A : Type) :=
  | Finished (a : A)
  | Undefined
  | OutOfFuel.

Arguments Finished {A} _.
Arguments Undefined {A}.
Arguments OutOfFuel {A}.

(** [while (begin != end) body]. *)
Fixpoint while_ne {F : Type} (body : LoopState F → option (LoopState F))
    (end_ : nat) (fuel : nat) (st : LoopState F) : outcome (LoopState F) :=
  if decide (ls_begin st = end_) then Finished st
  else match fuel with
       | O => OutOfFuel
       | S fuel' =>
           match body st with
           | None => Undefined
           | Some st' => while_ne body end_ fuel' st'
           end
       end.

Definition outcome_map {A B : Type} (f : A → B) (o : outcome A) : outcome B :=
  match o with
  | Finished a => Finished (f a)
  | Undefined => Undefined
  | OutOfFuel => OutOfFuel
  end.

Section Translate.
Context {F : Type} `{Scalar F} `{Stored F}.
Variable L : DataLayout.
Local Open Scope glm_scope.

(** The body of the loop of [translateBuffer] (lines 27-39). *)
Definition translateBuffer_body (st : LoopState F) : option (LoopState F) :=
  let stats := w_stats (ls_world st) in
  let lightDest := ls_data st in
  lightSource ← w_lights (ls_world st) !! ls_begin st;
  m ← store_float (w_dest (ls_world st)) (lightDest + InnerAngleOffset L)%Z
        (innerAngle lightSource);
  m ← store_float m (lightDest + OuterAngleOffset L)%Z
        (outerAngle lightSource);
  m ← store_float m (lightDest + DiffAngleOffset L)%Z
        (outerAngle lightSource - innerAngle lightSource);
  m ← store_vec4 m (lightDest + AttenuationOffset L)%Z
        (Karma.ToGlm_w (attenuation lightSource) (depth lightSource));
  m ← store_vec4 m (lightDest + DiffuseOffset L)%Z
        (Karma.ToGlm_color (diffuse lightSource));
  m ← store_vec3 m (lightDest + DirectionOffset L)%Z
        (glm.to_vec3 (glm.normalize
           (glm.mat4_mul_vec4 (worldToView stats)
              (Karma.ToGlm_w (direction lightSource) fzero))));
  m ← store_mat4 m (lightDest + PerpectiveOffset L)%Z
        (glm.mat4_mul (worldToPersp stats) (Karma.ToGlm_mat (toMatrix lightSource)));
  m ← store_vec3 m (lightDest + SpecularOffset L)%Z
        (Karma.ToGlm (specular lightSource));
  m ← store_vec3 m (lightDest + TranslationOffset L)%Z
        (glm.to_vec3
           (glm.mat4_mul_vec4 (worldToView stats)
              (Karma.ToGlm_w (translation lightSource) fone)));
  Some {| ls_world := {| w_dest := m;
                         w_lights := w_lights (ls_world st);
                         w_stats := w_stats (ls_world st) |};
          ls_data := (lightDest + sizeofDataType L)%Z;
          ls_begin := S (ls_begin st) |}.

(** [translateBuffer(stats, data, begin, end)]. *)
Definition translateBuffer (fuel : nat) (w : World F) (data : Z)
    (begin end_ : nat) : outcome (World F) :=
  outcome_map ls_world
    (while_ne translateBuffer_body end_ fuel
       {| ls_world := w; ls_data := data; ls_begin := begin |}).

(** The body of the loop of [translateUniforms] (lines 50-62). *)
Definition translateUniforms_body (step : Z) (st : LoopState F)
    : option (LoopState F) :=
  let stats := w_stats (ls_world st) in
  let lightDest := ls_data st in
  lightSource ← w_lights (ls_world st) !! ls_begin st;
  m ← store_float (w_dest (ls_world st)) (lightDest + InnerAngleOffset L)%Z
        (innerAngle lightSource);
  m ← store_float m (lightDest + OuterAngleOffset L)%Z
        (outerAngle lightSource);
  m ← store_float m (lightDest + DiffAngleOffset L)%Z
        (outerAngle lightSource - innerAngle lightSource);
  m ← store_vec4 m (lightDest + AttenuationOffset L)%Z
        (Karma.ToGlm_w (attenuation lightSource) (depth lightSource));
  m ← store_vec4 m (lightDest + DiffuseOffset L)%Z
        (Karma.ToGlm_color (diffuse lightSource));
  m ← store_vec3 m (lightDest + DirectionOffset L)%Z
        (glm.to_vec3 (glm.normalize
           (glm.mat4_mul_vec4 (worldToView stats)
              (Karma.ToGlm_w (direction lightSource) fzero))));
  m ← store_mat4 m (lightDest + PerpectiveOffset L)%Z
        (glm.mat4_mul (worldToPersp stats) (Karma.ToGlm_mat (toMatrix lightSource)));
  m ← store_vec3 m (lightDest + SpecularOffset L)%Z
        (Karma.ToGlm (specular lightSource));
  m ← store_vec3 m (lightDest + TranslationOffset L)%Z
        (glm.to_vec3
           (glm.mat4_mul_vec4 (worldToView stats)
              (Karma.ToGlm_w (translation lightSource) fone)));
  Some {| ls_world := {| w_dest := m;
                         w_lights := w_lights (ls_world st);
                         w_stats := w_stats (ls_world st) |};
          ls_data := (lightDest + step)%Z;
          ls_begin := S (ls_begin st) |}.

(** [translateUniforms(stats, data, step, begin, end)]. *)
Definition translateUniforms (fuel : nat) (w : World F) (data : Z) (step : Z)
    (begin end_ : nat) : outcome (World F) :=
  outcome_map ls_world
    (while_ne (translateUniforms_body step) end_ fuel
       {| ls_world := w; ls_data := data; ls_begin := begin |}).

End Translate.

(** ** Mesh configuration *)

(** Modelled from the spec: [OpenGLElementType] is declared outside the
    sources; [Float] is the one enumerator this file names. *)
Inductive OpenGLElementType := Float.

(** One call of [vertexAttribPointerDivisor]: the attribute at slot
    [va_location] reads [va_elements] components of [va_type] per slot from
    byte offset [va_offset] of each [va_stride]-byte record, over [va_count]
    consecutive slots, advancing once per [va_divisor] instances. *)
Record VertexAttrib := {
  va_location : Z;
  va_elements : Z;
  va_count : Z;
  va_type : OpenGLElementType;
  va_normalized : bool;
  va_stride : Z;
  va_offset : Z;
  va_divisor : Z
}.

(** Modelled from the spec: [OpenGLMesh] is declared outside the sources.
    Of its state only the per-instance attribute declarations matter here,
    in the order the calls are made. *)
Definition OpenGLMesh : Type := list VertexAttrib.

(** Modelled from the spec: [OpenGLMesh::vertexAttribPointerDivisor(location,
    elements, type, normalized, stride, offset, divisor)] declares one
    attribute slot. *)
Definition vertexAttribPointerDivisor (mesh : OpenGLMesh)
    (location elements : Z) (type : OpenGLElementType) (normalized : bool)
    (stride offset divisor : Z) : OpenGLMesh :=
  mesh ++ [ {| va_location := location; va_elements := elements; va_count := 1;
               va_type := type; va_normalized := normalized;
               va_stride := stride; va_offset := offset;
               va_divisor := divisor |} ].

(** Modelled from the spec: the overload with a [count] declares a matrix
    attribute, [count] columns of [elements] components in [count]
    consecutive slots from [location] on. *)
Definition vertexAttribPointerDivisor_n (mesh : OpenGLMesh)
    (location elements count : Z) (type : OpenGLElementType) (normalized : bool)
    (stride offset divisor : Z) : OpenGLMesh :=
  mesh ++ [ {| va_location := location; va_elements := elements; va_count := count;
               va_type := type; va_normalized := normalized;
               va_stride := stride; va_offset := offset;
               va_divisor := divisor |} ].

(** The attribute slots a declaration occupies. *)
Definition va_slots (a : VertexAttrib) : list Z :=
  map (λ i, va_location a + Z.of_nat i) (seq 0 (Z.to_nat (va_count a))).

(** [initializeMesh(mesh)] (lines 10-18). *)
Definition initializeMesh (L : DataLayout) (mesh : OpenGLMesh) : OpenGLMesh :=
  let mesh := vertexAttribPointerDivisor mesh 1 4 Float false
                (sizeofDataType L) (TranslationOffset L) 1 in
  let mesh := vertexAttribPointerDivisor mesh 2 4 Float false
                (sizeofDataType L) (DirectionOffset L) 1 in
  let mesh := vertexAttribPointerDivisor mesh 4 4 Float false
                (sizeofDataType L) (AttenuationOffset L) 1 in
  let mesh := vertexAttribPointerDivisor mesh 5 4 Float false
                (sizeofDataType L) (DiffuseOffset L) 1 in
  let mesh := vertexAttribPointerDivisor mesh 6 3 Float false
                (sizeofDataType L) (SpecularOffset L) 1 in
  vertexAttribPointerDivisor_n mesh 7 4 4 Float false
    (sizeofDataType L) (PerpectiveOffset L) 1.

(** ** The record a light becomes, and the stores that write it *)

(** The values of the members of one [DataType], in the order the loop
    assigns them. *)
Record LightData (F : Type) := {
  m_innerAngle : F;
  m_outerAngle : F;
  m_diffAngle : F;
  m_attenuation : vec4 F;
  m_diffuse : vec4 F;
  m_direction : vec3 F;
  m_perspTrans : mat4 F;
  m_specular : vec3 F;
  m_viewTrans : vec3 F
}.

Arguments m_innerAngle {F} _.
Arguments m_outerAngle {F} _.
Arguments m_diffAngle {F} _.
Arguments m_attenuation {F} _.
Arguments m_diffuse {F} _.
Arguments m_direction {F} _.
Arguments m_perspTrans {F} _.
Arguments m_specular {F} _.
Arguments m_viewTrans {F} _.

(** A member as stored: its byte offset in the record and its bytes. *)
Definition FieldImage : Type := Z * list byte.

Section Records.
Context {F : Type} `{Stored F}.
Variable L : DataLayout.

(** The members of a record with their offsets, in assignment order. *)
Definition field_images (r : LightData F) : list FieldImage :=
  [ (InnerAngleOffset L, bytes_of_float (m_innerAngle r));
    (OuterAngleOffset L, bytes_of_float (m_outerAngle r));
    (DiffAngleOffset L, bytes_of_float (m_diffAngle r));
    (AttenuationOffset L, bytes_of_vec4 (m_attenuation r));
    (DiffuseOffset L, bytes_of_vec4 (m_diffuse r));
    (DirectionOffset L, bytes_of_vec3 (m_direction r));
    (PerpectiveOffset L, bytes_of_mat4 (m_perspTrans r));
    (SpecularOffset L, bytes_of_vec3 (m_specular r));
    (TranslationOffset L, bytes_of_vec3 (m_viewTrans r)) ].

(** The stores of a list of members at base address [dest], in order. *)
Fixpoint store_fields (m : Mem) (dest : Z) (fs : list FieldImage) : option Mem :=
  match fs with
  | [] => Some m
  | (off, bs) :: fs' =>
      match store_bytes m (dest + off) bs with
      | Some m' => store_fields m' dest fs'
      | None => None
      end
  end.

(** One whole record written at [dest]. *)
Definition write_record (m : Mem) (dest : Z) (r : LightData F) : option Mem :=
  store_fields m dest (field_images r).

(** A sequence of record writes, first to last. *)
Fixpoint replay (m : Mem) (ws : list (Z * LightData F)) : option Mem :=
  match ws with
  | [] => Some m
  | (dest, r) :: ws' =>
      match write_record m dest r with
      | Some m' => replay m' ws'
      | None => None
      end
  end.

(** The record at [dest] holds [r]: every member reads back. *)
Definition record_at (m : Mem) (dest : Z) (r : LightData F) : Prop :=
  Forall (λ f : FieldImage, load_bytes m (dest + f.1) (length f.2) = Some f.2)
         (field_images r).

(** The byte sizes of the members, in assignment order. *)
Definition field_extents : list (Z * Z) :=
  [ (InnerAngleOffset L, 4); (OuterAngleOffset L, 4); (DiffAngleOffset L, 4);
    (AttenuationOffset L, 16); (DiffuseOffset L, 16); (DirectionOffset L, 12);
    (PerpectiveOffset L, 64); (SpecularOffset L, 12); (TranslationOffset L, 12) ].

Definition extent_inside (e : Z * Z) : bool :=
  (0 <=? e.1) && (e.1 + e.2 <=? sizeofDataType L).

Definition extents_apart (e1 e2 : Z * Z) : bool :=
  (e1.1 + e1.2 <=? e2.1) || (e2.1 + e2.2 <=? e1.1).

Fixpoint pairwise_apart (es : list (Z * Z)) : bool :=
  match es with
  | [] => true
  | e :: es' => forallb (extents_apart e) es' && pairwise_apart es'
  end.

(** What the language guarantees of a struct: every member lies inside
    the record and no two members overlap. *)
Definition layout_ok : bool :=
  forallb extent_inside field_extents && pairwise_apart field_extents.

End Records.

Section Meaning.
Context {F : Type} `{Scalar F}.
Local Open Scope glm_scope.

(** The record computed from one light: the right-hand sides of the nine
    assignments. *)
Definition translate_light (stats : OpenGLRenderBlock F) (l : Light F)
    : LightData F :=
  {| m_innerAngle := innerAngle l;
     m_outerAngle := outerAngle l;
     m_diffAngle := outerAngle l - innerAngle l;
     m_attenuation := Karma.ToGlm_w (attenuation l) (depth l);
     m_diffuse := Karma.ToGlm_color (diffuse l);
     m_direction :=
       glm.to_vec3 (glm.normalize
         (glm.mat4_mul_vec4 (worldToView stats) (Karma.ToGlm_w (direction l) fzero)));
     m_perspTrans := glm.mat4_mul (worldToPersp stats) (Karma.ToGlm_mat (toMatrix l));
     m_specular := Karma.ToGlm (specular l);
     m_viewTrans :=
       glm.to_vec3
         (glm.mat4_mul_vec4 (worldToView stats) (Karma.ToGlm_w (translation l) fone)) |}.

(** The record writes of a run over [ls], the lights of the range in
    order: light [k] goes to [data + k * stride]. *)
Fixpoint record_writes (stats : OpenGLRenderBlock F) (data stride : Z)
    (ls : list (Light F)) : list (Z * LightData F) :=
  match ls with
  | [] => []
  | l :: ls' =>
      (data, translate_light stats l)
        :: record_writes stats (data + stride)%Z stride ls'
  end.

(** The lights of the range [[begin, end)]. *)
Definition range (lights : list (Light F)) (begin end_ : nat) : list (Light F) :=
  take (end_ - begin) (drop begin lights).

End Meaning.

(** The offset and byte size of a stored member. *)
Definition image_extent (f : FieldImage) : Z * Z := (f.1, Z.of_nat (length f.2)).

Section Reference.
Context {F : Type} `{Scalar F} `{Stored F}.
Variable L : DataLayout.

(** One iteration, told in one piece: the light at [begin] becomes a
    record, the record is written at [data], and both cursors move on,
    [data] by [stride] bytes. *)
Definition advance (stride : Z) (st : LoopState F) : option (LoopState F) :=
  l ← w_lights (ls_world st) !! ls_begin st;
  m ← write_record L (w_dest (ls_world st)) (ls_data st)
        (translate_light (w_stats (ls_world st)) l);
  Some {| ls_world := {| w_dest := m;
                         w_lights := w_lights (ls_world st);
                         w_stats := w_stats (ls_world st) |};
          ls_data := ls_data st + stride;
          ls_begin := S (ls_begin st) |}.

(** The world after a run whose stores leave the destination as [m], or
    undefined behaviour when a store fell outside the buffer. *)
Definition finished_with (w : World F) (m : option Mem) : outcome (World F) :=
  match m with
  | Some m' => Finished {| w_dest := m'; w_lights := w_lights w; w_stats := w_stats w |}
  | None => Undefined
  end.

(** The destination has room for [n] records, [stride] bytes apart from
    [data] on. *)
Definition has_room (m : Mem) (data stride : Z) (n : nat) : Prop :=
  ∀ k : nat, (k < n)%nat →
    0 ≤ data + Z.of_nat k * stride
    ∧ data + Z.of_nat k * stride + sizeofDataType L ≤ Z.of_nat (length m).

End Reference.

(** ** Sample data *)

Module Sample.

(** A layout with the members packed in the order the spec lists them. *)
Definition packed : DataLayout :=
  {| sizeofDataType := 144;
     InnerAngleOffset := 0;
     OuterAngleOffset := 4;
     DiffAngleOffset := 8;
     AttenuationOffset := 12;
     DiffuseOffset := 28;
     DirectionOffset := 44;
     SpecularOffset := 56;
     TranslationOffset := 68;
     PerpectiveOffset := 80 |}.

Definition f32 (z : Z) : Binary32.float := Binary32.of_Z z.

(** The matrix of a translation by [(x, y, z)]. *)
Definition translate_matrix {F : Type} `{Scalar F} (x y z : F) : mat4 F :=
  Mat4 (Vec4 fone fzero fzero fzero) (Vec4 fzero fone fzero fzero)
       (Vec4 fzero fzero fone fzero) (Vec4 x y z fone).

(** The light of the spec's example: inner 10, outer 30, at [(0, 0, -5)],
    neither rotated nor scaled, shining along [-z]. *)
Definition lamp : Light Binary32.float :=
  {| innerAngle := f32 10;
     outerAngle := f32 30;
     attenuation := Vec3 (f32 1) (f32 0) (f32 0);
     depth := f32 20;
     diffuse := Vec4 (f32 1) (f32 1) (f32 1) (f32 1);
     specular := Vec3 (f32 1) (f32 1) (f32 1);
     direction := Vec3 (f32 0) (f32 0) (f32 (-1));
     translation := Vec3 (f32 0) (f32 0) (f32 (-5));
     toMatrix := translate_matrix (f32 0) (f32 0) (f32 (-5)) |}.

(** A second light, off the axes. *)
Definition lantern : Light Binary32.float :=
  {| innerAngle := f32 15;
     outerAngle := f32 25;
     attenuation := Vec3 (f32 1) (f32 2) (f32 0);
     depth := f32 50;
     diffuse := Vec4 (f32 1) (f32 0) (f32 0) (f32 1);
     specular := Vec3 (f32 0) (f32 1) (f32 0);
     direction := Vec3 (f32 1) (f32 2) (f32 2);
     translation := Vec3 (f32 3) (f32 0) (f32 4);
     toMatrix := translate_matrix (f32 3) (f32 0) (f32 4) |}.

(** A light whose direction has length zero. *)
Definition aimless : Light Binary32.float :=
  {| innerAngle := f32 10;
     outerAngle := f32 30;
     attenuation := Vec3 (f32 1) (f32 0) (f32 0);
     depth := f32 20;
     diffuse := Vec4 (f32 1) (f32 1) (f32 1) (f32 1);
     specular := Vec3 (f32 1) (f32 1) (f32 1);
     direction := Vec3 (f32 0) (f32 0) (f32 0);
     translation := Vec3 (f32 0) (f32 0) (f32 (-5));
     toMatrix := translate_matrix (f32 0) (f32 0) (f32 (-5)) |}.

(** Identity view and perspective matrices. *)
Definition still {F : Type} `{Scalar F} : OpenGLRenderBlock F :=
  {| worldToView := glm.identity; worldToPersp := glm.identity |}.

(** A camera moved off the origin. *)
Definition shifted : OpenGLRenderBlock Binary32.float :=
  {| worldToView := translate_matrix (f32 1) (f32 2) (f32 3);
     worldToPersp := translate_matrix (f32 1) (f32 2) (f32 3) |}.

Definition blank (n : nat) : Mem := repeat x00 n.

(** Two lights and room for two packed records. *)
Definition scene : World Binary32.float :=
  {| w_dest := blank 288; w_lights := [lamp; lantern]; w_stats := still |}.

Definition shifted_scene : World Binary32.float :=
  {| w_dest := blank 288; w_lights := [lamp; lantern]; w_stats := shifted |}.

(** The same two lights and room for two records 160 bytes apart. *)
Definition wide_scene : World Binary32.float :=
  {| w_dest := blank 320; w_lights := [lamp; lantern]; w_stats := still |}.

(** A light whose direction is long: [(2^100, 0, 0)]. *)
Definition distant : Light Binary32.float :=
  {| innerAngle := f32 10;
     outerAngle := f32 30;
     attenuation := Vec3 (f32 1) (f32 0) (f32 0);
     depth := f32 20;
     diffuse := Vec4 (f32 1) (f32 1) (f32 1) (f32 1);
     specular := Vec3 (f32 1) (f32 1) (f32 1);
     direction := Vec3 (Binary32.of_scaled 1 100) (f32 0) (f32 0);
     translation := Vec3 (f32 0) (f32 0) (f32 (-5));
     toMatrix := translate_matrix (f32 0) (f32 0) (f32 (-5)) |}.

Definition distant_scene : World Binary32.float :=
  {| w_dest := blank 144; w_lights := [distant]; w_stats := still |}.

(** A view matrix that is not affine: its bottom row is [(1, 0, 0, 1)]. *)
Definition skewed : OpenGLRenderBlock Binary32.float :=
  {| worldToView :=
       Mat4 (Vec4 (f32 1) (f32 0) (f32 0) (f32 1)) (Vec4 (f32 0) (f32 1) (f32 0) (f32 0))
            (Vec4 (f32 0) (f32 0) (f32 1) (f32 0)) (Vec4 (f32 0) (f32 0) (f32 0) (f32 1));
     worldToPersp := glm.identity |}.

(** The lights of [scene] followed by a third one, and a destination that
    holds other bytes. *)
Definition other_scene : World Binary32.float :=
  {| w_dest := repeat xff 288;
     w_lights := [lamp; lantern; aimless];
     w_stats := still |}.

(** [Sample.lamp] turned to point along [(x, y, z)]. *)
Definition aimed (x y z : Z) : Light Binary32.float :=
  {| innerAngle := innerAngle lamp;
     outerAngle := outerAngle lamp;
     attenuation := attenuation lamp;
     depth := depth lamp;
     diffuse := diffuse lamp;
     specular := specular lamp;
     direction := Vec3 (f32 x) (f32 y) (f32 z);
     translation := translation lamp;
     toMatrix := toMatrix lamp |}.

(** The 728 non-zero directions with integer components from -4 to 4. *)
Definition grid : list Z := [-4; -3; -2; -1; 0; 1; 2; 3; 4].
Definition small_directions : list (Z * Z * Z) :=
  filter (λ d, d ≠ (0, 0, 0)) (x ← grid; y ← grid; z ← grid; [(x, y, z)]).

(** The direction member computed for [d] has length 1 to within [tol]. *)
Definition unit_within (tol : Binary32.float)
    (stats : OpenGLRenderBlock Binary32.float) (d : Z * Z * Z) : bool :=
  Binary32.within tol
    (glm.length3 (m_direction (translate_light stats (aimed d.1.1 d.1.2 d.2))))
    fone.

(** A light in exact arithmetic, pointing along [(3, 0, 4)]. *)
Definition real_lamp : Light R :=
  {| innerAngle := 10%R;
     outerAngle := 30%R;
     attenuation := Vec3 1%R 0%R 0%R;
     depth := 20%R;
     diffuse := Vec4 1%R 1%R 1%R 1%R;
     specular := Vec3 1%R 1%R 1%R;
     direction := Vec3 3%R 0%R 4%R;
     translation := Vec3 0%R 0%R (-5)%R;
     toMatrix := translate_matrix 0%R 0%R (-5)%R |}.

End Sample.

(** The three members the spec's example names, in the slot at [slot]. *)
Definition example_members (L : DataLayout) (m : Mem) (slot : Z)
    (l : Light Binary32.float) : Prop :=
  load_bytes m (slot + DiffAngleOffset L) 4
    = Some (bytes_of_float (Binary32.of_Z 20))
  ∧ load_bytes m (slot + TranslationOffset L) 12
    = Some (bytes_of_vec3
              (Vec3 (Binary32.of_Z 0) (Binary32.of_Z 0) (Binary32.of_Z (-5))))
  ∧ load_bytes m (slot + PerpectiveOffset L) 64
    = Some (bytes_of_mat4 (toMatrix l)).

(** The members that identity matrices leave as the light has them, in the
    slot at [slot]: the position, the perspective transform, and the
    direction, normalized. *)
Definition identity_members (L : DataLayout) (m : Mem) (slot : Z)
    (l : Light Binary32.float) : Prop :=
  load_bytes m (slot + TranslationOffset L) 12
    = Some (bytes_of_vec3 (translation l))
  ∧ load_bytes m (slot + PerpectiveOffset L) 64
    = Some (bytes_of_mat4 (toMatrix l))
  ∧ load_bytes m (slot + DirectionOffset L) 12
    = Some (bytes_of_vec3
              (glm.to_vec3
                 (glm.normalize
                    (Vec4 (v3x (direction l)) (v3y (direction l))
                          (v3z (direction l)) (S754_zero false))))).

(** The members that are copied, in the slot at [slot]: the two angles,
    the attenuation with the depth as fourth component, and the colours. *)
Definition copied_members {F : Type} `{Stored F} (L : DataLayout) (m : Mem)
    (slot : Z) (l : Light F) : Prop :=
  load_bytes m (slot + InnerAngleOffset L) 4
    = Some (bytes_of_float (innerAngle l))
  ∧ load_bytes m (slot + OuterAngleOffset L) 4
    = Some (bytes_of_float (outerAngle l))
  ∧ load_bytes m (slot + AttenuationOffset L) 16
    = Some (bytes_of_vec4
              (Vec4 (v3x (attenuation l)) (v3y (attenuation l))
                    (v3z (attenuation l)) (depth l)))
  ∧ load_bytes m (slot + DiffuseOffset L) 16
    = Some (bytes_of_vec4 (diffuse l))
  ∧ load_bytes m (slot + SpecularOffset L) 12
    = Some (bytes_of_vec3 (specular l)).

(** ** Runs as sequences of stores *)

(** One store: its address and its bytes. *)
Definition Store : Type := Z * list byte.

(** A sequence of stores, first to last; undefined as soon as one falls
    outside the buffer. *)
Fixpoint store_all (m : Mem) (ss : list Store) : option Mem :=
  match ss with
  | [] => Some m
  | (addr, bs) :: ss' =>
      match store_bytes m addr bs with
      | Some m' => store_all m' ss'
      | None => None
      end
  end.

(** The nine stores that write the record [r] at [dest], in assignment
    order. *)
Definition record_stores {F : Type} `{Stored F} (L : DataLayout) (dest : Z)
    (r : LightData F) : list Store :=
  map (λ f : FieldImage, (dest + f.1, f.2)) (field_images L r).

(** All the stores of a sequence of record writes. *)
Fixpoint run_stores {F : Type} `{Stored F} (L : DataLayout)
    (ws : list (Z * LightData F)) : list Store :=
  match ws with
  | [] => []
  | (dest, r) :: ws' => record_stores L dest r ++ run_stores L ws'
  end.

(** The extent [(start, size)] lies inside a buffer of [len] bytes. *)
Definition extent_in_buffer (len : nat) (e : Z * Z) : bool :=
  (0 <=? e.1) && (e.1 + e.2 <=? Z.of_nat len).

(** The extent [(start, size)] contains byte [i]. *)
Definition extent_covers (i : nat) (e : Z * Z) : bool :=
  (e.1 <=? Z.of_nat i) && (Z.of_nat i <? e.1 + e.2).

(** The byte that a sequence of stores leaves at position [i]: that of the
    last store that contains [i], if there is one. *)
Fixpoint last_written (ss : list Store) (i : nat) : option byte :=
  match ss with
  | [] => None
  | s :: ss' =>
      match last_written ss' i with
      | Some b => Some b
      | None =>
          if extent_covers i (image_extent s)
          then s.2 !! Z.to_nat (Z.of_nat i - s.1)
          else None
      end
  end.

(** The member extents of [n] records written [stride] bytes apart from
    [data] on, in the order they are stored. *)
Fixpoint run_extents (L : DataLayout) (data stride : Z) (n : nat) : list (Z * Z) :=
  match n with
  | O => []
  | S n' =>
      map (λ e : Z * Z, (data + e.1, e.2)) (field_extents L)
        ++ run_extents L (data + stride) stride n'
  end.

(** Every member of each of the [n] records lies inside a buffer of [len]
    bytes. *)
Definition members_in_buffer (L : DataLayout) (len : nat) (data stride : Z)
    (n : nat) : Prop :=
  ∀ (k : nat) (ext : Z * Z), (k < n)%nat → ext ∈ field_extents L →
    0 ≤ data + Z.of_nat k * stride + ext.1
    ∧ data + Z.of_nat k * stride + ext.1 + ext.2 ≤ Z.of_nat len.

(** Byte [i] belongs to a member of one of the [n] records. *)
Definition in_some_member (L : DataLayout) (data stride : Z) (n : nat)
    (i : nat) : Prop :=
  ∃ (k : nat) (ext : Z * Z), (k < n)%nat ∧ ext ∈ field_extents L
    ∧ data + Z.of_nat k * stride + ext.1 ≤ Z.of_nat i
      < data + Z.of_nat k * stride + ext.1 + ext.2.

(** ** Instanced attribute fetches *)

(** Modelled from the spec: the GPU side is not among the sources.  An
    attribute declared with divisor 1 yields one value per instance;
    instance [k] reads it at [offset + k * stride] of the vertex buffer that
    starts at [base]. *)
Definition instance_address (a : VertexAttrib) (base : Z) (k : nat) : Z :=
  base + Z.of_nat k * va_stride a + va_offset a.

(** The bytes one instance reads for an attribute: [float]s of four bytes,
    [va_elements] per slot, over [va_count] slots. *)
Definition attribute_size (a : VertexAttrib) : nat :=
  Z.to_nat (4 * va_elements a * va_count a).

Definition ordinary_vec (v : vec3 Binary32.float) : bool :=
  Binary32.ordinary (v3x v) && Binary32.ordinary (v3y v)
    && Binary32.ordinary (v3z v).

(** ** Proof steps *)

(** Finds a member in a list written out. *)
Ltac find_member :=
  repeat first [apply list_elem_of_here | apply list_elem_of_further].

(** Turns the scalar operations at the real numbers into those of [R]. *)
Ltac real_ops :=
  cbn [v3x v3y v3z v4x v4y v4z v4w col0 col1 col2 col3
       fadd fsub fmul fdiv fsqrt fone fzero real_scalar] in *.

(** * Properties *)

(** ** Stores and loads *)

Section MemoryFacts.
Implicit Types (m : Mem) (bs : list byte) (addr : Z).

Lemma store_bytes_Some m addr bs m' :
  store_bytes m addr bs = Some m' ↔
  (0 ≤ addr ∧ addr + Z.of_nat (length bs) ≤ Z.of_nat (length m))
    ∧ m' = list_inserts (Z.to_nat addr) bs m.
Proof.
  unfold store_bytes. case_decide; split.
  - intros [= <-]. done.
  - intros [_ ->]. done.
  - discriminate.
  - intros [? _]. contradiction.
Qed.

Lemma store_bytes_length m addr bs m' :
  store_bytes m addr bs = Some m' → length m' = length m.
Proof.
  intros [_ ->]%store_bytes_Some. apply length_inserts.
Qed.

Lemma store_bytes_fits m addr bs :
  0 ≤ addr → addr + Z.of_nat (length bs) ≤ Z.of_nat (length m) →
  is_Some (store_bytes m addr bs).
Proof.
  intros Hlo Hhi. unfold store_bytes. rewrite decide_True by done. eauto.
Qed.

Lemma load_bytes_Some m addr n bs :
  load_bytes m addr n = Some bs ↔
  (0 ≤ addr ∧ addr + Z.of_nat n ≤ Z.of_nat (length m))
    ∧ bs = take n (drop (Z.to_nat addr) m).
Proof.
  unfold load_bytes. case_decide; split.
  - intros [= <-]. done.
  - intros [_ ->]. done.
  - discriminate.
  - intros [? _]. contradiction.
Qed.

(** What was stored reads back. *)
Lemma load_store_same m addr bs m' :
  store_bytes m addr bs = Some m' →
  load_bytes m' addr (length bs) = Some bs.
Proof.
  intros [[Hlo Hhi] ->]%store_bytes_Some.
  apply load_bytes_Some. rewrite length_inserts. split; [done|].
  apply list_eq. intros i.
  rewrite lookup_take, lookup_drop.
  case_decide as Hi.
  - rewrite list_lookup_inserts by lia. f_equal. lia.
  - apply lookup_ge_None. lia.
Qed.

(** A store leaves the bytes outside its extent alone. *)
Lemma load_store_apart m addr bs m' a n :
  store_bytes m addr bs = Some m' →
  a + Z.of_nat n ≤ addr ∨ addr + Z.of_nat (length bs) ≤ a →
  load_bytes m' a n = load_bytes m a n.
Proof.
  intros [[Hlo Hhi] ->]%store_bytes_Some Hapart.
  unfold load_bytes. rewrite length_inserts.
  case_decide as Hin; [|done]. f_equal.
  apply list_eq. intros i.
  rewrite !lookup_take. case_decide; [|done].
  rewrite !lookup_drop.
  destruct Hapart.
  - apply list_lookup_inserts_lt. lia.
  - apply list_lookup_inserts_ge. lia.
Qed.

Lemma lookup_store_apart m addr bs m' (i : nat) :
  store_bytes m addr bs = Some m' →
  Z.of_nat i < addr ∨ addr + Z.of_nat (length bs) ≤ Z.of_nat i →
  m' !! i = m !! i.
Proof.
  intros [[Hlo Hhi] ->]%store_bytes_Some [|].
  - apply list_lookup_inserts_lt. lia.
  - apply list_lookup_inserts_ge. lia.
Qed.

End MemoryFacts.

(** ** Records in memory *)

Section FieldFacts.
Implicit Types (m : Mem) (fs : list FieldImage) (dest : Z).

Lemma store_fields_length m dest fs m' :
  store_fields m dest fs = Some m' → length m' = length m.
Proof.
  revert m. induction fs as [|[off bs] fs IH]; intros m; simpl.
  - intros [= <-]. done.
  - destruct (store_bytes m (dest + off) bs) as [m1|] eqn:E; [|done].
    intros Hrest. rewrite (IH _ Hrest). by eapply store_bytes_length.
Qed.

Lemma store_fields_fits m dest fs :
  Forall (λ f : FieldImage,
            0 ≤ dest + f.1
            ∧ dest + f.1 + Z.of_nat (length f.2) ≤ Z.of_nat (length m)) fs →
  is_Some (store_fields m dest fs).
Proof.
  revert m. induction fs as [|[off bs] fs IH]; intros m Hall; simpl.
  - eauto.
  - apply Forall_cons in Hall as [[Hlo Hhi] Hall]. simpl in Hlo, Hhi.
    destruct (store_bytes_fits m (dest + off) bs Hlo Hhi) as [m1 E].
    rewrite E. apply IH.
    rewrite (store_bytes_length _ _ _ _ E). done.
Qed.

(** Bytes that no member covers keep their value. *)
Lemma store_fields_frame m dest fs m' a n :
  store_fields m dest fs = Some m' →
  Forall (λ f : FieldImage,
            a + Z.of_nat n ≤ dest + f.1
            ∨ dest + f.1 + Z.of_nat (length f.2) ≤ a) fs →
  load_bytes m' a n = load_bytes m a n.
Proof.
  revert m. induction fs as [|[off bs] fs IH]; intros m; simpl.
  - intros [= <-]. done.
  - destruct (store_bytes m (dest + off) bs) as [m1|] eqn:E; [|done].
    intros Hrest [Hhead Hall]%Forall_cons. simpl in Hhead.
    rewrite (IH _ Hrest Hall).
    eapply load_store_apart; [done|]. lia.
Qed.

Lemma forallb_extents_apart e fs dest :
  forallb (extents_apart e) (map image_extent fs) = true →
  Forall (λ f : FieldImage,
            (dest + e.1) + e.2 ≤ dest + f.1
            ∨ dest + f.1 + Z.of_nat (length f.2) ≤ dest + e.1) fs.
Proof.
  induction fs as [|f fs IH]; simpl; [constructor|].
  intros [Hf Hrest]%andb_prop. constructor; [|by apply IH].
  unfold extents_apart in Hf. simpl in Hf.
  apply orb_prop in Hf as [Hf|Hf]; apply Z.leb_le in Hf; lia.
Qed.

(** With members that do not overlap, every member reads back after the
    last store. *)
Lemma store_fields_read m dest fs m' :
  pairwise_apart (map image_extent fs) = true →
  store_fields m dest fs = Some m' →
  Forall (λ f : FieldImage, load_bytes m' (dest + f.1) (length f.2) = Some f.2) fs.
Proof.
  revert m. induction fs as [|[off bs] fs IH]; intros m; simpl; [constructor|].
  intros [Hhead Hrest]%andb_prop.
  destruct (store_bytes m (dest + off) bs) as [m1|] eqn:E; [|done].
  intros Hstore. constructor; [|by eapply IH]. simpl.
  rewrite (store_fields_frame _ _ _ _ (dest + off) (length bs) Hstore).
  - by eapply load_store_same.
  - apply (forallb_extents_apart (off, Z.of_nat (length bs))). done.
Qed.

End FieldFacts.

Section RecordFacts.
Context {F : Type} `{Stored F}.
Variable L : DataLayout.
Implicit Types (m : Mem) (r : LightData F) (dest : Z).

Lemma bytes_of_float_length (x : F) : length (bytes_of_float x) = 4%nat.
Proof. unfold bytes_of_float. by destruct (f_bytes x) as [[[? ?] ?] ?]. Qed.

Lemma bytes_of_vec3_length (v : vec3 F) : length (bytes_of_vec3 v) = 12%nat.
Proof. unfold bytes_of_vec3. rewrite !length_app, !bytes_of_float_length. done. Qed.

Lemma bytes_of_vec4_length (v : vec4 F) : length (bytes_of_vec4 v) = 16%nat.
Proof. unfold bytes_of_vec4. rewrite !length_app, !bytes_of_float_length. done. Qed.

Lemma bytes_of_mat4_length (a : mat4 F) : length (bytes_of_mat4 a) = 64%nat.
Proof. unfold bytes_of_mat4. rewrite !length_app, !bytes_of_vec4_length. done. Qed.

(** The members of any record occupy the extents of the layout. *)
Lemma field_images_extents r :
  map image_extent (field_images L r) = field_extents L.
Proof.
  unfold field_images, field_extents, image_extent. simpl.
  rewrite !bytes_of_float_length, !bytes_of_vec3_length,
    !bytes_of_vec4_length, !bytes_of_mat4_length. done.
Qed.

Lemma layout_ok_inside :
  layout_ok L = true →
  Forall (λ e : Z * Z, 0 ≤ e.1 ∧ e.1 + e.2 ≤ sizeofDataType L) (field_extents L).
Proof.
  intros [Hin _]%andb_prop. rewrite forallb_forall in Hin.
  apply List.Forall_forall. intros e He. specialize (Hin e He).
  unfold extent_inside in Hin. apply andb_prop in Hin as [H1 H2].
  apply Z.leb_le in H1, H2. done.
Qed.

Lemma layout_ok_apart :
  layout_ok L = true → pairwise_apart (field_extents L) = true.
Proof. by intros [_ ?]%andb_prop. Qed.

Lemma field_images_inside r :
  layout_ok L = true →
  Forall (λ f : FieldImage,
            0 ≤ f.1 ∧ f.1 + Z.of_nat (length f.2) ≤ sizeofDataType L)
         (field_images L r).
Proof.
  intros Hok%layout_ok_inside. rewrite <- (field_images_extents r) in Hok.
  by apply Forall_fmap in Hok.
Qed.

Lemma write_record_length m dest r m' :
  write_record L m dest r = Some m' → length m' = length m.
Proof. apply store_fields_length. Qed.

(** A record fits wherever [sizeof(DataType)] bytes are available. *)
Lemma write_record_fits m dest r :
  layout_ok L = true →
  0 ≤ dest → dest + sizeofDataType L ≤ Z.of_nat (length m) →
  is_Some (write_record L m dest r).
Proof.
  intros Hok Hlo Hhi. apply store_fields_fits.
  eapply Forall_impl; [by apply field_images_inside|].
  intros f [? ?]. simpl. lia.
Qed.

(** After the nine stores the whole record is in place. *)
Lemma write_record_read m dest r m' :
  layout_ok L = true →
  write_record L m dest r = Some m' → record_at L m' dest r.
Proof.
  intros Hok Hw. apply (store_fields_read m); [|done].
  rewrite field_images_extents. by apply layout_ok_apart.
Qed.

(** Writing a record changes nothing outside its [sizeof(DataType)] bytes. *)
Lemma write_record_frame m dest r m' a n :
  layout_ok L = true →
  write_record L m dest r = Some m' →
  a + Z.of_nat n ≤ dest ∨ dest + sizeofDataType L ≤ a →
  load_bytes m' a n = load_bytes m a n.
Proof.
  intros Hok Hw Hapart. eapply store_fields_frame; [done|].
  eapply Forall_impl; [by apply field_images_inside|].
  intros f [? ?]. simpl. lia.
Qed.

Lemma write_record_lookup m dest r m' (i : nat) :
  layout_ok L = true →
  write_record L m dest r = Some m' →
  Z.of_nat i < dest ∨ dest + sizeofDataType L ≤ Z.of_nat i →
  m' !! i = m !! i.
Proof.
  intros Hok Hw Hapart.
  assert (Hlen : length m' = length m) by by eapply write_record_length.
  destruct (decide (i < length m)%nat) as [Hi|Hi].
  - pose proof (write_record_frame m dest r m' (Z.of_nat i) 1 Hok Hw) as Hf.
    unfold load_bytes in Hf. rewrite Hlen in Hf.
    rewrite !decide_True in Hf by lia.
    specialize (Hf ltac:(lia)). injection Hf as Hf.
    rewrite Nat2Z.id in Hf.
    apply (f_equal (λ l : list byte, l !! 0%nat)) in Hf.
    rewrite !lookup_take_lt, !lookup_drop, Nat.add_0_r in Hf by lia. done.
  - rewrite (lookup_ge_None_2 m') by lia.
    rewrite (lookup_ge_None_2 m) by lia. done.
Qed.

(** A record stays in place when another one is written clear of it. *)
Lemma record_at_preserved m dest r dest' r' m' :
  layout_ok L = true →
  record_at L m dest r →
  write_record L m dest' r' = Some m' →
  dest + sizeofDataType L ≤ dest' ∨ dest' + sizeofDataType L ≤ dest →
  record_at L m' dest r.
Proof.
  intros Hok Hat Hw Hapart. unfold record_at in *.
  pose proof (field_images_inside r Hok) as Hin.
  eapply Forall_impl; [exact (List.Forall_and Hat Hin)|].
  intros f [Hload [? ?]]. simpl in *.
  rewrite <- Hload. eapply write_record_frame; [done..|]. lia.
Qed.

End RecordFacts.

(** ** The loops *)

Section LoopFacts.
Context {F : Type} `{Scalar F} `{Stored F}.
Variable L : DataLayout.
Implicit Types (st : LoopState F) (w : World F) (m : Mem).

(** The nine assignments of [translateBuffer] write the record of the
    light, and [++data] moves on by one record. *)
Lemma translateBuffer_body_advance st :
  translateBuffer_body L st = advance L (sizeofDataType L) st.
Proof.
  unfold translateBuffer_body, advance, write_record, field_images,
    translate_light, store_float, store_vec3, store_vec4, store_mat4.
  destruct (w_lights (ls_world st) !! ls_begin st) as [l|]; simpl; [|done].
  repeat (match goal with
          | |- context [store_bytes ?m ?a ?bs] =>
              destruct (store_bytes m a bs); simpl; [|done]
          end).
  done.
Qed.

(** So do the nine assignments of [translateUniforms]; [data += step]
    moves on by [step] bytes. *)
Lemma translateUniforms_body_advance step st :
  translateUniforms_body L step st = advance L step st.
Proof.
  unfold translateUniforms_body, advance, write_record, field_images,
    translate_light, store_float, store_vec3, store_vec4, store_mat4.
  destruct (w_lights (ls_world st) !! ls_begin st) as [l|]; simpl; [|done].
  repeat (match goal with
          | |- context [store_bytes ?m ?a ?bs] =>
              destruct (store_bytes m a bs); simpl; [|done]
          end).
  done.
Qed.

Lemma while_ne_ext (body1 body2 : LoopState F → option (LoopState F))
    end_ fuel st :
  (∀ st', body1 st' = body2 st') →
  while_ne body1 end_ fuel st = while_ne body2 end_ fuel st.
Proof.
  intros Hext. revert st. induction fuel as [|fuel IH]; intros st; simpl.
  - done.
  - case_decide; [done|]. rewrite Hext.
    destruct (body2 st); [apply IH|done].
Qed.

Lemma range_nil (lights : list (Light F)) b : range lights b b = [].
Proof. unfold range. by rewrite Nat.sub_diag. Qed.

Lemma range_cons (lights : list (Light F)) b e l :
  lights !! b = Some l → (b < e)%nat →
  range lights b e = l :: range lights (S b) e.
Proof.
  intros Hl Hlt. unfold range.
  rewrite (drop_S _ _ _ Hl).
  replace (e - b)%nat with (S (e - S b)) by lia. done.
Qed.

Lemma range_length (lights : list (Light F)) b e :
  (e ≤ length lights)%nat → length (range lights b e) = (e - b)%nat.
Proof. intros. unfold range. rewrite length_take, length_drop. lia. Qed.

Lemma range_lookup (lights : list (Light F)) b e k :
  (k < e - b)%nat → range lights b e !! k = lights !! (b + k)%nat.
Proof. intros. unfold range. by rewrite lookup_take_lt, lookup_drop. Qed.

Lemma record_writes_length (stats : OpenGLRenderBlock F) data stride ls :
  length (record_writes stats data stride ls) = length ls.
Proof.
  revert data. induction ls as [|l ls IH]; intros data; simpl; [done|].
  by rewrite IH.
Qed.

(** Entry [k] of the writes: light [k] of the range, at [data + k * stride]. *)
Lemma record_writes_lookup (stats : OpenGLRenderBlock F) data stride ls (k : nat) :
  record_writes stats data stride ls !! k
  = (λ l, (data + Z.of_nat k * stride, translate_light stats l)) <$> ls !! k.
Proof.
  revert data k. induction ls as [|l ls IH]; intros data k; simpl; [done|].
  destruct k as [|k]; simpl.
  - do 2 f_equal. lia.
  - rewrite IH. destruct (ls !! k); simpl; [|done]. do 2 f_equal. lia.
Qed.

(** The loop over a well-formed range, given fuel for every light of it:
    the record writes of the range, replayed on the destination. *)
Lemma while_ne_advance stride e fuel st :
  (ls_begin st ≤ e)%nat →
  (ls_begin st < e → e ≤ length (w_lights (ls_world st)))%nat →
  (e - ls_begin st ≤ fuel)%nat →
  while_ne (advance L stride) e fuel st
  = match replay L (w_dest (ls_world st))
            (record_writes (w_stats (ls_world st)) (ls_data st) stride
               (range (w_lights (ls_world st)) (ls_begin st) e)) with
    | Some m =>
        Finished {| ls_world := {| w_dest := m;
                                   w_lights := w_lights (ls_world st);
                                   w_stats := w_stats (ls_world st) |};
                    ls_data := ls_data st + Z.of_nat (e - ls_begin st) * stride;
                    ls_begin := e |}
    | None => Undefined
    end.
Proof.
  revert st. induction fuel as [|fuel IH]; intros [[m lights stats] data b];
    simpl; intros Hbe Hrange Hfuel.
  - assert (b = e) as -> by lia. rewrite decide_True by done.
    rewrite range_nil, Nat.sub_diag. simpl. do 2 f_equal. lia.
  - case_decide as Hne.
    + subst b. rewrite range_nil, Nat.sub_diag. simpl. do 2 f_equal. lia.
    + destruct (lookup_lt_is_Some_2 lights b ltac:(lia)) as [l Hl].
      rewrite (range_cons _ _ _ _ Hl) by lia.
      unfold advance at 1. simpl. rewrite Hl. simpl.
      destruct (write_record L m data (translate_light stats l)) as [m1|];
        simpl; [|done].
      rewrite IH by (simpl; lia). simpl.
      destruct (replay L m1 _); [|done].
      do 2 f_equal.
      replace (e - b)%nat with (S (e - S b)) by lia.
      rewrite Nat2Z.inj_succ. lia.
Qed.

(** A run that finishes had a well-formed range and fuel for it. *)
Lemma while_ne_Finished stride e fuel st st' :
  while_ne (advance L stride) e fuel st = Finished st' →
  (ls_begin st ≤ e)%nat
  ∧ (ls_begin st < e → e ≤ length (w_lights (ls_world st)))%nat
  ∧ (e - ls_begin st ≤ fuel)%nat.
Proof.
  revert st. induction fuel as [|fuel IH]; intros st; simpl.
  - case_decide; [|done]. intros _. lia.
  - case_decide as Hbe; [intros _; lia|].
    destruct (advance L stride st) as [st1|] eqn:E; [|done].
    intros Hrun. apply IH in Hrun.
    unfold advance in E.
    destruct (w_lights (ls_world st) !! ls_begin st) as [l|] eqn:Hl;
      simpl in E; [|done].
    destruct (write_record L _ _ _); simpl in E; [|done].
    injection E as <-. simpl in Hrun.
    apply lookup_lt_Some in Hl. lia.
Qed.

End LoopFacts.

(** ** Sequences of record writes *)

Section ReplayFacts.
Context {F : Type} `{Scalar F} `{Stored F}.
Variable L : DataLayout.
Hypothesis layout : layout_ok L = true.
Implicit Types (m : Mem) (ws : list (Z * LightData F)).

Lemma sizeof_positive : 0 < sizeofDataType L.
Proof using layout.
  pose proof (layout_ok_inside L layout) as Hin.
  apply Forall_cons in Hin as [[? ?] _]. simpl in *. lia.
Qed.

Lemma replay_length m ws m' : replay L m ws = Some m' → length m' = length m.
Proof.
  revert m. induction ws as [|[d r] ws IH]; intros m; simpl.
  - by intros [= <-].
  - destruct (write_record L m d r) as [m1|] eqn:E; [|done].
    intros Hrest. rewrite (IH _ Hrest). by eapply write_record_length.
Qed.

Lemma replay_snoc m ws d r :
  replay L m (ws ++ [(d, r)]) = replay L m ws ≫= λ m1, write_record L m1 d r.
Proof.
  revert m. induction ws as [|[d0 r0] ws IH]; intros m; simpl.
  - by destruct (write_record L m d r).
  - destruct (write_record L m d0 r0); simpl; [apply IH|done].
Qed.

(** With room for every record, every write succeeds. *)
Lemma replay_fits m ws :
  Forall (λ w : Z * LightData F,
            0 ≤ w.1 ∧ w.1 + sizeofDataType L ≤ Z.of_nat (length m)) ws →
  is_Some (replay L m ws).
Proof using layout.
  revert m. induction ws as [|[d r] ws IH]; intros m Hall; simpl; [eauto|].
  apply Forall_cons in Hall as [[Hlo Hhi] Hall]. simpl in *.
  destruct (write_record_fits L m d r layout Hlo Hhi) as [m1 E]. rewrite E.
  apply IH. by rewrite (write_record_length _ _ _ _ _ E).
Qed.

(** A record stays in place while records clear of it are written. *)
Lemma replay_preserves m ws m' d r :
  record_at L m d r →
  replay L m ws = Some m' →
  Forall (λ w : Z * LightData F,
            d + sizeofDataType L ≤ w.1 ∨ w.1 + sizeofDataType L ≤ d) ws →
  record_at L m' d r.
Proof using layout.
  revert m. induction ws as [|[d0 r0] ws IH]; intros m Hat; simpl.
  - by intros [= <-].
  - destruct (write_record L m d0 r0) as [m1|] eqn:E; [|done].
    intros Hrest [Hhead Hall]%Forall_cons. simpl in Hhead.
    eapply IH; [|done..].
    eapply record_at_preserved; eauto.
Qed.

(** Bytes clear of every record written keep their value. *)
Lemma replay_frame m ws m' (i : nat) :
  replay L m ws = Some m' →
  Forall (λ w : Z * LightData F,
            Z.of_nat i < w.1 ∨ w.1 + sizeofDataType L ≤ Z.of_nat i) ws →
  m' !! i = m !! i.
Proof using layout.
  revert m. induction ws as [|[d0 r0] ws IH]; intros m; simpl.
  - by intros [= <-].
  - destruct (write_record L m d0 r0) as [m1|] eqn:E; [|done].
    intros Hrest [Hhead Hall]%Forall_cons. simpl in Hhead.
    rewrite (IH _ Hrest Hall). by eapply write_record_lookup.
Qed.

(** The record written last is in place, whatever was written before. *)
Lemma replay_last m ws d r m' :
  replay L m (ws ++ [(d, r)]) = Some m' → record_at L m' d r.
Proof using layout.
  rewrite replay_snoc. destruct (replay L m ws) as [m1|]; simpl; [|done].
  by apply write_record_read.
Qed.

Lemma record_writes_snoc (stats : OpenGLRenderBlock F) data stride ls l :
  record_writes stats data stride (ls ++ [l])
  = record_writes stats data stride ls
      ++ [(data + Z.of_nat (length ls) * stride, translate_light stats l)].
Proof.
  revert data. induction ls as [|l0 ls IH]; intros data; simpl.
  - do 3 f_equal. lia.
  - rewrite IH. do 4 f_equal. lia.
Qed.

Lemma record_writes_dest (stats : OpenGLRenderBlock F) data stride ls
    (P : Z → Prop) :
  (∀ k : nat, (k < length ls)%nat → P (data + Z.of_nat k * stride)) →
  Forall (λ w : Z * LightData F, P w.1) (record_writes stats data stride ls).
Proof.
  intros HP. apply Forall_lookup. intros k [d r] Hk.
  rewrite record_writes_lookup in Hk.
  destruct (ls !! k) as [l|] eqn:Hl; simpl in Hk; [|done].
  injection Hk as <- <-. simpl. apply HP. by eapply lookup_lt_Some.
Qed.

Lemma replay_room m (stats : OpenGLRenderBlock F) data stride ls :
  has_room L m data stride (length ls) →
  is_Some (replay L m (record_writes stats data stride ls)).
Proof using layout.
  intros Hroom. apply replay_fits.
  apply (record_writes_dest stats data stride ls
           (λ d, 0 ≤ d ∧ d + sizeofDataType L ≤ Z.of_nat (length m))).
  exact Hroom.
Qed.

(** Records at least [sizeof(DataType)] bytes apart do not disturb each
    other: after the run record [k] holds light [k]. *)
Lemma replay_record_at m (stats : OpenGLRenderBlock F) data stride ls m' (k : nat) l :
  sizeofDataType L ≤ Z.abs stride →
  replay L m (record_writes stats data stride ls) = Some m' →
  ls !! k = Some l →
  record_at L m' (data + Z.of_nat k * stride) (translate_light stats l).
Proof using layout.
  intros Hstride. pose proof sizeof_positive as Hpos.
  revert m data k. induction ls as [|l0 ls IH]; intros m data k; simpl; [done|].
  destruct (write_record L m data (translate_light stats l0)) as [m1|] eqn:E;
    [|done].
  intros Hrest Hk. destruct k as [|k]; simpl in Hk.
  - injection Hk as ->.
    replace (data + Z.of_nat 0 * stride) with data by lia.
    eapply replay_preserves; [by eapply write_record_read|done|].
    apply (record_writes_dest stats (data + stride) stride ls
             (λ d, data + sizeofDataType L ≤ d ∨ d + sizeofDataType L ≤ data)).
    intros j _. nia.
  - replace (data + Z.of_nat (S k) * stride)
      with (data + stride + Z.of_nat k * stride) by lia.
    by eapply IH.
Qed.

End ReplayFacts.

(** ** Whole runs *)

Section RunFacts.
Context {F : Type} `{Scalar F} `{Stored F}.
Variable L : DataLayout.
Implicit Types (w : World F) (m : Mem).

(** A run of [translateBuffer] over a well-formed range is the replay of
    the record writes of the range, one record apart. *)
Lemma translateBuffer_replay fuel w data b e :
  (b ≤ e)%nat → (b < e → e ≤ length (w_lights w))%nat → (e - b ≤ fuel)%nat →
  translateBuffer L fuel w data b e
  = finished_with w
      (replay L (w_dest w)
         (record_writes (w_stats w) data (sizeofDataType L) (range (w_lights w) b e))).
Proof.
  intros Hbe Hrange Hfuel. unfold translateBuffer.
  rewrite (while_ne_ext _ (advance L (sizeofDataType L)))
    by apply translateBuffer_body_advance.
  rewrite while_ne_advance by done. simpl.
  by destruct (replay L _ _).
Qed.

(** The same for [translateUniforms], [step] bytes apart. *)
Lemma translateUniforms_replay fuel w data step b e :
  (b ≤ e)%nat → (b < e → e ≤ length (w_lights w))%nat → (e - b ≤ fuel)%nat →
  translateUniforms L fuel w data step b e
  = finished_with w
      (replay L (w_dest w)
         (record_writes (w_stats w) data step (range (w_lights w) b e))).
Proof.
  intros Hbe Hrange Hfuel. unfold translateUniforms.
  rewrite (while_ne_ext _ (advance L step))
    by apply translateUniforms_body_advance.
  rewrite while_ne_advance by done. simpl.
  by destruct (replay L _ _).
Qed.

Lemma finished_with_Finished w (o : option Mem) w' :
  finished_with w o = Finished w' →
  o = Some (w_dest w') ∧ w_lights w' = w_lights w ∧ w_stats w' = w_stats w.
Proof. destruct o; simpl; [|done]. by intros [= <-]. Qed.

Lemma outcome_map_Finished {A B : Type} (f : A → B) (o : outcome A) b :
  outcome_map f o = Finished b → ∃ a, o = Finished a ∧ b = f a.
Proof. destruct o; simpl; [|done..]. intros [= <-]. eauto. Qed.

(** What a finished run of [translateUniforms] tells. *)
Lemma translateUniforms_Finished fuel w data step b e w' :
  translateUniforms L fuel w data step b e = Finished w' →
  ((b ≤ e)%nat ∧ (b < e → e ≤ length (w_lights w))%nat ∧ (e - b ≤ fuel)%nat)
  ∧ replay L (w_dest w)
      (record_writes (w_stats w) data step (range (w_lights w) b e))
    = Some (w_dest w')
  ∧ w_lights w' = w_lights w ∧ w_stats w' = w_stats w.
Proof.
  intros Hrun.
  assert ((b ≤ e)%nat ∧ (b < e → e ≤ length (w_lights w))%nat
          ∧ (e - b ≤ fuel)%nat) as Hwf.
  { unfold translateUniforms in Hrun.
    apply outcome_map_Finished in Hrun as (st' & Hrun & _).
    rewrite (while_ne_ext _ (advance L step)) in Hrun
      by apply translateUniforms_body_advance.
    by apply while_ne_Finished in Hrun. }
  split; [done|]. destruct Hwf as (Hbe & Hrange & Hfuel).
  rewrite translateUniforms_replay in Hrun by done.
  by apply finished_with_Finished in Hrun.
Qed.

Lemma translateBuffer_Finished fuel w data b e w' :
  translateBuffer L fuel w data b e = Finished w' →
  ((b ≤ e)%nat ∧ (b < e → e ≤ length (w_lights w))%nat ∧ (e - b ≤ fuel)%nat)
  ∧ replay L (w_dest w)
      (record_writes (w_stats w) data (sizeofDataType L) (range (w_lights w) b e))
    = Some (w_dest w')
  ∧ w_lights w' = w_lights w ∧ w_stats w' = w_stats w.
Proof.
  intros Hrun.
  assert ((b ≤ e)%nat ∧ (b < e → e ≤ length (w_lights w))%nat
          ∧ (e - b ≤ fuel)%nat) as Hwf.
  { unfold translateBuffer in Hrun.
    apply outcome_map_Finished in Hrun as (st' & Hrun & _).
    rewrite (while_ne_ext _ (advance L (sizeofDataType L))) in Hrun
      by apply translateBuffer_body_advance.
    by apply while_ne_Finished in Hrun. }
  split; [done|]. destruct Hwf as (Hbe & Hrange & Hfuel).
  rewrite translateBuffer_replay in Hrun by done.
  by apply finished_with_Finished in Hrun.
Qed.

Hypothesis layout : layout_ok L = true.

(** After [translateBuffer], slot [k] of the destination holds the record
    of light [begin + k]. *)
Lemma translateBuffer_record_at fuel w data b e w' (k : nat) l :
  translateBuffer L fuel w data b e = Finished w' →
  w_lights w !! (b + k)%nat = Some l → (b + k < e)%nat →
  record_at L (w_dest w') (data + Z.of_nat k * sizeofDataType L)
    (translate_light (w_stats w) l).
Proof using layout.
  intros (_ & Hreplay & _)%translateBuffer_Finished Hl Hk.
  eapply replay_record_at; [done| |done|].
  - pose proof (sizeof_positive L layout). lia.
  - rewrite range_lookup by lia. done.
Qed.

(** After [translateUniforms] with records at least [sizeof(DataType)]
    apart, the record [k] strides into the destination holds light
    [begin + k]. *)
Lemma translateUniforms_record_at fuel w data step b e w' (k : nat) l :
  sizeofDataType L ≤ Z.abs step →
  translateUniforms L fuel w data step b e = Finished w' →
  w_lights w !! (b + k)%nat = Some l → (b + k < e)%nat →
  record_at L (w_dest w') (data + Z.of_nat k * step)
    (translate_light (w_stats w) l).
Proof using layout.
  intros Hstep (_ & Hreplay & _)%translateUniforms_Finished Hl Hk.
  eapply replay_record_at; [done..|].
  rewrite range_lookup by lia. done.
Qed.

Lemma range_snoc (lights : list (Light F)) b k l :
  lights !! (b + k)%nat = Some l →
  range lights b (S (b + k)) = range lights b (b + k) ++ [l].
Proof.
  intros Hl. unfold range.
  replace (S (b + k) - b)%nat with (S k) by lia.
  replace (b + k - b)%nat with k by lia.
  apply take_S_r. by rewrite lookup_drop.
Qed.

(** With any stride: right after light [begin + k] has been processed,
    that is, after the run over the range that ends with it, its record
    is in place [k] strides into the destination. *)
Lemma translateUniforms_last_record_at fuel w data step b w' (k : nat) l :
  translateUniforms L fuel w data step b (S (b + k)) = Finished w' →
  w_lights w !! (b + k)%nat = Some l →
  record_at L (w_dest w') (data + Z.of_nat k * step)
    (translate_light (w_stats w) l).
Proof using layout.
  intros (_ & Hreplay & _)%translateUniforms_Finished Hl.
  rewrite (range_snoc _ _ _ _ Hl), record_writes_snoc in Hreplay.
  apply (replay_last L layout) in Hreplay.
  rewrite range_length in Hreplay by (apply lookup_lt_Some in Hl; lia).
  by replace (b + k - b)%nat with k in Hreplay by lia.
Qed.

(** A member of a record in place reads back. *)
Lemma record_at_field m dest (r : LightData F) off bs :
  record_at L m dest r → (off, bs) ∈ field_images L r →
  load_bytes m (dest + off) (length bs) = Some bs.
Proof.
  intros Hat Hin. unfold record_at in Hat.
  rewrite Forall_forall in Hat. exact (Hat _ Hin).
Qed.

Lemma record_at_diffAngle m dest (r : LightData F) :
  record_at L m dest r →
  load_bytes m (dest + DiffAngleOffset L) 4 = Some (bytes_of_float (m_diffAngle r)).
Proof.
  intros Hat. rewrite <- (bytes_of_float_length (m_diffAngle r)).
  apply (record_at_field _ _ r); [done|]. unfold field_images. find_member.
Qed.

Lemma record_at_direction m dest (r : LightData F) :
  record_at L m dest r →
  load_bytes m (dest + DirectionOffset L) 12 = Some (bytes_of_vec3 (m_direction r)).
Proof.
  intros Hat. rewrite <- (bytes_of_vec3_length (m_direction r)).
  apply (record_at_field _ _ r); [done|]. unfold field_images. find_member.
Qed.

Lemma record_at_viewTrans m dest (r : LightData F) :
  record_at L m dest r →
  load_bytes m (dest + TranslationOffset L) 12 = Some (bytes_of_vec3 (m_viewTrans r)).
Proof.
  intros Hat. rewrite <- (bytes_of_vec3_length (m_viewTrans r)).
  apply (record_at_field _ _ r); [done|]. unfold field_images. find_member.
Qed.

Lemma record_at_perspTrans m dest (r : LightData F) :
  record_at L m dest r →
  load_bytes m (dest + PerpectiveOffset L) 64 = Some (bytes_of_mat4 (m_perspTrans r)).
Proof.
  intros Hat. rewrite <- (bytes_of_mat4_length (m_perspTrans r)).
  apply (record_at_field _ _ r); [done|]. unfold field_images. find_member.
Qed.

End RunFacts.

(** ** Identity matrices in binary32 *)

Section Binary32Facts.
Import Binary32.
Implicit Types (x : Binary32.float).

Lemma one_literal : @fone _ binary32_scalar = S754_finite false 8388608 (-23).
Proof. reflexivity. Qed.

(** [1.0f * x] is [x]: the product of the mantissas is [m] shifted left by
    23 bits, and rounding shifts it back without loss. *)
Lemma mul_one_l x : ordinary x = true → fmul fone x = x.
Proof.
  rewrite one_literal.
  destruct x as [s|s| |s m e]; try done.
  intros [Hcan Hmax]%andb_prop.
  unfold canonical_mantissa in Hcan. apply Z.eqb_eq in Hcan.
  change (fmul (S754_finite false 8388608 (-23)) (S754_finite s m e))
    with (binary_round_aux prec emax s
            (Z.pos m~0~0~0~0~0~0~0~0~0~0~0~0~0~0~0~0~0~0~0~0~0~0~0)
            (-23 + e) loc_Exact).
  unfold binary_round_aux. unfold shr_fexp at 1.
  assert (Hd : Zdigits2 (Z.pos m~0~0~0~0~0~0~0~0~0~0~0~0~0~0~0~0~0~0~0~0~0~0~0)
               = Z.pos (digits2_pos m) + 23).
  { simpl. lia. }
  rewrite Hd.
  replace (Z.pos (digits2_pos m) + 23 + (-23 + e))
    with (Z.pos (digits2_pos m) + e) by lia.
  rewrite Hcan.
  replace (e - (-23 + e)) with 23 by lia.
  cbn [shr shr_record_of_loc SpecFloat.iter_pos shr_1 orb].
  replace (-23 + e + 23) with e by lia.
  cbn [shr_m loc_of_shr_record round_nearest_even].
  unfold shr_fexp. cbn [Zdigits2]. rewrite Hcan, Z.sub_diag.
  cbn [shr shr_record_of_loc shr_m].
  rewrite Hmax. done.
Qed.

Lemma mul_zero_l x : ordinary x = true → fmul fzero x = S754_zero (signbit x).
Proof. by destruct x. Qed.

Lemma add_zero_r x s : ordinary x = true → fadd x (S754_zero s) = x.
Proof. destruct x as [[]| | |]; try done. by destruct s. Qed.

Lemma add_zero_l x s : ordinary x = true → fadd (S754_zero s) x = x.
Proof. destruct x as [[]| | |]; try done. by destruct s. Qed.

Lemma add_zeros s1 s2 : fadd (S754_zero s1) (S754_zero s2) = S754_zero (s1 && s2).
Proof. by destruct s1, s2. Qed.

Lemma identity_mul_col (b : vec4 Binary32.float) :
  ordinary4 b = true → glm.mat4_mul_col glm.identity b = b.
Proof.
  destruct b as [x y z w]. unfold ordinary4. cbn [v4x v4y v4z v4w].
  intros [[[Hx Hy]%andb_prop Hz]%andb_prop Hw]%andb_prop.
  unfold glm.mat4_mul_col, glm.vec4_add, glm.vec4_scale, glm.identity.
  cbn [v4x v4y v4z v4w col0 col1 col2 col3].
  rewrite !mul_one_l, !mul_zero_l by done.
  do 3 rewrite ?add_zeros, ?(add_zero_r x), ?(add_zero_r y), ?(add_zero_r z),
    ?(add_zero_r w), ?(add_zero_l x), ?(add_zero_l y), ?(add_zero_l z),
    ?(add_zero_l w) by done.
  done.
Qed.

(** With ordinary entries, [identity * m] is [m], bit for bit. *)
Lemma identity_mul_mat (m : mat4 Binary32.float) :
  ordinary_mat m = true → glm.mat4_mul glm.identity m = m.
Proof.
  destruct m as [c0 c1 c2 c3]. unfold ordinary_mat. cbn [col0 col1 col2 col3].
  intros [[[H0 H1]%andb_prop H2]%andb_prop H3]%andb_prop.
  unfold glm.mat4_mul. cbn [col0 col1 col2 col3].
  by rewrite !identity_mul_col.
Qed.

(** With ordinary coordinates, [identity * (x, y, z, 1)] is [(x, y, z, 1)]. *)
Lemma identity_mul_point x y z :
  ordinary x = true → ordinary y = true → ordinary z = true →
  glm.mat4_mul_vec4 glm.identity (Vec4 x y z fone) = Vec4 x y z fone.
Proof.
  intros Hx Hy Hz.
  unfold glm.mat4_mul_vec4, glm.vec4_add, glm.vec4_mul, glm.splat, glm.identity.
  cbn [v4x v4y v4z v4w col0 col1 col2 col3].
  rewrite !mul_one_l, !mul_zero_l by done.
  do 3 rewrite ?add_zeros, ?(add_zero_r x), ?(add_zero_r y), ?(add_zero_r z),
    ?(add_zero_r fone), ?(add_zero_l x), ?(add_zero_l y), ?(add_zero_l z),
    ?(add_zero_l fone) by done.
  done.
Qed.

End Binary32Facts.

(** ** Rounding in binary32 *)

Section Rounding.
Local Abbreviation u := Binary32.epsilon.

Lemma digits_bounds (m : positive) :
  2 ^ (Binary32.digits m - 1) ≤ Z.pos m < 2 ^ Binary32.digits m.
Proof.
  unfold Binary32.digits. induction m as [p IH|p IH|]; cbn [digits2_pos].
  - rewrite Pos2Z.inj_succ.
    replace (Z.succ (Z.pos (digits2_pos p)) - 1) with (Z.succ (Z.pos (digits2_pos p) - 1)) by lia.
    rewrite !Z.pow_succ_r by lia. lia.
  - rewrite Pos2Z.inj_succ.
    replace (Z.succ (Z.pos (digits2_pos p)) - 1) with (Z.succ (Z.pos (digits2_pos p) - 1)) by lia.
    rewrite !Z.pow_succ_r by lia. lia.
  - simpl. lia.
Qed.

Lemma digits_unique (m : positive) (d : Z) :
  2 ^ (d - 1) ≤ Z.pos m < 2 ^ d → Binary32.digits m = d.
Proof.
  intros [Hlo Hhi]. pose proof (digits_bounds m) as [Hlo' Hhi'].
  assert (Hpos : 0 < Binary32.digits m) by (unfold Binary32.digits; lia).
  destruct (Z.lt_trichotomy (Binary32.digits m) d) as [Hlt|[Heq|Hgt]]; [|done|].
  - exfalso. assert (2 ^ Binary32.digits m ≤ 2 ^ (d - 1)) by (apply Z.pow_le_mono_r; lia). lia.
  - exfalso.
    destruct (Z.lt_ge_cases d 0) as [Hneg|Hnn].
    + rewrite (Z.pow_neg_r 2 d) in Hhi by done. lia.
    + assert (2 ^ d ≤ 2 ^ (Binary32.digits m - 1)) by (apply Z.pow_le_mono_r; lia). lia.
Qed.

Lemma shr_1_m (r : shr_record) :
  0 ≤ shr_m r → shr_m (shr_1 r) = shr_m r / 2.
Proof.
  destruct r as [[|[p|p|]|p] b s]; cbn [shr_m shr_1]; intros Hnn; try lia.
  - done.
  - rewrite Pos2Z.inj_xI. apply Z.div_unique with 1; lia.
  - rewrite Pos2Z.inj_xO. apply Z.div_unique with 0; lia.
  - done.
Qed.

Lemma shr_1_nonneg (r : shr_record) : 0 ≤ shr_m r → 0 ≤ shr_m (shr_1 r).
Proof. intros Hnn. rewrite shr_1_m by done. apply Z.div_pos; lia. Qed.

Lemma iter_shr_1_m (p : positive) (r : shr_record) :
  0 ≤ shr_m r →
  0 ≤ shr_m (SpecFloat.iter_pos shr_1 p r)
  ∧ shr_m (SpecFloat.iter_pos shr_1 p r) = shr_m r / 2 ^ Z.pos p.
Proof.
  revert r. induction p as [p IH|p IH|]; intros r Hnn; cbn [SpecFloat.iter_pos].
  - destruct (IH (shr_1 r) (shr_1_nonneg r Hnn)) as [H1 E1].
    destruct (IH _ H1) as [H2 E2]. split; [done|].
    rewrite E2, E1, shr_1_m by done.
    rewrite !Z.div_div by (try apply Z.pow_pos_nonneg; lia).
    f_equal. change (2 * (2 ^ Z.pos p * 2 ^ Z.pos p) = 2 ^ Z.pos p~1).
    rewrite <- Z.pow_add_r, <- Z.pow_succ_r by lia. f_equal. lia.
  - destruct (IH r Hnn) as [H1 E1].
    destruct (IH _ H1) as [H2 E2]. split; [done|].
    rewrite E2, E1.
    rewrite !Z.div_div by (try apply Z.pow_pos_nonneg; lia).
    f_equal. rewrite <- Z.pow_add_r by lia. f_equal. lia.
  - split; [by apply shr_1_nonneg|]. rewrite shr_1_m by done. done.
Qed.

Lemma shr_record_of_loc_m (m : Z) (l : location) : shr_m (shr_record_of_loc m l) = m.
Proof. by destruct l as [|[]]. Qed.

Lemma round_nearest_even_cases (m : Z) (l : location) :
  round_nearest_even m l = m ∨ round_nearest_even m l = m + 1.
Proof.
  destruct l as [|[]]; cbn [round_nearest_even]; auto.
  destruct (Z.even m); auto.
Qed.

(** The first shift of [binary_round_aux], to the exponent [E] where the
    result lies. *)
Lemma shr_fexp_general (m : positive) (e : Z) (l : location) (E : Z) :
  E = Z.max (Binary32.digits m + e - 24) (-149) → e ≤ E →
  ∃ r, shr_fexp 24 128 (Z.pos m) e l = (r, E)
       ∧ shr_m r = Z.pos m / 2 ^ (E - e)
       ∧ (E = e → l = loc_Exact → loc_of_shr_record r = loc_Exact).
Proof.
  intros HE Hle. unfold shr_fexp, fexp, emin. cbn [Zdigits2].
  change (Z.pos (digits2_pos m)) with (Binary32.digits m).
  replace (Z.max (Binary32.digits m + e - 24) (3 - 128 - 24)) with E by lia.
  unfold shr. destruct (E - e) as [|p|p] eqn:Ek; [| |lia].
  - eexists. split; [f_equal; lia|]. split.
    + rewrite shr_record_of_loc_m. by rewrite Z.pow_0_r, Z.div_1_r.
    + by intros _ ->.
  - eexists. split; [f_equal; lia|]. split; [|lia].
    destruct (iter_shr_1_m p (shr_record_of_loc (Z.pos m) l)) as [_ E'].
    + rewrite shr_record_of_loc_m. lia.
    + by rewrite E', shr_record_of_loc_m.
Qed.

(** Rounding to binary32, wherever the result lies below the overflow
    threshold: the mantissa is cut at the exponent [E] of the result, to
    [q], and the result is [q] or [q + 1] at that exponent -- a zero, a
    subnormal or a normal number.  A mantissa that needs no cut and is
    exact is kept. *)
Lemma binary_round_aux_general (s : bool) (m : positive) (e : Z) (l : location) (E : Z) :
  E = Z.max (Binary32.digits m + e - 24) (-149) → e ≤ E → E ≤ 103 →
  ∃ q' : Z,
    (q' = Z.pos m / 2 ^ (E - e) ∨ q' = Z.pos m / 2 ^ (E - e) + 1)
    ∧ (E = e → l = loc_Exact → q' = Z.pos m)
    ∧ ((q' = 0 ∧ binary_round_aux 24 128 s (Z.pos m) e l = S754_zero s)
       ∨ ∃ m' e',
           binary_round_aux 24 128 s (Z.pos m) e l = S754_finite s m' e'
           ∧ bounded 24 128 m' e' = true
           ∧ E ≤ e' ≤ E + 1
           ∧ (E = Binary32.digits m + e - 24 → Binary32.digits m' = 24)
           ∧ Z.pos m' * 2 ^ (e' - E) = q').
Proof.
  intros HE Hle Hmax.
  destruct (shr_fexp_general m e l E HE Hle) as (r & Hshr & Hr & Hexact).
  pose proof (digits_bounds m) as Hm.
  assert (Hdpos : 0 < Binary32.digits m) by (unfold Binary32.digits; lia).
  assert (Hpk : 0 < 2 ^ (E - e)) by (apply Z.pow_pos_nonneg; lia).
  set (q := Z.pos m / 2 ^ (E - e)) in *.
  assert (Hq0 : 0 ≤ q) by (apply Z.div_pos; lia).
  assert (Hq : q < 2 ^ 24).
  { apply Z.div_lt_upper_bound; [done|].
    rewrite <- Z.pow_add_r by lia.
    eapply Z.lt_le_trans; [apply Hm|]. apply Z.pow_le_mono_r; lia. }
  assert (Hqn : E = Binary32.digits m + e - 24 → 2 ^ 23 ≤ q).
  { intros HEn. apply Z.div_le_lower_bound; [done|].
    rewrite <- Z.pow_add_r by lia.
    etrans; [|apply Hm]. apply Z.pow_le_mono_r; lia. }
  unfold binary_round_aux. rewrite Hshr.
  set (m1 := round_nearest_even (shr_m r) (loc_of_shr_record r)).
  assert (Hm1 : m1 = q ∨ m1 = q + 1).
  { unfold m1. rewrite Hr. apply round_nearest_even_cases. }
  assert (Hm1x : E = e → l = loc_Exact → m1 = Z.pos m).
  { intros He Hl. unfold m1. rewrite (Hexact He Hl). cbn [round_nearest_even].
    rewrite Hr. unfold q. replace (E - e) with 0 by lia.
    by rewrite Z.pow_0_r, Z.div_1_r. }
  exists m1. split; [done|]. split; [done|].
  destruct (Z.eq_dec m1 0) as [Hzero|Hnz].
  - left. split; [done|]. rewrite Hzero.
    unfold shr_fexp, fexp, emin. cbn [Zdigits2 shr_record_of_loc].
    unfold shr.
    destruct (Z.max (0 + E - 24) (3 - 128 - 24) - E) eqn:Ek2; [done| lia |done].
  - right.
    destruct (Z.eq_dec m1 (2 ^ 24)) as [Htop|Hnot].
    + rewrite Htop. change (2 ^ 24) with (Z.pos (xO 8388608)).
      change (shr_fexp 24 128 (Z.pos 16777216) E loc_Exact)
        with (shr (shr_record_of_loc (Z.pos 16777216) loc_Exact) E
                (Z.max (25 + E - 24) (-149) - E)).
      replace (Z.max (25 + E - 24) (-149) - E) with 1 by lia.
      cbn [shr shr_record_of_loc SpecFloat.iter_pos shr_1 shr_m].
      replace (E + 1 <=? 128 - 24) with true by (symmetry; apply Z.leb_le; lia).
      exists 8388608%positive, (E + 1). split; [done|]. split.
      { unfold bounded, canonical_mantissa, fexp, emin.
        change (Z.pos (digits2_pos 8388608)) with 24.
        apply andb_true_intro. split; [apply Z.eqb_eq|apply Z.leb_le]; lia. }
      split; [lia|]. split; [done|].
      replace (E + 1 - E) with 1 by lia. done.
    + assert (Hrange : 0 < m1 < 2 ^ 24) by lia.
      destruct m1 as [|p1|p1] eqn:Ep1; [lia| |lia].
      pose proof (digits_bounds p1) as Hp1.
      assert (Hd1pos : 0 < Binary32.digits p1) by (unfold Binary32.digits; lia).
      assert (Hd1 : Binary32.digits p1 ≤ 24).
      { destruct (Z.le_gt_cases (Binary32.digits p1) 24) as [|Hgt]; [done|exfalso].
        assert (2 ^ 24 ≤ 2 ^ (Binary32.digits p1 - 1))
          by (apply Z.pow_le_mono_r; lia). lia. }
      assert (Hd1n : E = Binary32.digits m + e - 24 → Binary32.digits p1 = 24).
      { intros HEn. apply digits_unique. specialize (Hqn HEn).
        change (2 ^ (24 - 1)) with (2 ^ 23). lia. }
      unfold shr_fexp, fexp, emin. cbn [Zdigits2].
      change (Z.pos (digits2_pos p1)) with (Binary32.digits p1).
      unfold shr.
      destruct (Z.max (Binary32.digits p1 + E - 24) (3 - 128 - 24) - E) eqn:Ek2;
        [| lia |].
      * cbn [shr_record_of_loc shr_m].
        replace (E <=? 128 - 24) with true by (symmetry; apply Z.leb_le; lia).
        exists p1, E. split; [done|]. split.
        { unfold bounded, canonical_mantissa, fexp, emin.
          change (Z.pos (digits2_pos p1)) with (Binary32.digits p1).
          apply andb_true_intro. split; [apply Z.eqb_eq|apply Z.leb_le]; lia. }
        split; [lia|]. split; [done|].
        rewrite Z.sub_diag, Z.pow_0_r. lia.
      * cbn [shr_record_of_loc shr_m].
        replace (E <=? 128 - 24) with true by (symmetry; apply Z.leb_le; lia).
        exists p1, E. split; [done|]. split.
        { unfold bounded, canonical_mantissa, fexp, emin.
          change (Z.pos (digits2_pos p1)) with (Binary32.digits p1).
          apply andb_true_intro. split; [apply Z.eqb_eq|apply Z.leb_le]; [|lia].
          destruct (Z.eq_dec E (Binary32.digits m + e - 24)) as [HEn|HEs].
          - rewrite (Hd1n HEn). lia.
          - lia. }
        split; [lia|]. split; [done|].
        rewrite Z.sub_diag, Z.pow_0_r. lia.
Qed.

End Rounding.

(** ** The error of one rounding *)

Section RoundingErrors.
Local Abbreviation u := Binary32.epsilon.

Lemma IZR_pow2 (n : Z) : 0 ≤ n → IZR (2 ^ n) = powerRZ 2 n.
Proof.
  intros Hn. destruct n as [|p|p]; [done| |lia].
  change (2 ^ Z.pos p) with (Z.pow_pos 2 p). apply Zpower_pos_powerRZ.
Qed.

Lemma pow2_pos (n : Z) : (0 < powerRZ 2 n)%R.
Proof. apply powerRZ_lt. lra. Qed.

Lemma pow2_add (n m : Z) : powerRZ 2 (n + m) = (powerRZ 2 n * powerRZ 2 m)%R.
Proof. apply powerRZ_add. lra. Qed.

Lemma pow2_le (n m : Z) : n ≤ m → (powerRZ 2 n <= powerRZ 2 m)%R.
Proof.
  intros Hnm. replace m with (n + (m - n)) by lia. rewrite pow2_add.
  rewrite <- (IZR_pow2 (m - n)) by lia.
  assert (1 <= IZR (2 ^ (m - n)))%R.
  { apply IZR_le. assert (0 < 2 ^ (m - n)) by (apply Z.pow_pos_nonneg; lia). lia. }
  pose proof (pow2_pos n). nra.
Qed.

Lemma sign_of_xorb (a b : bool) :
  Binary32.sign_of (xorb a b) = (Binary32.sign_of a * Binary32.sign_of b)%R.
Proof. destruct a, b; simpl; lra. Qed.

Lemma sign_of_sq (a : bool) : (Binary32.sign_of a * Binary32.sign_of a = 1)%R.
Proof. destruct a; simpl; lra. Qed.

Lemma sign_of_abs (s : bool) : Rabs (Binary32.sign_of s) = 1%R.
Proof.
  destruct s; cbn [Binary32.sign_of]; unfold Rabs; destruct (Rcase_abs _); lra.
Qed.

Lemma u_small : (0 < u < 1)%R.
Proof. unfold u. lra. Qed.

Lemma Rabs_bounds (x y : R) : (Rabs x <= y)%R → (- y <= x <= y)%R.
Proof. unfold Rabs. destruct (Rcase_abs x); lra. Qed.

Lemma no_error : (Rabs 0 <= u)%R.
Proof. rewrite Rabs_R0. pose proof u_small. lra. Qed.

(** A canonical mantissa has at most 24 digits, all 24 of them unless the
    exponent is the least one. *)
Lemma bounded_canonical (m : positive) (e : Z) :
  bounded 24 128 m e = true →
  -149 ≤ e ≤ 104 ∧ Binary32.digits m ≤ 24 ∧ (Binary32.digits m = 24 ∨ e = -149).
Proof.
  unfold bounded, canonical_mantissa, fexp, emin.
  change (Z.pos (digits2_pos m)) with (Binary32.digits m).
  intros [Hc%Z.eqb_eq Hm%Z.leb_le]%andb_prop. lia.
Qed.

Lemma normal_bounded (s : bool) (lo hi : Z) (a : Binary32.float) :
  Binary32.normal s lo hi a → -149 ≤ lo → hi ≤ 104 → Binary32.below s hi a.
Proof.
  intros (m & e & -> & Hd & He) Hlo Hhi. right. exists m, e.
  split; [done|]. split; [|lia].
  unfold bounded, canonical_mantissa, fexp, emin, Binary32.prec, Binary32.emax.
  change (Z.pos (digits2_pos m)) with (Binary32.digits m). rewrite Hd.
  apply andb_true_intro. split; [apply Z.eqb_eq|apply Z.leb_le]; lia.
Qed.

Lemma below_finite (s : bool) (hi : Z) (a : Binary32.float) :
  Binary32.below s hi a → Binary32.finite a = true.
Proof. by intros [->|(m & e & -> & _)]. Qed.

Lemma below_wider (s : bool) (hi hi' : Z) (a : Binary32.float) :
  hi ≤ hi' → Binary32.below s hi a → Binary32.below s hi' a.
Proof.
  intros Hhi [->|(m & e & -> & Hb & He)]; [by left|right].
  exists m, e. split; [done|]. split; [done|lia].
Qed.

Lemma normal_value_pos (lo hi : Z) a :
  Binary32.normal false lo hi a → (0 < Binary32.value a)%R.
Proof.
  intros (m & e & -> & _ & _). cbn [Binary32.value Binary32.sign_of].
  pose proof (pow2_pos e). assert (0 < IZR (Z.pos m))%R by (apply IZR_lt; lia).
  rewrite Rmult_1_l. by apply Rmult_lt_0_compat.
Qed.

Lemma normal_wider (s : bool) (lo hi lo' hi' : Z) a :
  lo' ≤ lo → hi ≤ hi' → Binary32.normal s lo hi a → Binary32.normal s lo' hi' a.
Proof.
  intros Hlo Hhi (m & e & -> & Hd & He). exists m, e. split; [done|]. split; [done|lia].
Qed.

(** Rounding, read on the real numbers, wherever the result lies: the
    error is at most one unit of the result's exponent [E]. *)
Lemma binary_round_aux_error (s : bool) (m : positive) (e : Z) (l : location)
    (E : Z) (x : R) :
  E = Z.max (Binary32.digits m + e - 24) (-149) → e ≤ E → E ≤ 103 →
  (IZR (Z.pos m) <= x <= IZR (Z.pos m) + 1)%R →
  Binary32.below s (E + 1) (binary_round_aux 24 128 s (Z.pos m) e l)
  ∧ (E = Binary32.digits m + e - 24 →
     Binary32.normal s E (E + 1) (binary_round_aux 24 128 s (Z.pos m) e l))
  ∧ (Rabs (Binary32.value (binary_round_aux 24 128 s (Z.pos m) e l)
           - Binary32.sign_of s * (x * powerRZ 2 e)) <= powerRZ 2 E)%R
  ∧ (E = e → l = loc_Exact →
     Binary32.value (binary_round_aux 24 128 s (Z.pos m) e l)
     = (Binary32.sign_of s * (IZR (Z.pos m) * powerRZ 2 e))%R).
Proof.
  intros HE Hle Hmax Hx.
  destruct (binary_round_aux_general s m e l E HE Hle Hmax)
    as (q' & Hq' & Hexact & Hres).
  assert (Hpk : 0 < 2 ^ (E - e)) by (apply Z.pow_pos_nonneg; lia).
  set (q := Z.pos m / 2 ^ (E - e)) in *.
  assert (Hqm : q * 2 ^ (E - e) ≤ Z.pos m < (q + 1) * 2 ^ (E - e)).
  { unfold q. pose proof (Z.div_mod (Z.pos m) (2 ^ (E - e)) ltac:(lia)).
    pose proof (Z.mod_pos_bound (Z.pos m) (2 ^ (E - e)) Hpk). nia. }
  set (P := IZR (2 ^ (E - e))).
  assert (HP : (0 < P)%R) by (apply IZR_lt; lia).
  assert (HPE : powerRZ 2 E = (P * powerRZ 2 e)%R).
  { unfold P. rewrite IZR_pow2 by lia. rewrite <- pow2_add. f_equal. lia. }
  assert (Hlo : (IZR q * P <= x)%R).
  { unfold P. rewrite <- mult_IZR. etrans; [apply IZR_le, Hqm|]. lra. }
  assert (Hhi : (x <= (IZR q + 1) * P)%R).
  { unfold P. change 1%R with (IZR 1). rewrite <- plus_IZR, <- mult_IZR.
    etrans; [apply Hx|]. change 1%R with (IZR 1). rewrite <- plus_IZR.
    apply IZR_le. lia. }
  assert (Hval : Binary32.value (binary_round_aux 24 128 s (Z.pos m) e l)
                 = (Binary32.sign_of s * (IZR q' * powerRZ 2 E))%R).
  { destruct Hres as [[-> ->]|(m' & e' & -> & _ & He' & _ & Hm')].
    - cbn [Binary32.value]. lra.
    - cbn [Binary32.value]. rewrite <- Hm', mult_IZR, IZR_pow2 by lia.
      replace (powerRZ 2 e') with (powerRZ 2 (e' - E) * powerRZ 2 E)%R
        by (rewrite <- pow2_add; f_equal; lia).
      ring. }
  split; [|split; [|split]].
  - destruct Hres as [[_ ->]|(m' & e' & -> & Hb & He' & _)]; [by left|right].
    exists m', e'. split; [done|]. split; [done|lia].
  - intros HEn.
    destruct Hres as [[Hz _]|(m' & e' & -> & Hb & He' & Hd' & _)].
    + exfalso. 
      pose proof (digits_bounds m) as Hm.
      assert (Hdpos : 0 < Binary32.digits m) by (unfold Binary32.digits; lia).
      assert (2 ^ 23 ≤ q).
      { apply Z.div_le_lower_bound; [done|]. rewrite <- Z.pow_add_r by lia.
        etrans; [|apply Hm]. apply Z.pow_le_mono_r; lia. }
      lia.
    + exists m', e'. split; [done|]. split; [by apply Hd'|lia].
  - rewrite Hval, HPE.
    replace (Binary32.sign_of s * (IZR q' * (P * powerRZ 2 e))
             - Binary32.sign_of s * (x * powerRZ 2 e))%R
      with (Binary32.sign_of s * ((IZR q' * P - x) * powerRZ 2 e))%R by ring.
    pose proof (pow2_pos e) as Hpe.
    assert (Hdiff : (- P <= IZR q' * P - x <= P)%R).
    { destruct Hq' as [-> | ->]; [lra|]. rewrite plus_IZR. lra. }
    apply Rabs_le. destruct s; cbn [Binary32.sign_of]; split; nra.
  - intros He Hl. rewrite Hval, (Hexact He Hl), He. done.
Qed.

(** Rounding to a normal number: when the mantissa has [24 + k] digits and
    the result lies in the normal range, the relative error is at most
    [2^-23]. *)
Lemma binary_round_aux_value (s : bool) (m : positive) (e : Z) (l : location)
    (k : Z) (x : R) :
  Binary32.digits m = 24 + k → 0 ≤ k → -149 ≤ e + k ≤ 103 →
  (IZR (Z.pos m) <= x <= IZR (Z.pos m) + 1)%R →
  ∃ δ : R,
    (Rabs δ <= u)%R
    ∧ Binary32.normal s (e + k) (e + k + 1) (binary_round_aux 24 128 s (Z.pos m) e l)
    ∧ Binary32.value (binary_round_aux 24 128 s (Z.pos m) e l)
      = (Binary32.sign_of s * (x * powerRZ 2 e) * (1 + δ))%R.
Proof.
  intros Hd Hk He Hx.
  destruct (binary_round_aux_error s m e l (e + k) x ltac:(rewrite Hd; lia)
              ltac:(lia) ltac:(lia) Hx) as (_ & Hn & Herr & _).
  specialize (Hn ltac:(rewrite Hd; lia)).
  set (r := binary_round_aux 24 128 s (Z.pos m) e l) in *.
  set (X := (Binary32.sign_of s * (x * powerRZ 2 e))%R) in *.
  pose proof (digits_bounds m) as Hm. rewrite Hd in Hm.
  pose proof (pow2_pos e) as Hpe. pose proof (pow2_pos (e + k)) as Hpek.
  assert (Hxbig : (powerRZ 2 (e + k) * 8388608 <= x * powerRZ 2 e)%R).
  { rewrite (Z.add_comm e k), pow2_add.
    assert (powerRZ 2 k * 8388608 <= IZR (Z.pos m))%R.
    { change 8388608%R with (IZR (2 ^ 23)). rewrite (IZR_pow2 23) by lia.
      rewrite <- pow2_add, <- IZR_pow2 by lia. apply IZR_le.
      replace (k + 23) with (24 + k - 1) by lia. lia. }
    nra. }
  assert (HXabs : (powerRZ 2 (e + k) * 8388608 <= Rabs X)%R).
  { unfold X. rewrite Rabs_mult, sign_of_abs, Rmult_1_l, Rabs_pos_eq by lra. done. }
  assert (HXnz : X ≠ 0%R).
  { intros HX0. rewrite HX0, Rabs_R0 in HXabs. lra. }
  exists ((Binary32.value r - X) / X)%R. split; [|split; [done|]].
  - unfold Rdiv. rewrite Rabs_mult, Rabs_inv.
    assert (0 < Rabs X)%R by (by apply Rabs_pos_lt).
    apply Rmult_le_reg_r with (Rabs X); [done|].
    rewrite Rmult_assoc, Rinv_l by lra. unfold u. lra.
  - field. done.
Qed.

(** The product of two normal numbers, when it is normal as well. *)
Lemma fmul_normal (sa sb : bool) (la ha lb hb : Z) (a b : spec_float) :
  Binary32.normal sa la ha a → Binary32.normal sb lb hb b →
  -149 ≤ la + lb + 23 → ha + hb + 24 ≤ 103 →
  ∃ δ : R,
    (Rabs δ <= u)%R
    ∧ Binary32.normal (xorb sa sb) (la + lb + 23) (ha + hb + 25) (SFmul 24 128 a b)
    ∧ Binary32.value (SFmul 24 128 a b) = (Binary32.value a * Binary32.value b * (1 + δ))%R.
Proof.
  intros (ma & ea & -> & Hda & Hea) (mb & eb & -> & Hdb & Heb) Hlo Hhi.
  cbn [SFmul Binary32.value].
  pose proof (digits_bounds ma) as Hma. rewrite Hda in Hma.
  pose proof (digits_bounds mb) as Hmb. rewrite Hdb in Hmb.
  change (2 ^ (24 - 1)) with 8388608 in *. change (2 ^ 24) with 16777216 in *.
  assert (Hprod : 70368744177664 ≤ Z.pos (ma * mb) < 281474976710656)
    by (rewrite Pos2Z.inj_mul; nia).
  assert (Hk : ∃ k, Binary32.digits (ma * mb) = 24 + k ∧ 23 ≤ k ≤ 24).
  { destruct (Z.lt_ge_cases (Z.pos (ma * mb)) 140737488355328).
    - exists 23. split; [|lia]. apply digits_unique.
      change (2 ^ (24 + 23 - 1)) with 70368744177664.
      change (2 ^ (24 + 23)) with 140737488355328. lia.
    - exists 24. split; [|lia]. apply digits_unique.
      change (2 ^ (24 + 24 - 1)) with 140737488355328.
      change (2 ^ (24 + 24)) with 281474976710656. lia. }
  destruct Hk as (k & Hd & Hk).
  destruct (binary_round_aux_value (xorb sa sb) (ma * mb) (ea + eb) loc_Exact k
              (IZR (Z.pos (ma * mb))) Hd ltac:(lia) ltac:(lia) ltac:(lra))
    as (δ & Hδ & (m' & e' & E & Hd' & He') & Hv).
  exists δ. split; [done|]. split.
  - exists m', e'. split; [done|]. split; [done|]. lia.
  - rewrite Hv, sign_of_xorb, Pos2Z.inj_mul, mult_IZR, pow2_add. ring.
Qed.

Lemma iter_xO_pow (m d : positive) : Z.pos (Pos.iter xO m d) = Z.pos m * 2 ^ Z.pos d.
Proof.
  induction d as [|d IH] using Pos.peano_ind.
  - simpl. lia.
  - rewrite Pos.iter_succ, Pos2Z.inj_xO, IH, Pos2Z.inj_succ, Z.pow_succ_r by lia. lia.
Qed.

Lemma shl_align_value (m : positive) (e ez : Z) :
  ez ≤ e → Z.pos (fst (shl_align m e ez)) = Z.pos m * 2 ^ (e - ez).
Proof.
  intros Hez. unfold shl_align.
  destruct (ez - e) as [|d|d] eqn:E; cbn [fst].
  - replace (e - ez) with 0 by lia. lia.
  - lia.
  - rewrite iter_xO_pow. f_equal. f_equal. lia.
Qed.

(** The square root of a positive normal number. *)
Lemma fsqrt_normal (lo hi : Z) (a : spec_float) :
  Binary32.normal false lo hi a → -149 ≤ lo → hi ≤ 104 →
  ∃ δ : R,
    (Rabs δ <= u)%R
    ∧ Binary32.normal false ((25 + lo) / 2 - 24) ((25 + hi) / 2 - 23) (SFsqrt 24 128 a)
    ∧ Binary32.value (SFsqrt 24 128 a) = (sqrt (Binary32.value a) * (1 + δ))%R.
Proof.
  intros (m & e & -> & Hd & He) Hlo Hhi.
  cbn [SFsqrt Binary32.value Binary32.sign_of]. unfold SFsqrt_core_binary.
  cbn [Zdigits2]. change (Z.pos (digits2_pos m)) with (Binary32.digits m). rewrite Hd.
  pose proof (digits_bounds m) as Hm. rewrite Hd in Hm.
  change (2 ^ (24 - 1)) with 8388608 in *. change (2 ^ 24) with 16777216 in *.
  rewrite !Z.div2_div.
  set (e' := Z.min (fexp 24 128 ((24 + e + 1) / 2)) (e / 2)).
  assert (He' : e' = (25 + e) / 2 - 24).
  { unfold e', fexp, emin. replace (24 + e + 1) with (25 + e) by lia.
    Z.to_euclidean_division_equations. lia. }
  assert (Hs : e - 2 * e' = 23 ∨ e - 2 * e' = 24)
    by (rewrite He'; Z.to_euclidean_division_equations; lia).
  set (m' := match e - 2 * e' with
             | 0 => Z.pos m
             | Z.pos _ => Z.shiftl (Z.pos m) (e - 2 * e')
             | Z.neg _ => 0
             end).
  assert (Hm' : m' = Z.pos m * 2 ^ (e - 2 * e')).
  { unfold m'. destruct Hs as [-> | ->]; by rewrite Z.shiftl_mul_pow2. }
  assert (Hm'range : 8388608 * 8388608 ≤ m' < 16777216 * 16777216).
  { rewrite Hm'. destruct Hs as [-> | ->].
    - change (2 ^ 23) with 8388608. lia.
    - change (2 ^ 24) with 16777216. lia. }
  pose proof (Z.sqrtrem_spec m' ltac:(lia)) as Hsq.
  destruct (Z.sqrtrem m') as [q r]. destruct Hsq as [Hq Hr].
  assert (Hqrange : 8388608 ≤ q < 16777216) by nia.
  destruct q as [|qp|qp]; [lia| |lia].
  assert (Hdq : Binary32.digits qp = 24 + 0) by (apply digits_unique; simpl; lia).
  set (l := if r =? 0 then loc_Exact else loc_Inexact (if r <=? Z.pos qp then Lt else Gt)).
  assert (Hx : (IZR (Z.pos qp) <= sqrt (IZR m') <= IZR (Z.pos qp) + 1)%R).
  { split.
    - rewrite <- (sqrt_square (IZR (Z.pos qp))) by (apply IZR_le; lia).
      apply sqrt_le_1_alt. rewrite <- mult_IZR. apply IZR_le. lia.
    - rewrite <- (sqrt_square (IZR (Z.pos qp) + 1)).
      + apply sqrt_le_1_alt. change 1%R with (IZR 1).
        rewrite <- plus_IZR, <- mult_IZR. apply IZR_le. lia.
      + assert (0 <= IZR (Z.pos qp))%R by (apply IZR_le; lia). lra. }
  destruct (binary_round_aux_value false qp e' l 0 (sqrt (IZR m')) Hdq ltac:(lia)
              ltac:(lia) Hx)
    as (δ & Hδ & (m1 & e1 & E & Hd1 & He1) & Hv).
  exists δ. split; [done|]. split.
  - exists m1, e1. split; [done|]. split; [done|].
    assert ((25 + lo) / 2 ≤ (25 + e) / 2) by (apply Z.div_le_mono; lia).
    assert ((25 + e) / 2 ≤ (25 + hi) / 2) by (apply Z.div_le_mono; lia).
    rewrite He' in He1. lia.
  - rewrite Hv. cbn [Binary32.sign_of]. f_equal. rewrite Rmult_1_l, Rmult_1_l.
    rewrite Hm', mult_IZR, IZR_pow2 by lia.
    replace (powerRZ 2 e) with (powerRZ 2 (e - 2 * e') * (powerRZ 2 e' * powerRZ 2 e'))%R
      by (rewrite <- !pow2_add; f_equal; lia).
    rewrite <- Rmult_assoc.
    rewrite (sqrt_mult_alt _ (powerRZ 2 e' * powerRZ 2 e')).
    + rewrite sqrt_square; [done|]. pose proof (pow2_pos e'). lra.
    + apply Rmult_le_pos; [apply IZR_le; lia|]. pose proof (pow2_pos (e - 2 * e')). lra.
Qed.

(** The reciprocal of a positive normal number, [1.0f / a]. *)
Lemma finv_normal (lo hi : Z) (a : spec_float) :
  Binary32.normal false lo hi a → -149 ≤ lo → hi ≤ 102 →
  ∃ δ : R,
    (Rabs δ <= u)%R
    ∧ Binary32.normal false (-47 - hi) (-45 - lo)
        (SFdiv 24 128 (S754_finite false 8388608 (-23)) a)
    ∧ Binary32.value (SFdiv 24 128 (S754_finite false 8388608 (-23)) a)
      = (/ Binary32.value a * (1 + δ))%R.
Proof.
  intros (m & e & -> & Hd & He) Hlo Hhi.
  cbn [SFdiv Binary32.value Binary32.sign_of xorb]. unfold SFdiv_core_binary.
  cbn [Zdigits2]. change (Z.pos (digits2_pos m)) with (Binary32.digits m). rewrite Hd.
  change (Z.pos (digits2_pos 8388608)) with 24.
  pose proof (digits_bounds m) as Hm. rewrite Hd in Hm.
  change (2 ^ (24 - 1)) with 8388608 in *. change (2 ^ 24) with 16777216 in *.
  set (e' := Z.min (fexp 24 128 (24 + -23 - (24 + e))) (-23 - e)).
  assert (He' : e' = -47 - e) by (unfold e', fexp, emin; lia).
  replace (-23 - e - e') with 24 by lia.
  change (Z.shiftl 8388608 24) with 140737488355328.
  pose proof (Z_div_mod 140737488355328 (Z.pos m) ltac:(lia)) as Hdiv.
  destruct (Z.div_eucl 140737488355328 (Z.pos m)) as [q r]. destruct Hdiv as [Hq Hr].
  assert (Hqrange : 8388608 ≤ q ≤ 16777216) by nia.
  destruct q as [|qp|qp]; [lia| |lia].
  assert (Hk : ∃ k, Binary32.digits qp = 24 + k ∧ 0 ≤ k ≤ 1).
  { destruct (Z.eq_dec (Z.pos qp) 16777216) as [Heq|Hne].
    - exists 1. split; [|lia]. apply digits_unique. simpl. lia.
    - exists 0. split; [|lia]. apply digits_unique. simpl. lia. }
  destruct Hk as (k & Hdq & Hk).
  assert (Hmpos : (0 < IZR (Z.pos m))%R) by (apply IZR_lt; lia).
  assert (Hx : (IZR (Z.pos qp) <= 140737488355328 / IZR (Z.pos m)
                <= IZR (Z.pos qp) + 1)%R).
  { assert (E : (140737488355328 = IZR (Z.pos m) * IZR (Z.pos qp) + IZR r)%R)
      by (rewrite <- mult_IZR, <- plus_IZR; apply IZR_eq; exact Hq).
    assert (0 <= IZR r)%R by (apply IZR_le; lia).
    assert (IZR r <= IZR (Z.pos m))%R by (apply IZR_le; lia).
    split.
    - apply Rmult_le_reg_r with (IZR (Z.pos m)); [done|].
      unfold Rdiv. rewrite Rmult_assoc, Rinv_l by lra. lra.
    - apply Rmult_le_reg_r with (IZR (Z.pos m)); [done|].
      unfold Rdiv. rewrite Rmult_assoc, Rinv_l by lra. lra. }
  destruct (binary_round_aux_value false qp e' (new_location (Z.pos m) r) k
              (140737488355328 / IZR (Z.pos m)) Hdq ltac:(lia) ltac:(lia) Hx)
    as (δ & Hδ & (m1 & e1 & E & Hd1 & He1) & Hv).
  exists δ. split; [done|]. split.
  - exists m1, e1. split; [done|]. split; [done|]. lia.
  - rewrite Hv. cbn [Binary32.sign_of]. f_equal. rewrite He'.
    replace (-47 - e) with (-47 + - e) by lia.
    rewrite pow2_add, powerRZ_neg'.
    change (-47) with (- (47)). rewrite powerRZ_neg', <- (IZR_pow2 47) by lia.
    change (2 ^ 47) with 140737488355328.
    pose proof (pow2_pos e). field. lra.
Qed.

(** The product of two finite numbers, normal or subnormal: a relative
    error of at most [2^-23], or, when it underflows, an absolute error of
    at most [2^-149]. *)
Lemma fmul_finite (sa sb : bool) (ha hb : Z) (a b : Binary32.float) :
  Binary32.below sa ha a → Binary32.below sb hb b → ha + hb + 24 ≤ 103 →
  Binary32.below (xorb sa sb) (Z.max (ha + hb + 25) (-148)) (SFmul 24 128 a b)
  ∧ ∃ δ η : R,
      (Rabs δ <= u)%R ∧ (Rabs η <= Binary32.tiny)%R
      ∧ Binary32.value (SFmul 24 128 a b)
        = (Binary32.value a * Binary32.value b * (1 + δ) + η)%R.
Proof.
  assert (Hzero : ∀ v : R, v = 0%R →
            ∃ δ η : R, (Rabs δ <= u)%R ∧ (Rabs η <= Binary32.tiny)%R
                       ∧ 0%R = (v * (1 + δ) + η)%R).
  { intros v ->. exists 0%R, 0%R. split; [apply no_error|]. split; [|lra].
    rewrite Rabs_R0. unfold Binary32.tiny. pose proof (pow2_pos (-149)). lra. }
  intros [->|(ma & ea & -> & Hba & Hea)] [->|(mb & eb & -> & Hbb & Heb)] Hmax.
  - split; [by left|]. cbn [SFmul Binary32.value]. apply Hzero. lra.
  - split; [by left|]. cbn [SFmul Binary32.value]. apply Hzero. lra.
  - split; [by left|]. cbn [SFmul Binary32.value]. apply Hzero. lra.
  - cbn [SFmul].
    apply bounded_canonical in Hba as (Hea' & Hda & Hca).
    apply bounded_canonical in Hbb as (Heb' & Hdb & Hcb).
    pose proof (digits_bounds ma) as Hma. pose proof (digits_bounds mb) as Hmb.
    pose proof (digits_bounds (ma * mb)) as Hm.
    assert (Hdapos : 0 < Binary32.digits ma) by (unfold Binary32.digits; lia).
    assert (Hdbpos : 0 < Binary32.digits mb) by (unfold Binary32.digits; lia).
    set (d := Binary32.digits (ma * mb)) in *.
    assert (Hd : Binary32.digits ma + Binary32.digits mb - 1 ≤ d
                 ≤ Binary32.digits ma + Binary32.digits mb).
    { rewrite Pos2Z.inj_mul in Hm. split.
      - destruct (Z.le_gt_cases (Binary32.digits ma + Binary32.digits mb - 1) d)
          as [|Hgt]; [done|exfalso].
        assert (2 ^ d ≤ 2 ^ (Binary32.digits ma - 1 + (Binary32.digits mb - 1)))
          by (apply Z.pow_le_mono_r; lia).
        rewrite Z.pow_add_r in * by lia. nia.
      - destruct (Z.le_gt_cases d (Binary32.digits ma + Binary32.digits mb))
          as [|Hgt]; [done|exfalso].
        assert (2 ^ (Binary32.digits ma + Binary32.digits mb) ≤ 2 ^ (d - 1))
          by (apply Z.pow_le_mono_r; lia).
        rewrite Z.pow_add_r in * by lia. nia. }
    set (E := Z.max (d + (ea + eb) - 24) (-149)).
    assert (HleE : ea + eb ≤ E) by (unfold E; lia).
    destruct (binary_round_aux_error (xorb sa sb) (ma * mb) (ea + eb) loc_Exact E
                (IZR (Z.pos (ma * mb))) eq_refl HleE ltac:(unfold E; lia) ltac:(lra))
      as (Hbelow & Hnormal & Herr & _).
    split; [eapply below_wider; [|exact Hbelow]; unfold E; lia|].
    set (r := binary_round_aux 24 128 (xorb sa sb) (Z.pos (ma * mb)) (ea + eb) loc_Exact)
      in *.
    cbn [Binary32.value].
    set (X := (Binary32.sign_of sa * IZR (Z.pos ma) * powerRZ 2 ea
               * (Binary32.sign_of sb * IZR (Z.pos mb) * powerRZ 2 eb))%R).
    assert (EX : (Binary32.sign_of (xorb sa sb)
                  * (IZR (Z.pos (ma * mb)) * powerRZ 2 (ea + eb)) = X)%R).
    { unfold X. rewrite sign_of_xorb, Pos2Z.inj_mul, mult_IZR, pow2_add. ring. }
    rewrite EX in Herr.
    destruct (Z.le_gt_cases (-149) (d + (ea + eb) - 24)) as [Hn|Hs].
    + (* the result is normal: a relative error *)
      assert (HXabs : (powerRZ 2 E * 8388608 <= Rabs X)%R).
      { rewrite <- EX. rewrite Rabs_mult.
        rewrite sign_of_abs, Rmult_1_l, Rabs_pos_eq
          by (apply Rmult_le_pos; [apply IZR_le; lia|pose proof (pow2_pos (ea + eb)); lra]).
        replace E with (d - 24 + (ea + eb)) by (unfold E; lia).
        rewrite pow2_add.
        pose proof (pow2_pos (ea + eb)).
        assert (powerRZ 2 (d - 24) * 8388608 <= IZR (Z.pos (ma * mb)))%R.
        { change 8388608%R with (IZR (2 ^ 23)). rewrite (IZR_pow2 23) by lia.
          rewrite <- pow2_add, <- IZR_pow2 by lia. apply IZR_le.
          replace (d - 24 + 23) with (d - 1) by lia. lia. }
        nra. }
      assert (HXnz : X ≠ 0%R).
      { intros HX0. rewrite HX0, Rabs_R0 in HXabs. pose proof (pow2_pos E). lra. }
      exists ((Binary32.value r - X) / X)%R, 0%R. split; [|split].
      * unfold Rdiv. rewrite Rabs_mult, Rabs_inv.
        assert (0 < Rabs X)%R by (by apply Rabs_pos_lt).
        apply Rmult_le_reg_r with (Rabs X); [done|].
        rewrite Rmult_assoc, Rinv_l by lra. unfold u. lra.
      * rewrite Rabs_R0. unfold Binary32.tiny. pose proof (pow2_pos (-149)). lra.
      * field. done.
    + (* the result underflows: an absolute error *)
      exists 0%R, (Binary32.value r - X)%R. split; [apply no_error|]. split; [|lra].
      replace E with (-149) in Herr by (unfold E; lia). exact Herr.
Qed.

(** The sum of two finite numbers that are not negative, normal or
    subnormal: a relative error of at most [2^-23] (a sum never underflows),
    and a normal result as large as a normal operand. *)
Lemma fadd_finite (h : Z) (a b : Binary32.float) :
  Binary32.below false h a → Binary32.below false h b → h ≤ 101 →
  ∃ δ : R,
    (Rabs δ <= u)%R
    ∧ Binary32.below false (h + 2) (SFadd 24 128 a b)
    ∧ Binary32.value (SFadd 24 128 a b)
      = ((Binary32.value a + Binary32.value b) * (1 + δ))%R
    ∧ (∀ lo, -149 ≤ lo →
         Binary32.normal false lo h a ∨ Binary32.normal false lo h b →
         Binary32.normal false lo (h + 2) (SFadd 24 128 a b)).
Proof.
  intros [->|(ma & ea & -> & Hba & Hea)] [->|(mb & eb & -> & Hbb & Heb)] Hh.
  - exists 0%R. split; [apply no_error|]. split; [by left|]. split.
    + cbn [SFadd Binary32.value]. lra.
    + intros lo _ [(m & e & [=] & _)|(m & e & [=] & _)].
  - exists 0%R. split; [apply no_error|]. cbn [SFadd]. split.
    + right. exists mb, eb. split; [done|]. split; [done|lia].
    + split; [cbn [Binary32.value]; lra|].
      intros lo _ [(m & e & [=] & _)|Hn].
      eapply normal_wider; [| |exact Hn]; lia.
  - exists 0%R. split; [apply no_error|]. cbn [SFadd]. split.
    + right. exists ma, ea. split; [done|]. split; [done|lia].
    + split; [cbn [Binary32.value]; lra|].
      intros lo _ [Hn|(m & e & [=] & _)].
      eapply normal_wider; [| |exact Hn]; lia.
  - apply bounded_canonical in Hba as (Hea' & Hda & Hca).
    apply bounded_canonical in Hbb as (Heb' & Hdb & Hcb).
    cbn [SFadd Binary32.value cond_Zopp Binary32.sign_of].
    pose proof (digits_bounds ma) as Hma. pose proof (digits_bounds mb) as Hmb.
    assert (Hma24 : Z.pos ma < 2 ^ 24).
    { eapply Z.lt_le_trans; [apply Hma|]. apply Z.pow_le_mono_r; lia. }
    assert (Hmb24 : Z.pos mb < 2 ^ 24).
    { eapply Z.lt_le_trans; [apply Hmb|]. apply Z.pow_le_mono_r; lia. }
    change (2 ^ 24) with 16777216 in *.
    set (ez := Z.min ea eb).
    set (Δ := Z.max ea eb - ez).
    assert (HΔ : 0 ≤ Δ) by (unfold Δ, ez; lia).
    pose proof (shl_align_value ma ea ez ltac:(unfold ez; lia)) as Ea.
    pose proof (shl_align_value mb eb ez ltac:(unfold ez; lia)) as Eb.
    set (pa := fst (shl_align ma ea ez)) in *.
    set (pb := fst (shl_align mb eb ez)) in *.
    change (Z.pos pa + Z.pos pb) with (Z.pos (pa + pb)).
    assert (EM : Z.pos (pa + pb) = Z.pos ma * 2 ^ (ea - ez) + Z.pos mb * 2 ^ (eb - ez))
      by (rewrite Pos2Z.inj_add; lia).
    assert (Hpa : 0 < 2 ^ (ea - ez)) by (apply Z.pow_pos_nonneg; unfold ez; lia).
    assert (Hpb : 0 < 2 ^ (eb - ez)) by (apply Z.pow_pos_nonneg; unfold ez; lia).
    assert (HpΔ : 0 < 2 ^ Δ) by (apply Z.pow_pos_nonneg; lia).
    assert (Hle_a : 2 ^ (ea - ez) ≤ 2 ^ Δ) by (apply Z.pow_le_mono_r; unfold Δ, ez; lia).
    assert (Hle_b : 2 ^ (eb - ez) ≤ 2 ^ Δ) by (apply Z.pow_le_mono_r; unfold Δ, ez; lia).
    pose proof (digits_bounds (pa + pb)) as HM.
    set (dM := Binary32.digits (pa + pb)) in *.
    assert (HdMpos : 0 < dM) by (unfold dM, Binary32.digits; lia).
    assert (HdM : dM ≤ 25 + Δ).
    { destruct (Z.le_gt_cases dM (25 + Δ)) as [|Hgt]; [done|exfalso].
      assert (2 ^ (25 + Δ) ≤ 2 ^ (dM - 1)) by (apply Z.pow_le_mono_r; lia).
      rewrite Z.pow_add_r in * by lia. change (2 ^ 25) with 33554432 in *. nia. }
    assert (Hnormal_a : Binary32.digits ma = 24 → 24 + (ea - ez) ≤ dM).
    { intros Hd24. rewrite Hd24 in Hma. change (2 ^ (24 - 1)) with 8388608 in Hma.
      destruct (Z.le_gt_cases (24 + (ea - ez)) dM) as [|Hgt]; [done|exfalso].
      assert (2 ^ dM ≤ 2 ^ (23 + (ea - ez)))
        by (apply Z.pow_le_mono_r; unfold ez in *; lia).
      rewrite Z.pow_add_r in * by (unfold ez; lia). change (2 ^ 23) with 8388608 in *.
      nia. }
    assert (Hnormal_b : Binary32.digits mb = 24 → 24 + (eb - ez) ≤ dM).
    { intros Hd24. rewrite Hd24 in Hmb. change (2 ^ (24 - 1)) with 8388608 in Hmb.
      destruct (Z.le_gt_cases (24 + (eb - ez)) dM) as [|Hgt]; [done|exfalso].
      assert (2 ^ dM ≤ 2 ^ (23 + (eb - ez)))
        by (apply Z.pow_le_mono_r; unfold ez in *; lia).
      rewrite Z.pow_add_r in * by (unfold ez; lia). change (2 ^ 23) with 8388608 in *.
      nia. }
    assert (Hexact : (IZR (Z.pos (pa + pb)) * powerRZ 2 ez
                      = 1 * IZR (Z.pos ma) * powerRZ 2 ea
                        + 1 * IZR (Z.pos mb) * powerRZ 2 eb)%R).
    { rewrite EM, plus_IZR, !mult_IZR, !IZR_pow2 by (unfold ez; lia).
      replace (powerRZ 2 ea) with (powerRZ 2 (ea - ez) * powerRZ 2 ez)%R
        by (rewrite <- pow2_add; f_equal; lia).
      replace (powerRZ 2 eb) with (powerRZ 2 (eb - ez) * powerRZ 2 ez)%R
        by (rewrite <- pow2_add; f_equal; lia).
      ring. }
    cbn [binary_normalize]. unfold binary_round.
    change (Z.pos (digits2_pos (pa + pb))) with dM.
    assert (Halign : shl_align (pa + pb) ez (fexp 24 128 (dM + ez))
                     = ((pa + pb)%positive, ez)).
    { unfold shl_align, fexp, emin.
      destruct (Z.max (dM + ez - 24) (3 - 128 - 24) - ez) eqn:E; [done|done|].
      exfalso.
      assert (dM < 24) by lia.
      assert (-149 < ez) by lia.
      assert (Binary32.digits ma = 24) by (unfold ez in *; lia).
      specialize (Hnormal_a ltac:(done)). unfold ez in *. lia. }
    rewrite Halign.
    destruct (Z.le_gt_cases 24 dM) as [Hbig|Hsmall].
    + (* at least 24 digits: the result is normal *)
      destruct (binary_round_aux_value false (pa + pb) ez loc_Exact (dM - 24)
                  (IZR (Z.pos (pa + pb))) ltac:(unfold dM; lia) ltac:(lia)
                  ltac:(unfold Δ, ez in *; lia) ltac:(lra))
        as (δ & Hδ & Hn & Hv).
      exists δ. split; [done|]. split; [|split].
      * eapply below_wider; [|eapply normal_bounded; [exact Hn| |]];
          unfold Δ, ez in *; lia.
      * rewrite Hv. cbn [Binary32.sign_of]. rewrite <- Hexact. ring.
      * intros lo Hlo [(m & e & [= <- <-] & Hd & He)|(m & e & [= <- <-] & Hd & He)].
        -- specialize (Hnormal_a Hd). eapply normal_wider; [| |exact Hn];
             unfold Δ, ez in *; lia.
        -- specialize (Hnormal_b Hd). eapply normal_wider; [| |exact Hn];
             unfold Δ, ez in *; lia.
    + (* fewer: both operands are subnormal and the sum is exact *)
      assert (Hez : ez = -149).
      { destruct (Z.eq_dec ez (-149)) as [|Hne]; [done|exfalso].
        assert (Binary32.digits ma = 24) by (unfold ez in *; lia).
        specialize (Hnormal_a ltac:(done)). unfold ez in *. lia. }
      destruct (binary_round_aux_error false (pa + pb) ez loc_Exact (-149)
                  (IZR (Z.pos (pa + pb))) ltac:(fold dM; lia) ltac:(lia) ltac:(lia)
                  ltac:(lra))
        as (Hbelow & _ & _ & Hv).
      exists 0%R. split; [apply no_error|]. split; [|split].
      * eapply below_wider; [|exact Hbelow]. lia.
      * rewrite (Hv ltac:(lia) eq_refl). cbn [Binary32.sign_of].
        rewrite Rmult_1_l, Hexact. ring.
      * intros lo Hlo [(m & e & [= <- <-] & Hd & He)|(m & e & [= <- <-] & Hd & He)].
        -- specialize (Hnormal_a Hd). unfold ez in *. lia.
        -- specialize (Hnormal_b Hd). unfold ez in *. lia.
Qed.

End RoundingErrors.

(** ** Accumulated roundings *)

Section RoundingFacts.
Local Abbreviation u := Binary32.epsilon.
Local Open Scope R_scope.

Lemma roundings_exact (A : R) : roundings 0 A A.
Proof. unfold roundings. simpl. lra. Qed.

Lemma roundings_pos (p : nat) (A a : R) : 0 <= A → roundings p A a → 0 <= a.
Proof.
  intros HA [Hlo _]. pose proof u_small.
  assert (0 <= (1 - u) ^ p) by (apply pow_le; lra).
  etrans; [|exact Hlo]. by apply Rmult_le_pos.
Qed.

Lemma roundings_step (p : nat) (A a δ : R) :
  0 <= A → roundings p A a → Rabs δ <= u → roundings (S p) A (a * (1 + δ)).
Proof.
  intros HA Ha Hδ. pose proof (roundings_pos p A a HA Ha) as Hpos.
  destruct Ha as [Hlo Hhi]. apply Rabs_bounds in Hδ. pose proof u_small.
  assert (0 <= (1 - u) ^ p) by (apply pow_le; lra).
  assert (0 <= (1 + u) ^ p) by (apply pow_le; lra).
  unfold roundings. cbn [pow]. split.
  - trans (a * (1 - u)).
    + replace (A * ((1 - u) * (1 - u) ^ p)) with (A * (1 - u) ^ p * (1 - u)) by ring.
      apply Rmult_le_compat_r; lra.
    + apply Rmult_le_compat_l; lra.
  - trans (a * (1 + u)).
    + apply Rmult_le_compat_l; lra.
    + replace (A * ((1 + u) * (1 + u) ^ p)) with (A * (1 + u) ^ p * (1 + u)) by ring.
      apply Rmult_le_compat_r; lra.
Qed.

Lemma roundings_more (p : nat) (A a : R) :
  0 <= A → roundings p A a → roundings (S p) A a.
Proof.
  intros HA Ha. replace a with (a * (1 + 0)) by ring.
  apply roundings_step; [done..|]. rewrite Rabs_R0. pose proof u_small. lra.
Qed.

Lemma roundings_add (p : nat) (A B a b : R) :
  roundings p A a → roundings p B b → roundings p (A + B) (a + b).
Proof. unfold roundings. intros [] []. split; lra. Qed.

Lemma roundings_sq (A δ : R) : Rabs δ <= u → roundings 2 (A * A) (A * (1 + δ) * (A * (1 + δ))).
Proof.
  intros Hδ.
  replace (A * (1 + δ) * (A * (1 + δ))) with (A * A * (1 + δ) * (1 + δ)) by ring.
  apply roundings_step; [nra| |done].
  apply roundings_step; [nra| |done].
  apply roundings_exact.
Qed.

End RoundingFacts.

(** ** [glm::normalize] in binary32 *)

Section NormalizeFacts.
Local Abbreviation u := Binary32.epsilon.
Implicit Types (x y z a b c : Binary32.float).

Lemma tiny_pos : (0 < Binary32.tiny)%R.
Proof. apply pow2_pos. Qed.

(** [2^-149] against [2^-120] and against [2^-40]. *)
Lemma tiny_scaled : (536870912 * Binary32.tiny = powerRZ 2 (-120))%R.
Proof.
  unfold Binary32.tiny. change 536870912%R with (IZR (2 ^ 29)).
  rewrite (IZR_pow2 29) by lia. by rewrite <- pow2_add.
Qed.

Lemma tiny_small : (1099511627776 * Binary32.tiny <= 1)%R.
Proof.
  unfold Binary32.tiny. change 1099511627776%R with (IZR (2 ^ 40)).
  rewrite (IZR_pow2 40) by lia. rewrite <- pow2_add.
  change 1%R with (powerRZ 2 0). apply pow2_le. lia.
Qed.

Lemma scaled_error (a c δ : R) :
  (Rabs a <= c)%R → (Rabs δ <= u)%R → (Rabs (a * (1 + δ)) <= c * (9 / 8))%R.
Proof.
  intros Ha Hδ%Rabs_bounds. rewrite Rabs_mult.
  assert (Rabs (1 + δ) <= 9 / 8)%R by (apply Rabs_le; unfold u in *; lra).
  apply Rmult_le_compat; [apply Rabs_pos|apply Rabs_pos|done|done].
Qed.

(** An absolute error small against [A] costs one more rounding. *)
Lemma roundings_absorb (p : nat) (A a η c : R) :
  (0 <= A)%R → roundings p A a → (Rabs η <= c)%R →
  (c <= A * u * (1 - u) ^ p)%R →
  roundings (S p) A (a + η).
Proof.
  intros HA [Hlo Hhi] Hη Hc. apply Rabs_bounds in Hη. pose proof u_small.
  assert (0 <= (1 - u) ^ p)%R by (apply pow_le; lra).
  assert ((1 - u) ^ p <= (1 + u) ^ p)%R by (apply pow_incr; lra).
  unfold roundings. cbn [pow]. split.
  - replace (A * ((1 - u) * (1 - u) ^ p))%R
      with (A * (1 - u) ^ p - A * u * (1 - u) ^ p)%R by ring. lra.
  - replace (A * ((1 + u) * (1 + u) ^ p))%R
      with (A * (1 + u) ^ p + A * u * (1 + u) ^ p)%R by ring.
    assert (A * u * (1 - u) ^ p <= A * u * (1 + u) ^ p)%R.
    { apply Rmult_le_compat_l; [|done]. apply Rmult_le_pos; lra. }
    lra.
Qed.

(** The numbers behind the tolerance [2^-20], with room for the errors of
    underflow. *)
Lemma tolerance_below_underflow :
  (((1 - / 1048576) * (1 - / 1048576) + / 1099511627776) * (1 + u) ^ 6
   <= (1 - u) ^ 4)%R.
Proof. unfold u. simpl. lra. Qed.

Lemma tolerance_above_underflow :
  ((1 + u) ^ 4
   <= ((1 + / 1048576) * (1 + / 1048576) - / 1099511627776) * (1 - u) ^ 6)%R.
Proof. unfold u. simpl. lra. Qed.

(** A quotient of a value four roundings from [S] by one six roundings from
    [S], off by less than [2^-40], has a square root within [2^-20] of 1;
    the quotient itself is at most 4. *)
Lemma quotient_near_one_underflow (S U V ρ : R) :
  (0 < S)%R → roundings 4 S U → roundings 6 S V →
  (U / V <= 4)%R
  ∧ ((Rabs ρ <= / 1099511627776)%R →
     (Rabs (sqrt (U / V + ρ) - 1) <= / 1048576)%R).
Proof.
  intros HS [HUlo HUhi] [HVlo HVhi]. pose proof u_small.
  pose proof tolerance_below_underflow. pose proof tolerance_above_underflow.
  assert (0 < (1 - u) ^ 6)%R by (apply pow_lt; lra).
  assert (HV : (0 < V)%R)
    by (eapply Rlt_le_trans; [|exact HVlo]; by apply Rmult_lt_0_compat).
  set (t := (/ 1048576)%R) in *. set (h := (/ 1099511627776)%R) in *.
  assert (HUV : (U / V * V = U)%R) by (field; lra).
  assert (Hlo : ((1 - t) * (1 - t) + h <= U / V)%R).
  { apply Rmult_le_reg_r with V; [done|]. rewrite HUV.
    trans (((1 - t) * (1 - t) + h) * (S * (1 + u) ^ 6))%R.
    - apply Rmult_le_compat_l; [unfold t, h; nra|done].
    - trans (S * (1 - u) ^ 4)%R; [|done].
      replace (((1 - t) * (1 - t) + h) * (S * (1 + u) ^ 6))%R
        with (S * (((1 - t) * (1 - t) + h) * (1 + u) ^ 6))%R by ring.
      apply Rmult_le_compat_l; lra. }
  assert (Hhi : (U / V <= (1 + t) * (1 + t) - h)%R).
  { apply Rmult_le_reg_r with V; [done|]. rewrite HUV.
    trans (((1 + t) * (1 + t) - h) * (S * (1 - u) ^ 6))%R.
    - trans (S * (1 + u) ^ 4)%R; [done|].
      replace (((1 + t) * (1 + t) - h) * (S * (1 - u) ^ 6))%R
        with (S * (((1 + t) * (1 + t) - h) * (1 - u) ^ 6))%R by ring.
      apply Rmult_le_compat_l; lra.
    - apply Rmult_le_compat_l; [unfold t, h; nra|done]. }
  assert (Hfour : ((1 + t) * (1 + t) - h <= 4)%R) by (unfold t, h; nra).
  split; [etrans; [exact Hhi|exact Hfour]|].
  intros Hρ%Rabs_bounds. apply Rabs_le. split.
  - assert (1 - t <= sqrt (U / V + ρ))%R; [|lra].
    rewrite <- (sqrt_square (1 - t)) by (unfold t; lra). apply sqrt_le_1_alt. lra.
  - assert (sqrt (U / V + ρ) <= 1 + t)%R; [|lra].
    rewrite <- (sqrt_square (1 + t)) by (unfold t; lra). apply sqrt_le_1_alt. lra.
Qed.

Lemma squares_at_most_four (P Q R : R) :
  (P * P + Q * Q + R * R <= 4)%R →
  (-2 <= P <= 2)%R ∧ (-2 <= Q <= 2)%R ∧ (-2 <= R <= 2)%R.
Proof. intros H. repeat split; nra. Qed.

Lemma cross_term (P κ h : R) :
  (-2 <= P <= 2)%R → (- h <= κ <= h)%R → (h <= 1)%R →
  (- (5 * h) <= 2 * P * κ + κ * κ <= 5 * h)%R.
Proof. intros HP Hκ Hh. split; nra. Qed.

(** A normal number is at least [2^(lo + 23)] in magnitude. *)
Lemma normal_square_large (s : bool) (lo hi : Z) a :
  Binary32.normal s lo hi a →
  (powerRZ 2 (lo + 23 + (lo + 23)) <= Binary32.value a * Binary32.value a)%R.
Proof.
  intros (m & e & -> & Hd & He). cbn [Binary32.value].
  pose proof (digits_bounds m) as Hm. rewrite Hd in Hm.
  assert (Hge : (powerRZ 2 (lo + 23) <= IZR (Z.pos m) * powerRZ 2 e)%R).
  { rewrite (Z.add_comm lo 23), pow2_add, <- (IZR_pow2 23) by lia.
    pose proof (pow2_pos lo). pose proof (pow2_le lo e ltac:(lia)).
    assert (IZR (2 ^ 23) <= IZR (Z.pos m))%R by (apply IZR_le; lia).
    assert (0 < IZR (2 ^ 23))%R by (apply IZR_lt; lia).
    nra. }
  rewrite pow2_add. pose proof (pow2_pos (lo + 23)).
  replace (Binary32.sign_of s * IZR (Z.pos m) * powerRZ 2 e
           * (Binary32.sign_of s * IZR (Z.pos m) * powerRZ 2 e))%R
    with (Binary32.sign_of s * Binary32.sign_of s
          * (IZR (Z.pos m) * powerRZ 2 e * (IZR (Z.pos m) * powerRZ 2 e)))%R by ring.
  rewrite sign_of_sq, Rmult_1_l. apply Rmult_le_compat; lra.
Qed.

Lemma finite_below_cases x :
  Binary32.finite_below 36 x = true → ∃ s, Binary32.below s 36 x.
Proof.
  destruct x as [s|s| |s m e]; cbn [Binary32.finite_below]; try done.
  - intros _. exists s. by left.
  - intros [Hb He%Z.leb_le]%andb_prop. exists s. right. by exists m, e.
Qed.

Lemma normal_above_cases x :
  Binary32.finite_below 36 x = true → Binary32.normal_above (-83) x = true →
  ∃ s, Binary32.normal s (-83) 36 x.
Proof.
  destruct x as [s|s| |s m e]; cbn [Binary32.finite_below Binary32.normal_above];
    try done.
  intros [Hb He%Z.leb_le]%andb_prop [Hd%Z.eqb_eq Hlo%Z.leb_le]%andb_prop.
  exists s, m, e. done.
Qed.

(** The square of a finite component: finite, not negative, and normal
    when the component is large enough. *)
Lemma fmul_square_finite x :
  Binary32.finite_below 36 x = true →
  Binary32.below false 97 (SFmul 24 128 x x)
  ∧ (∃ δ η : R,
       (Rabs δ <= u)%R ∧ (Rabs η <= Binary32.tiny)%R
       ∧ Binary32.value (SFmul 24 128 x x)
         = (Binary32.value x * Binary32.value x * (1 + δ) + η)%R)
  ∧ (Binary32.normal_above (-83) x = true →
     Binary32.normal false (-143) 97 (SFmul 24 128 x x)
     ∧ (powerRZ 2 (-120) <= Binary32.value x * Binary32.value x)%R).
Proof.
  intros Hx. destruct (finite_below_cases x Hx) as [s Hb].
  destruct (fmul_finite s s 36 36 x x Hb Hb ltac:(lia)) as (Hbelow & Herr).
  replace (xorb s s) with false in Hbelow by (by destruct s).
  split; [exact Hbelow|]. split; [exact Herr|].
  intros Hn. destruct (normal_above_cases x Hx Hn) as [s' Hnorm].
  split.
  - destruct (fmul_normal s' s' (-83) 36 (-83) 36 x x Hnorm Hnorm ltac:(lia) ltac:(lia))
      as (_ & _ & Hsq & _).
    replace (xorb s' s') with false in Hsq by (by destruct s'). exact Hsq.
  - exact (normal_square_large s' (-83) 36 x Hnorm).
Qed.

(** In binary32 [glm::normalize] of a vector whose length neither
    overflows nor underflows has finite components, and its Euclidean
    length is within [2^-20] of 1. *)
Lemma normalize_unit (v : vec4 Binary32.float) :
  normalizable v = true →
  finite3 (glm.to_vec3 (glm.normalize v)) = true
  ∧ (Rabs (exact_length3 (glm.to_vec3 (glm.normalize v)) - 1) <= / 1048576)%R.
Proof.
  destruct v as [x y z w]. unfold normalizable. cbn [v4x v4y v4z v4w].
  intros [[[[Hw Hx]%andb_prop Hy]%andb_prop Hz]%andb_prop Hlarge]%andb_prop.
  unfold glm.normalize, glm.inversesqrt, glm.dot, glm.vec4_mul, glm.vec4_scale,
    glm.to_vec3, finite3, exact_length3.
  cbn [v4x v4y v4z v4w v3x v3y v3z fadd fmul fdiv fsqrt binary32_scalar].
  change (@fone _ binary32_scalar) with (S754_finite false 8388608 (-23)).
  change Binary32.prec with 24. change Binary32.emax with 128.
  assert (Hww : SFmul 24 128 w w = S754_zero false)
    by (destruct w as [[]| | |]; done).
  rewrite Hww.
  destruct (fmul_square_finite x Hx) as (Bx & (δx & ηx & Hδx & Hηx & Vx) & Nx).
  destruct (fmul_square_finite y Hy) as (By & (δy & ηy & Hδy & Hηy & Vy) & Ny).
  destruct (fmul_square_finite z Hz) as (Bz & (δz & ηz & Hδz & Hηz & Vz) & Nz).
  set (xx := SFmul 24 128 x x) in *.
  set (yy := SFmul 24 128 y y) in *.
  set (zz := SFmul 24 128 z z) in *.
  destruct (fadd_finite 97 xx yy Bx By ltac:(lia)) as (δ1 & Hδ1 & B1 & V1 & N1).
  change (97 + 2) with 99 in *.
  assert (Ezz : SFadd 24 128 zz (S754_zero false) = zz).
  { destruct Bz as [->|(m & e & -> & _)]; done. }
  rewrite Ezz.
  set (a1 := SFadd 24 128 xx yy) in *.
  destruct (fadd_finite 99 a1 zz B1 (below_wider false 97 99 zz ltac:(lia) Bz)
              ltac:(lia)) as (δ2 & Hδ2 & Bs & Vs & Ns).
  change (99 + 2) with 101 in *.
  set (s := SFadd 24 128 a1 zz) in *.
  set (X := Binary32.value x) in *.
  set (Y := Binary32.value y) in *.
  set (Z := Binary32.value z) in *.
  set (S := (X * X + Y * Y + Z * Z)%R).
  (* one component is large: the sum of squares is normal and at least 2^-120 *)
  assert (Hbig : Binary32.normal false (-143) 101 s ∧ (powerRZ 2 (-120) <= S)%R).
  { apply orb_prop in Hlarge as [[Hl|Hl]%orb_prop|Hl].
    - destruct (Nx Hl) as [Hn Hv]. split; [|unfold S; nra].
      apply Ns; [lia|]. left. apply N1; [lia|]. left. exact Hn.
    - destruct (Ny Hl) as [Hn Hv]. split; [|unfold S; nra].
      apply Ns; [lia|]. left. apply N1; [lia|]. right. exact Hn.
    - destruct (Nz Hl) as [Hn Hv]. split; [|unfold S; nra].
      apply Ns; [lia|]. right. eapply normal_wider; [| |exact Hn]; lia. }
  destruct Hbig as [Hsn HSlarge].
  pose proof tiny_pos as Htiny. pose proof tiny_scaled as Hscaled.
  pose proof tiny_small as Hsmall. pose proof u_small as Hu.
  set (h := Binary32.tiny) in *.
  assert (HS : (0 < S)%R) by (pose proof (pow2_pos (-120)); lra).
  (* the computed sum of squares: four roundings from the exact one *)
  apply Rabs_bounds in Hδ1 as Hδ1'. apply Rabs_bounds in Hδ2 as Hδ2'.
  assert (Rs : roundings 4 S (Binary32.value s)).
  { set (s0 := (((X * X * (1 + δx) + Y * Y * (1 + δy)) * (1 + δ1)
                 + Z * Z * (1 + δz)) * (1 + δ2))%R).
    set (ηs := (((ηx + ηy) * (1 + δ1) + ηz) * (1 + δ2))%R).
    replace (Binary32.value s) with (s0 + ηs)%R
      by (rewrite Vs, V1, Vx, Vy, Vz; unfold s0, ηs; ring).
    apply (roundings_absorb 3 S s0 ηs (4 * h)); [lra| | |].
    - unfold s0. apply roundings_step; [lra| |done].
      unfold S. apply roundings_add.
      + apply roundings_step; [nra| |done].
        apply roundings_add; (apply roundings_step; [nra| |done]; apply roundings_exact).
      + apply roundings_more; [nra|].
        apply roundings_step; [nra| |done]. apply roundings_exact.
    - unfold ηs.
      assert (H2 : (Rabs (ηx + ηy) <= 2 * h)%R)
        by (etrans; [apply Rabs_triang|]; lra).
      pose proof (scaled_error _ _ _ H2 Hδ1) as H3.
      assert (H4 : (Rabs ((ηx + ηy) * (1 + δ1) + ηz) <= 13 / 4 * h)%R)
        by (etrans; [apply Rabs_triang|]; lra).
      pose proof (scaled_error _ _ _ H4 Hδ2) as H5. lra.
    - assert ((1 - u) ^ 3 >= / 2)%R by (unfold u; simpl; lra).
      assert (64 * h <= S * u)%R by (unfold u; lra).
      nra. }
  (* the square root and its reciprocal *)
  destruct (fsqrt_normal (-143) 101 s Hsn ltac:(lia) ltac:(lia))
    as (δ3 & Hδ3 & Hrn & Vr).
  change ((25 + -143) / 2 - 24) with (-83) in Hrn.
  change ((25 + 101) / 2 - 23) with 40 in Hrn.
  set (r := SFsqrt 24 128 s) in *.
  destruct (finv_normal (-83) 40 r Hrn ltac:(lia) ltac:(lia))
    as (δ4 & Hδ4 & Hin & Vi).
  change (-47 - 40) with (-87) in Hin. change (-45 - -83) with 38 in Hin.
  set (i := SFdiv 24 128 (S754_finite false 8388608 (-23)) r) in *.
  pose proof (normal_bounded false (-87) 38 i Hin ltac:(lia) ltac:(lia)) as Bi.
  destruct (finite_below_cases x Hx) as [sx Bx'].
  destruct (finite_below_cases y Hy) as [sy By'].
  destruct (finite_below_cases z Hz) as [sz Bz'].
  destruct (fmul_finite sx false 36 38 x i Bx' Bi ltac:(lia))
    as (Fx & εx & κx & Hεx & Hκx & Px).
  destruct (fmul_finite sy false 36 38 y i By' Bi ltac:(lia))
    as (Fy & εy & κy & Hεy & Hκy & Py).
  destruct (fmul_finite sz false 36 38 z i Bz' Bi ltac:(lia))
    as (Fz & εz & κz & Hεz & Hκz & Pz).
  split.
  { rewrite (below_finite _ _ _ Fx), (below_finite _ _ _ Fy), (below_finite _ _ _ Fz).
    done. }
  rewrite Px, Py, Pz. fold X Y Z.
  assert (Hspos : (0 < Binary32.value s)%R) by (by eapply normal_value_pos).
  set (q := sqrt (Binary32.value s)) in *.
  assert (Hq : (q * q = Binary32.value s)%R) by (apply sqrt_sqrt; lra).
  assert (Hqpos : (0 < q)%R) by (apply sqrt_lt_R0; lra).
  apply Rabs_bounds in Hδ3 as Hδ3'. apply Rabs_bounds in Hδ4 as Hδ4'.
  set (T := (X * (1 + εx) * (X * (1 + εx)) + Y * (1 + εy) * (Y * (1 + εy))
             + Z * (1 + εz) * (Z * (1 + εz)))%R).
  set (U := (T * (1 + δ4) * (1 + δ4))%R).
  set (V := (Binary32.value s * (1 + δ3) * (1 + δ3))%R).
  set (recip := Binary32.value i) in *.
  set (Px' := (X * recip * (1 + εx))%R). set (Py' := (Y * recip * (1 + εy))%R).
  set (Pz' := (Z * recip * (1 + εz))%R).
  assert (E : (Px' * Px' + Py' * Py' + Pz' * Pz' = U / V)%R).
  { unfold Px', Py', Pz', U, V, T. rewrite Vi, Vr. fold q. rewrite <- Hq.
    field. lra. }
  assert (RU : roundings 4 S U).
  { unfold U. apply roundings_step; [lra| |done]. apply roundings_step; [lra| |done].
    unfold T, S. apply roundings_add; [apply roundings_add|]; by apply roundings_sq. }
  assert (RV : roundings 6 S V).
  { unfold V. apply roundings_step; [lra| |done]. apply roundings_step; [lra| |done].
    done. }
  destruct (quotient_near_one_underflow S U V
              (2 * Px' * κx + κx * κx + (2 * Py' * κy + κy * κy)
               + (2 * Pz' * κz + κz * κz)) HS RU RV) as [Hfour Hnear].
  replace ((Px' + κx) * (Px' + κx) + (Py' + κy) * (Py' + κy)
           + (Pz' + κz) * (Pz' + κz))%R
    with (U / V + (2 * Px' * κx + κx * κx + (2 * Py' * κy + κy * κy)
                   + (2 * Pz' * κz + κz * κz)))%R
    by (rewrite <- E; ring).
  apply Hnear.
  (* the products are at most 2 in magnitude, the errors of underflow tiny *)
  rewrite <- E in Hfour.
  destruct (squares_at_most_four Px' Py' Pz' Hfour) as (HPx & HPy & HPz).
  apply Rabs_bounds in Hκx, Hκy, Hκz. fold h in Hκx, Hκy, Hκz.
  assert (Hh1 : (h <= / 1099511627776)%R).
  { apply Rmult_le_reg_l with 1099511627776%R; [lra|].
    rewrite Rinv_r by lra. exact Hsmall. }
  pose proof (cross_term Px' κx h HPx Hκx ltac:(lra)).
  pose proof (cross_term Py' κy h HPy Hκy ltac:(lra)).
  pose proof (cross_term Pz' κz h HPz Hκz ltac:(lra)).
  apply Rabs_le.
  assert (15 * h <= / 1099511627776)%R.
  { apply Rmult_le_reg_l with 1099511627776%R; [lra|].
    rewrite Rinv_r by lra.
    assert (1099511627776 * (16 * h) <= 1)%R; [|lra].
    unfold h, Binary32.tiny. change 1099511627776%R with (IZR (2 ^ 40)).
    change 16%R with (IZR (2 ^ 4)).
    rewrite (IZR_pow2 40), (IZR_pow2 4), <- !pow2_add by lia.
    change 1%R with (powerRZ 2 0). apply pow2_le. lia. }
  lra.
Qed.

End NormalizeFacts.

(** ** The translation column and a direction, in binary32 *)

Section TranslationColumn.
Implicit Types (x y z a b c : Binary32.float).

Lemma alike_refl a : Binary32.alike a a.
Proof. by left. Qed.

(** A finite entry times [+0] is a zero. *)
Lemma fmul_finite_zero c :
  Binary32.finite c = true →
  Binary32.is_zero (SFmul 24 128 c (S754_zero false)) = true.
Proof. by destruct c. Qed.

(** Adding a zero of either sign gives the same number. *)
Lemma fadd_zero_alike a z z' :
  Binary32.is_zero z = true → Binary32.is_zero z' = true →
  Binary32.alike (SFadd 24 128 a z) (SFadd 24 128 a z').
Proof.
  destruct z as [sz| | |]; [|done..]. destruct z' as [sz'| | |]; [|done..].
  intros _ _. destruct a as [s|s| |s m e]; try by left.
  right. by destruct s, sz, sz'.
Qed.

Lemma fadd_alike_r a b b' :
  Binary32.alike b b' → Binary32.alike (SFadd 24 128 a b) (SFadd 24 128 a b').
Proof.
  intros [->|[Hb Hb']]; [apply alike_refl|]. by apply fadd_zero_alike.
Qed.

Lemma fmul_alike_l a a' c :
  Binary32.alike a a' → Binary32.alike (SFmul 24 128 a c) (SFmul 24 128 a' c).
Proof.
  intros [->|[Ha Ha']]; [apply alike_refl|].
  destruct a as [s| | |]; [|done..]. destruct a' as [s'| | |]; [|done..].
  destruct c as [sc|sc| |sc m e]; cbn [SFmul]; try by left.
  - by right.
  - by right.
Qed.

Lemma fmul_self_alike a a' :
  Binary32.alike a a' → SFmul 24 128 a a = SFmul 24 128 a' a'.
Proof.
  intros [->|[Ha Ha']]; [done|].
  destruct a as [s| | |]; [|done..]. destruct a' as [s'| | |]; [|done..].
  by destruct s, s'.
Qed.

(** With [w = 0], matrices that differ in their translation column only,
    finite in both, send a direction to the same vector. *)
Lemma direction_ignores_translation (m : mat4 Binary32.float)
    (c : vec4 Binary32.float) (dir : KVector3D Binary32.float) :
  finite4 c = true → finite4 (col3 m) = true →
  let v' := glm.mat4_mul_vec4 (Mat4 (col0 m) (col1 m) (col2 m) c)
              (Karma.ToGlm_w dir fzero) in
  let v := glm.mat4_mul_vec4 m (Karma.ToGlm_w dir fzero) in
  Binary32.alike (v4x v') (v4x v) ∧ Binary32.alike (v4y v') (v4y v)
  ∧ Binary32.alike (v4z v') (v4z v) ∧ Binary32.alike (v4w v') (v4w v).
Proof.
  destruct c as [cx cy cz cw]. destruct m as [m0 m1 m2 [tx ty tz tw]].
  unfold finite4. cbn [col0 col1 col2 col3 v4x v4y v4z v4w].
  intros [[[Hcx Hcy]%andb_prop Hcz]%andb_prop Hcw]%andb_prop
         [[[Htx Hty]%andb_prop Htz]%andb_prop Htw]%andb_prop.
  unfold glm.mat4_mul_vec4, glm.vec4_add, glm.vec4_mul, glm.splat, Karma.ToGlm_w.
  cbn [col0 col1 col2 col3 v4x v4y v4z v4w fadd fmul fzero binary32_scalar].
  change Binary32.prec with 24. change Binary32.emax with 128.
  repeat split; apply fadd_alike_r, fadd_zero_alike; by apply fmul_finite_zero.
Qed.

(** [glm::normalize] of the same vector is the same vector. *)
Lemma normalize_alike (v v' : vec4 Binary32.float) :
  Binary32.alike (v4x v') (v4x v) → Binary32.alike (v4y v') (v4y v) →
  Binary32.alike (v4z v') (v4z v) → Binary32.alike (v4w v') (v4w v) →
  alike3 (glm.to_vec3 (glm.normalize v')) (glm.to_vec3 (glm.normalize v)).
Proof.
  destruct v as [x y z w], v' as [x' y' z' w']. cbn [v4x v4y v4z v4w].
  intros Hx Hy Hz Hw.
  unfold glm.normalize, glm.inversesqrt, glm.dot, glm.vec4_mul, glm.vec4_scale,
    glm.to_vec3, alike3.
  cbn [v4x v4y v4z v4w v3x v3y v3z fadd fmul fdiv fsqrt binary32_scalar].
  change Binary32.prec with 24. change Binary32.emax with 128.
  rewrite (fmul_self_alike x' x Hx), (fmul_self_alike y' y Hy),
    (fmul_self_alike z' z Hz), (fmul_self_alike w' w Hw).
  repeat split; by apply fmul_alike_l.
Qed.

End TranslationColumn.

(** ** Exact arithmetic *)

Section RealFacts.

(** A vector with [w = 0] and a nonzero length is normalized to length 1. *)
Lemma real_normalize_unit (v : vec4 R) :
  v4w v = 0%R → glm.dot v v ≠ 0%R →
  glm.length3 (glm.to_vec3 (glm.normalize v)) = 1%R.
Proof.
  destruct v as [x y z w]. cbn [v4w]. intros -> Hd.
  unfold glm.length3, glm.to_vec3, glm.normalize, glm.vec4_scale,
    glm.inversesqrt, glm.dot, glm.vec4_mul in *.
  real_ops.
  set (d := (x * x + y * y + (z * z + 0 * 0))%R) in *.
  assert (Hpos : (0 < d)%R).
  { assert (0 <= d)%R by (unfold d; nra). lra. }
  assert (Hs : (sqrt d * sqrt d = d)%R) by (apply sqrt_sqrt; lra).
  assert (Hs0 : (sqrt d <> 0)%R).
  { intros E. rewrite E in Hs. lra. }
  assert (Hinv : (1 / sqrt d * (1 / sqrt d) = 1 / d)%R).
  { rewrite <- Hs at 3. by field. }
  replace (x * (1 / sqrt d) * (x * (1 / sqrt d))
           + y * (1 / sqrt d) * (y * (1 / sqrt d))
           + z * (1 / sqrt d) * (z * (1 / sqrt d)))%R
    with ((x * x + y * y + (z * z + 0 * 0)) * (1 / sqrt d * (1 / sqrt d)))%R by ring.
  rewrite Hinv. fold d. replace (d * (1 / d))%R with 1%R by (field; lra).
  apply sqrt_1.
Qed.

(** With [w = 0] the translation column of the matrix contributes nothing. *)
Lemma real_direction_ignores_translation (m : mat4 R) (c : vec4 R) (dir : KVector3D R) :
  glm.mat4_mul_vec4 (Mat4 (col0 m) (col1 m) (col2 m) c) (Karma.ToGlm_w dir fzero)
  = glm.mat4_mul_vec4 m (Karma.ToGlm_w dir fzero).
Proof.
  unfold glm.mat4_mul_vec4, glm.vec4_add, glm.vec4_mul, glm.splat, Karma.ToGlm_w.
  real_ops. f_equal; ring.
Qed.

Lemma real_identity_mul (m : mat4 R) : glm.mat4_mul glm.identity m = m.
Proof.
  destruct m as [[a0 a1 a2 a3] [b0 b1 b2 b3] [c0 c1 c2 c3] [d0 d1 d2 d3]].
  unfold glm.mat4_mul, glm.mat4_mul_col, glm.vec4_add, glm.vec4_scale, glm.identity.
  real_ops. repeat f_equal; ring.
Qed.

Lemma real_identity_point (v : KVector3D R) :
  glm.to_vec3 (glm.mat4_mul_vec4 glm.identity (Karma.ToGlm_w v fone)) = v.
Proof.
  destruct v as [x y z].
  unfold glm.to_vec3, glm.mat4_mul_vec4, glm.vec4_add, glm.vec4_mul, glm.splat,
    Karma.ToGlm_w, glm.identity.
  real_ops. f_equal; ring.
Qed.

End RealFacts.

(** ** Fuel counts iterations *)

Section FuelFacts.
Context {F : Type} `{Scalar F} `{Stored F}.
Variable L : DataLayout.
Hypothesis layout : layout_ok L = true.

Lemma has_room_next (m m' : Mem) data stride (n : nat) :
  length m' = length m →
  has_room L m data stride (S n) →
  has_room L m' (data + stride) stride n.
Proof.
  intros Hlen Hroom k Hk. rewrite Hlen.
  specialize (Hroom (S k) ltac:(lia)). lia.
Qed.

(** With room in the destination, a run given less fuel than the range
    has lights stops for lack of fuel: every light costs one iteration. *)
Lemma while_ne_starved stride e fuel (st : LoopState F) :
  (ls_begin st ≤ e ≤ length (w_lights (ls_world st)))%nat →
  (fuel < e - ls_begin st)%nat →
  has_room L (w_dest (ls_world st)) (ls_data st) stride (e - ls_begin st) →
  while_ne (advance L stride) e fuel st = OutOfFuel.
Proof using layout.
  revert st. induction fuel as [|fuel IH]; intros [[m lights stats] data b];
    simpl; intros Hrange Hfuel Hroom.
  - by rewrite decide_False by lia.
  - rewrite decide_False by lia.
    destruct (lookup_lt_is_Some_2 lights b ltac:(lia)) as [l Hl].
    unfold advance at 1. simpl. rewrite Hl. simpl.
    destruct (write_record_fits L m data (translate_light stats l) layout)
      as [m1 Hm1].
    { specialize (Hroom 0%nat ltac:(lia)). lia. }
    { specialize (Hroom 0%nat ltac:(lia)). lia. }
    rewrite Hm1. simpl. apply IH; simpl; [lia..|].
    apply (has_room_next m).
    + by eapply write_record_length.
    + by replace (S (e - S b)) with (e - b)%nat by lia.
Qed.

End FuelFacts.

(** * The statements of the specification *)

Section Claims.
Context {F : Type} `{Scalar F} `{Stored F}.
Implicit Types (L : DataLayout) (w : World F) (st : LoopState F).

Lemma room_for_writes L (m : Mem) (stats : OpenGLRenderBlock F) data stride
    (lights : list (Light F)) b e :
  layout_ok L = true → (e ≤ length lights)%nat →
  has_room L m data stride (e - b) →
  is_Some (replay L m (record_writes stats data stride (range lights b e))).
Proof.
  intros Hok He Hroom. apply replay_room; [done|].
  by rewrite range_length.
Qed.

(** C1. For every view state, destination and light range [[begin, end)],
    [translateBuffer] and [translateUniforms] each write exactly one
    complete record per light of the range: the run is the replay of
    [end - begin] whole-record writes, one for each light in order; with
    room in the destination the run finishes, every slot then holds the
    whole record of its light (for [translateUniforms], when the stride
    keeps the records apart), and [translateBuffer] leaves every byte
    outside the [end - begin] slots as it was. *)
Theorem one_record_per_light L (fuel : nat) w (data step : Z) (b e : nat) :
  layout_ok L = true →
  (b ≤ e ≤ length (w_lights w))%nat →
  (e - b ≤ fuel)%nat →
  let n := (e - b)%nat in
  let lights := range (w_lights w) b e in
  let to_buffer := record_writes (w_stats w) data (sizeofDataType L) lights in
  let to_uniforms := record_writes (w_stats w) data step lights in
  (length to_buffer = n
   ∧ translateBuffer L fuel w data b e
     = finished_with w (replay L (w_dest w) to_buffer)
   ∧ (has_room L (w_dest w) data (sizeofDataType L) n →
      ∃ w', translateBuffer L fuel w data b e = Finished w'
        ∧ (∀ (k : nat) l, (k < n)%nat → w_lights w !! (b + k)%nat = Some l →
             record_at L (w_dest w') (data + Z.of_nat k * sizeofDataType L)
               (translate_light (w_stats w) l))
        ∧ (∀ i : nat,
             Z.of_nat i < data ∨ data + Z.of_nat n * sizeofDataType L ≤ Z.of_nat i →
             w_dest w' !! i = w_dest w !! i)))
  ∧ (length to_uniforms = n
     ∧ translateUniforms L fuel w data step b e
       = finished_with w (replay L (w_dest w) to_uniforms)
     ∧ (has_room L (w_dest w) data step n →
        ∃ w', translateUniforms L fuel w data step b e = Finished w'
          ∧ (sizeofDataType L ≤ Z.abs step →
             ∀ (k : nat) l, (k < n)%nat → w_lights w !! (b + k)%nat = Some l →
               record_at L (w_dest w') (data + Z.of_nat k * step)
                 (translate_light (w_stats w) l)))).
Proof.
  intros Hok [Hbe He] Hfuel. cbv zeta.
  assert (Hlen : length (range (w_lights w) b e) = (e - b)%nat)
    by by apply range_length.
  split.
  - split; [|split].
    + by rewrite record_writes_length.
    + apply translateBuffer_replay; [done|by intros|done].
    + intros Hroom.
      destruct (room_for_writes L (w_dest w) (w_stats w) data (sizeofDataType L)
                  (w_lights w) b e Hok He Hroom) as [m' Hm'].
      assert (Hrun : translateBuffer L fuel w data b e
                     = Finished {| w_dest := m'; w_lights := w_lights w;
                                   w_stats := w_stats w |}).
      { rewrite translateBuffer_replay by (done || by intros). by rewrite Hm'. }
      eexists. split; [exact Hrun|]. split.
      * intros k l Hk Hl.
        eapply translateBuffer_record_at; [done|exact Hrun|done|lia].
      * intros i Hi. simpl.
        eapply replay_frame; [done|exact Hm'|].
        apply (record_writes_dest (w_stats w) data (sizeofDataType L)
                 (range (w_lights w) b e)
                 (λ d, Z.of_nat i < d ∨ d + sizeofDataType L ≤ Z.of_nat i)).
        intros k Hk. rewrite Hlen in Hk.
        pose proof (sizeof_positive L Hok). nia.
  - split; [|split].
    + by rewrite record_writes_length.
    + apply translateUniforms_replay; [done|by intros|done].
    + intros Hroom.
      destruct (room_for_writes L (w_dest w) (w_stats w) data step
                  (w_lights w) b e Hok He Hroom) as [m' Hm'].
      assert (Hrun : translateUniforms L fuel w data step b e
                     = Finished {| w_dest := m'; w_lights := w_lights w;
                                   w_stats := w_stats w |}).
      { rewrite translateUniforms_replay by (done || by intros). by rewrite Hm'. }
      eexists. split; [exact Hrun|].
      intros Hstep k l Hk Hl.
      eapply translateUniforms_record_at; [done|done|exact Hrun|done|lia].
Qed.

(** What holds of every slot that holds the record of a light holds, after
    the runs, of the slot of that light.  With room in the destination the
    runs finish and it holds: after [translateBuffer]; after
    [translateUniforms] when the stride keeps the records apart; and, with
    any stride, after the run over the range that ends with the light.  It
    holds as well after every finished run. *)
Lemma after_the_runs (P : Mem → Z → Prop) L (fuel : nat) w (data step : Z)
    (b e k : nat) (l : Light F) :
  layout_ok L = true →
  w_lights w !! (b + k)%nat = Some l →
  (b + k < e)%nat →
  (∀ m slot, record_at L m slot (translate_light (w_stats w) l) → P m slot) →
  ((e ≤ length (w_lights w))%nat → (e - b ≤ fuel)%nat →
   has_room L (w_dest w) data (sizeofDataType L) (e - b) →
   ∃ w', translateBuffer L fuel w data b e = Finished w'
     ∧ P (w_dest w') (data + Z.of_nat k * sizeofDataType L))
  ∧ ((e ≤ length (w_lights w))%nat → (e - b ≤ fuel)%nat →
     has_room L (w_dest w) data step (e - b) → sizeofDataType L ≤ Z.abs step →
     ∃ w', translateUniforms L fuel w data step b e = Finished w'
       ∧ P (w_dest w') (data + Z.of_nat k * step))
  ∧ ((S k ≤ fuel)%nat → has_room L (w_dest w) data step (S k) →
     ∃ w', translateUniforms L fuel w data step b (S (b + k)) = Finished w'
       ∧ P (w_dest w') (data + Z.of_nat k * step))
  ∧ (∀ w', translateBuffer L fuel w data b e = Finished w' →
       P (w_dest w') (data + Z.of_nat k * sizeofDataType L))
  ∧ (∀ w', translateUniforms L fuel w data step b e = Finished w' →
       sizeofDataType L ≤ Z.abs step →
       P (w_dest w') (data + Z.of_nat k * step))
  ∧ (∀ w', translateUniforms L fuel w data step b (S (b + k)) = Finished w' →
       P (w_dest w') (data + Z.of_nat k * step)).
Proof.
  intros Hok Hl Hk HP.
  assert (HB : ∀ w', translateBuffer L fuel w data b e = Finished w' →
            P (w_dest w') (data + Z.of_nat k * sizeofDataType L)).
  { intros w' Hrun. apply HP. by eapply translateBuffer_record_at. }
  assert (HU : ∀ w', translateUniforms L fuel w data step b e = Finished w' →
            sizeofDataType L ≤ Z.abs step →
            P (w_dest w') (data + Z.of_nat k * step)).
  { intros w' Hrun Hstep. apply HP. by eapply translateUniforms_record_at. }
  assert (HL : ∀ w', translateUniforms L fuel w data step b (S (b + k)) = Finished w' →
            P (w_dest w') (data + Z.of_nat k * step)).
  { intros w' Hrun. apply HP. by eapply translateUniforms_last_record_at. }
  split; [|split; [|split; [|split; [|split]]]]; [| | |exact HB|exact HU|exact HL].
  - intros He Hfuel Hroom.
    destruct (room_for_writes L (w_dest w) (w_stats w) data (sizeofDataType L)
                (w_lights w) b e Hok He Hroom) as [m' Hm'].
    assert (Hrun : translateBuffer L fuel w data b e
                   = Finished {| w_dest := m'; w_lights := w_lights w;
                                 w_stats := w_stats w |}).
    { rewrite translateBuffer_replay by (done || lia). by rewrite Hm'. }
    eexists. split; [exact Hrun|]. exact (HB _ Hrun).
  - intros He Hfuel Hroom Hstep.
    destruct (room_for_writes L (w_dest w) (w_stats w) data step
                (w_lights w) b e Hok He Hroom) as [m' Hm'].
    assert (Hrun : translateUniforms L fuel w data step b e
                   = Finished {| w_dest := m'; w_lights := w_lights w;
                                 w_stats := w_stats w |}).
    { rewrite translateUniforms_replay by (done || lia). by rewrite Hm'. }
    eexists. split; [exact Hrun|]. exact (HU _ Hrun Hstep).
  - intros Hfuel Hroom.
    assert (He : (S (b + k) ≤ length (w_lights w))%nat)
      by (apply lookup_lt_Some in Hl; lia).
    replace (S k) with (S (b + k) - b)%nat in Hroom by lia.
    destruct (room_for_writes L (w_dest w) (w_stats w) data step
                (w_lights w) b (S (b + k)) Hok He Hroom) as [m' Hm'].
    assert (Hrun : translateUniforms L fuel w data step b (S (b + k))
                   = Finished {| w_dest := m'; w_lights := w_lights w;
                                 w_stats := w_stats w |}).
    { rewrite translateUniforms_replay by (done || lia). by rewrite Hm'. }
    eexists. split; [exact Hrun|]. exact (HL _ Hrun).
Qed.

(** C2. For every light processed by [translateBuffer] or
    [translateUniforms], the angle-delta member of its record is the light's
    outer angle minus its inner angle, as the [float] subtraction gives it.
    With room in the destination the run finishes and the member reads
    back so: after [translateBuffer]; after [translateUniforms] when the
    stride keeps the records apart; and, with any stride, right after the
    light has been processed (the run over the range that ends with it).
    It reads back so after every finished run. *)
Theorem angle_delta_is_outer_minus_inner L (fuel : nat) w (data step : Z)
    (b e k : nat) (l : Light F) :
  layout_ok L = true →
  w_lights w !! (b + k)%nat = Some l →
  (b + k < e)%nat →
  let delta := bytes_of_float (fsub (outerAngle l) (innerAngle l)) in
  ((e ≤ length (w_lights w))%nat → (e - b ≤ fuel)%nat →
   has_room L (w_dest w) data (sizeofDataType L) (e - b) →
   ∃ w', translateBuffer L fuel w data b e = Finished w'
     ∧ load_bytes (w_dest w')
         (data + Z.of_nat k * sizeofDataType L + DiffAngleOffset L) 4 = Some delta)
  ∧ ((e ≤ length (w_lights w))%nat → (e - b ≤ fuel)%nat →
     has_room L (w_dest w) data step (e - b) → sizeofDataType L ≤ Z.abs step →
     ∃ w', translateUniforms L fuel w data step b e = Finished w'
       ∧ load_bytes (w_dest w')
           (data + Z.of_nat k * step + DiffAngleOffset L) 4 = Some delta)
  ∧ ((S k ≤ fuel)%nat → has_room L (w_dest w) data step (S k) →
     ∃ w', translateUniforms L fuel w data step b (S (b + k)) = Finished w'
       ∧ load_bytes (w_dest w')
           (data + Z.of_nat k * step + DiffAngleOffset L) 4 = Some delta)
  ∧ (∀ w', translateBuffer L fuel w data b e = Finished w' →
       load_bytes (w_dest w')
         (data + Z.of_nat k * sizeofDataType L + DiffAngleOffset L) 4 = Some delta)
  ∧ (∀ w', translateUniforms L fuel w data step b e = Finished w' →
       sizeofDataType L ≤ Z.abs step →
       load_bytes (w_dest w')
         (data + Z.of_nat k * step + DiffAngleOffset L) 4 = Some delta)
  ∧ (∀ w', translateUniforms L fuel w data step b (S (b + k)) = Finished w' →
       load_bytes (w_dest w')
         (data + Z.of_nat k * step + DiffAngleOffset L) 4 = Some delta).
Proof.
  intros Hok Hl Hk. cbv zeta.
  exact (after_the_runs
           (λ m slot,
              load_bytes m (slot + DiffAngleOffset L) 4
              = Some (bytes_of_float (fsub (outerAngle l) (innerAngle l))))
           L fuel w data step b e k l Hok Hl Hk
           (λ m slot, record_at_diffAngle L m slot (translate_light (w_stats w) l))).
Qed.

(** C4. For every light, the position member of its record is the
    world-to-view matrix applied to the light's translation extended with
    [w = 1], its first three components.  With room in the destination the
    run finishes and the member reads back so, after either function; it
    reads back so after every finished run. *)
Theorem position_is_view_of_translation L (fuel : nat) w (data step : Z)
    (b e k : nat) (l : Light F) :
  layout_ok L = true →
  w_lights w !! (b + k)%nat = Some l →
  (b + k < e)%nat →
  let position :=
    bytes_of_vec3
      (glm.to_vec3
         (glm.mat4_mul_vec4 (worldToView (w_stats w))
            (Vec4 (v3x (translation l)) (v3y (translation l))
                  (v3z (translation l)) fone))) in
  ((e ≤ length (w_lights w))%nat → (e - b ≤ fuel)%nat →
   has_room L (w_dest w) data (sizeofDataType L) (e - b) →
   ∃ w', translateBuffer L fuel w data b e = Finished w'
     ∧ load_bytes (w_dest w')
         (data + Z.of_nat k * sizeofDataType L + TranslationOffset L) 12 = Some position)
  ∧ ((e ≤ length (w_lights w))%nat → (e - b ≤ fuel)%nat →
     has_room L (w_dest w) data step (e - b) → sizeofDataType L ≤ Z.abs step →
     ∃ w', translateUniforms L fuel w data step b e = Finished w'
       ∧ load_bytes (w_dest w')
           (data + Z.of_nat k * step + TranslationOffset L) 12 = Some position)
  ∧ ((S k ≤ fuel)%nat → has_room L (w_dest w) data step (S k) →
     ∃ w', translateUniforms L fuel w data step b (S (b + k)) = Finished w'
       ∧ load_bytes (w_dest w')
           (data + Z.of_nat k * step + TranslationOffset L) 12 = Some position)
  ∧ (∀ w', translateBuffer L fuel w data b e = Finished w' →
       load_bytes (w_dest w')
         (data + Z.of_nat k * sizeofDataType L + TranslationOffset L) 12 = Some position)
  ∧ (∀ w', translateUniforms L fuel w data step b e = Finished w' →
       sizeofDataType L ≤ Z.abs step →
       load_bytes (w_dest w')
         (data + Z.of_nat k * step + TranslationOffset L) 12 = Some position)
  ∧ (∀ w', translateUniforms L fuel w data step b (S (b + k)) = Finished w' →
       load_bytes (w_dest w')
         (data + Z.of_nat k * step + TranslationOffset L) 12 = Some position).
Proof.
  intros Hok Hl Hk. cbv zeta.
  exact (after_the_runs
           (λ m slot,
              load_bytes m (slot + TranslationOffset L) 12
              = Some (bytes_of_vec3
                        (glm.to_vec3
                           (glm.mat4_mul_vec4 (worldToView (w_stats w))
                              (Vec4 (v3x (translation l)) (v3y (translation l))
                                    (v3z (translation l)) fone)))))
           L fuel w data step b e k l Hok Hl Hk
           (λ m slot, record_at_viewTrans L m slot (translate_light (w_stats w) l))).
Qed.

(** C6. In [translateUniforms], with any stride, consecutive records start
    exactly [step] bytes apart, whatever [sizeof(DataType)] is: each
    iteration moves [data] on by [step], and the run writes record [k] of
    the range at [data + k * step].  In the destination: with room, the run
    over the range that ends with light [begin + k] finishes and leaves the
    whole record of that light at [data + k * step], for any stride; and
    when the stride keeps the records apart the run over the whole range
    leaves every record at its [data + k * step].  [translateBuffer] moves
    on by exactly [sizeof(DataType)] per light and leaves record [k] at
    [data + k * sizeof(DataType)]. *)
Theorem record_starts_differ_by_stride L (fuel : nat) w (data step : Z)
    (b e : nat) :
  (b ≤ e ≤ length (w_lights w))%nat →
  (e - b ≤ fuel)%nat →
  let lights := range (w_lights w) b e in
  let to_uniforms := record_writes (w_stats w) data step lights in
  let to_buffer := record_writes (w_stats w) data (sizeofDataType L) lights in
  (translateUniforms L fuel w data step b e
   = finished_with w (replay L (w_dest w) to_uniforms)
   ∧ (∀ (k : nat), (k < e - b)%nat →
        ∃ r, to_uniforms !! k = Some (data + Z.of_nat k * step, r))
   ∧ (∀ (k : nat) d r d' r',
        to_uniforms !! k = Some (d, r) → to_uniforms !! S k = Some (d', r') →
        d' - d = step)
   ∧ (∀ st st', translateUniforms_body L step st = Some st' →
        ls_data st' - ls_data st = step)
   ∧ (∀ (k : nat) l,
        layout_ok L = true →
        (b + k < e)%nat → w_lights w !! (b + k)%nat = Some l →
        has_room L (w_dest w) data step (S k) →
        ∃ w', translateUniforms L fuel w data step b (S (b + k)) = Finished w'
          ∧ record_at L (w_dest w') (data + Z.of_nat k * step)
              (translate_light (w_stats w) l))
   ∧ (layout_ok L = true →
      has_room L (w_dest w) data step (e - b) → sizeofDataType L ≤ Z.abs step →
      ∃ w', translateUniforms L fuel w data step b e = Finished w'
        ∧ ∀ (k : nat) l, (b + k < e)%nat → w_lights w !! (b + k)%nat = Some l →
            record_at L (w_dest w') (data + Z.of_nat k * step)
              (translate_light (w_stats w) l)))
  ∧ (translateBuffer L fuel w data b e
     = finished_with w (replay L (w_dest w) to_buffer)
     ∧ (∀ (k : nat) d r d' r',
          to_buffer !! k = Some (d, r) → to_buffer !! S k = Some (d', r') →
          d' - d = sizeofDataType L)
     ∧ (∀ st st', translateBuffer_body L st = Some st' →
          ls_data st' - ls_data st = sizeofDataType L)
     ∧ (layout_ok L = true →
        has_room L (w_dest w) data (sizeofDataType L) (e - b) →
        ∃ w', translateBuffer L fuel w data b e = Finished w'
          ∧ ∀ (k : nat) l, (b + k < e)%nat → w_lights w !! (b + k)%nat = Some l →
              record_at L (w_dest w') (data + Z.of_nat k * sizeofDataType L)
                (translate_light (w_stats w) l))).
Proof.
  intros [Hbe He] Hfuel. cbv zeta.
  assert (Hstarts : ∀ stride (k : nat) d r d' r',
            record_writes (w_stats w) data stride (range (w_lights w) b e) !! k
              = Some (d, r) →
            record_writes (w_stats w) data stride (range (w_lights w) b e) !! S k
              = Some (d', r') →
            d' - d = stride).
  { intros stride k d r d' r'. rewrite !record_writes_lookup.
    destruct (range (w_lights w) b e !! k); simpl; [|done].
    destruct (range (w_lights w) b e !! S k); simpl; [|done].
    intros [= <- _] [= <- _]. lia. }
  assert (Hmoves : ∀ stride st st', advance L stride st = Some st' →
            ls_data st' - ls_data st = stride).
  { intros stride st st'. unfold advance.
    destruct (w_lights (ls_world st) !! ls_begin st); simpl; [|done].
    destruct (write_record L _ _ _); simpl; [|done].
    intros [= <-]. simpl. lia. }
  split; [split; [|split; [|split; [|split; [|split]]]]|split; [|split; [|split]]].
  - apply translateUniforms_replay; [done|by intros|done].
  - intros k Hk. rewrite record_writes_lookup, range_lookup by done.
    destruct (lookup_lt_is_Some_2 (w_lights w) (b + k)%nat ltac:(lia)) as [l ->].
    simpl. eauto.
  - apply Hstarts.
  - intros st st'. rewrite translateUniforms_body_advance. apply Hmoves.
  - intros k l Hok Hk Hl Hroom.
    exact (proj1 (proj2 (proj2
             (after_the_runs (λ m slot, record_at L m slot (translate_light (w_stats w) l))
                L fuel w data step b e k l Hok Hl Hk (λ m slot Hat, Hat))))
             ltac:(lia) Hroom).
  - intros Hok Hroom Hstep.
    destruct (room_for_writes L (w_dest w) (w_stats w) data step
                (w_lights w) b e Hok He Hroom) as [m' Hm'].
    assert (Hrun : translateUniforms L fuel w data step b e
                   = Finished {| w_dest := m'; w_lights := w_lights w;
                                 w_stats := w_stats w |}).
    { rewrite translateUniforms_replay by (done || by intros). by rewrite Hm'. }
    eexists. split; [exact Hrun|]. intros k l Hk Hl.
    by eapply translateUniforms_record_at.
  - apply translateBuffer_replay; [done|by intros|done].
  - apply Hstarts.
  - intros st st'. rewrite translateBuffer_body_advance. apply Hmoves.
  - intros Hok Hroom.
    destruct (room_for_writes L (w_dest w) (w_stats w) data (sizeofDataType L)
                (w_lights w) b e Hok He Hroom) as [m' Hm'].
    assert (Hrun : translateBuffer L fuel w data b e
                   = Finished {| w_dest := m'; w_lights := w_lights w;
                                 w_stats := w_stats w |}).
    { rewrite translateBuffer_replay by (done || by intros). by rewrite Hm'. }
    eexists. split; [exact Hrun|]. intros k l Hk Hl.
    by eapply translateBuffer_record_at.
Qed.

(** C7. [translateUniforms] does per light what [translateBuffer] does:
    given the same state the two loop bodies make the same stores and leave
    the same world and the same [begin], whatever the stride; and with the
    stride equal to [sizeof(DataType)] the bodies, the loops and the runs
    are equal, so the same records go to the same offsets. *)
Theorem uniforms_at_record_stride_is_buffer L (fuel : nat) w (data step : Z)
    (b e : nat) :
  translateUniforms L fuel w data (sizeofDataType L) b e
  = translateBuffer L fuel w data b e
  ∧ (∀ st end_,
       while_ne (translateUniforms_body L (sizeofDataType L)) end_ fuel st
       = while_ne (translateBuffer_body L) end_ fuel st)
  ∧ (∀ st, translateUniforms_body L (sizeofDataType L) st
           = translateBuffer_body L st)
  ∧ (∀ st, (λ st', (ls_world st', ls_begin st')) <$> translateUniforms_body L step st
           = (λ st', (ls_world st', ls_begin st')) <$> translateBuffer_body L st).
Proof.
  assert (Hbody : ∀ st, translateUniforms_body L (sizeofDataType L) st
                        = translateBuffer_body L st).
  { intros st. by rewrite translateUniforms_body_advance, translateBuffer_body_advance. }
  split; [|split; [|split]].
  - unfold translateUniforms, translateBuffer. by rewrite (while_ne_ext _ _ _ _ _ Hbody).
  - intros st end_. by apply while_ne_ext.
  - exact Hbody.
  - intros st. rewrite translateUniforms_body_advance, translateBuffer_body_advance.
    unfold advance.
    destruct (w_lights (ls_world st) !! ls_begin st); simpl; [|done].
    by destruct (write_record L _ _ _).
Qed.

(** C9. For every finite range [[begin, end)] the two translations
    terminate: each iteration moves [begin] on by one, fuel for
    [end - begin] iterations is enough whatever more is given, the run
    never ends for lack of fuel, and with room in the destination it
    finishes normally.  The bound is the length of the range: with room
    and less fuel than that the run does stop for lack of fuel. *)
Theorem translation_terminates L (fuel : nat) w (data step : Z) (b e : nat) :
  layout_ok L = true →
  (b ≤ e ≤ length (w_lights w))%nat →
  (e - b ≤ fuel)%nat →
  (translateBuffer L fuel w data b e = translateBuffer L (e - b) w data b e
   ∧ translateBuffer L fuel w data b e ≠ OutOfFuel
   ∧ (has_room L (w_dest w) data (sizeofDataType L) (e - b) →
      (∃ w', translateBuffer L fuel w data b e = Finished w')
      ∧ (∀ less : nat, (less < e - b)%nat →
           translateBuffer L less w data b e = OutOfFuel))
   ∧ (∀ st st', translateBuffer_body L st = Some st' →
        ls_begin st' = S (ls_begin st)))
  ∧ (translateUniforms L fuel w data step b e
     = translateUniforms L (e - b) w data step b e
     ∧ translateUniforms L fuel w data step b e ≠ OutOfFuel
     ∧ (has_room L (w_dest w) data step (e - b) →
        (∃ w', translateUniforms L fuel w data step b e = Finished w')
        ∧ (∀ less : nat, (less < e - b)%nat →
             translateUniforms L less w data step b e = OutOfFuel))
     ∧ (∀ st st', translateUniforms_body L step st = Some st' →
          ls_begin st' = S (ls_begin st))).
Proof.
  intros Hok [Hbe He] Hfuel.
  assert (Hnext : ∀ stride st st', advance L stride st = Some st' →
            ls_begin st' = S (ls_begin st)).
  { intros stride st st'. unfold advance.
    destruct (w_lights (ls_world st) !! ls_begin st); simpl; [|done].
    destruct (write_record L _ _ _); simpl; [|done].
    by intros [= <-]. }
  split; (split; [|split; [|split]]).
  - by rewrite !translateBuffer_replay by (done || by intros).
  - rewrite translateBuffer_replay by (done || by intros).
    by destruct (replay L _ _).
  - intros Hroom. split.
    + rewrite translateBuffer_replay by (done || by intros).
      destruct (room_for_writes L (w_dest w) (w_stats w) data (sizeofDataType L)
                  (w_lights w) b e Hok He Hroom) as [m' ->].
      simpl. eauto.
    + intros less Hless. unfold translateBuffer.
      rewrite (while_ne_ext _ (advance L (sizeofDataType L)))
        by apply translateBuffer_body_advance.
      by rewrite while_ne_starved.
  - intros st st'. rewrite translateBuffer_body_advance. apply Hnext.
  - by rewrite !translateUniforms_replay by (done || by intros).
  - rewrite translateUniforms_replay by (done || by intros).
    by destruct (replay L _ _).
  - intros Hroom. split.
    + rewrite translateUniforms_replay by (done || by intros).
      destruct (room_for_writes L (w_dest w) (w_stats w) data step
                  (w_lights w) b e Hok He Hroom) as [m' ->].
      simpl. eauto.
    + intros less Hless. unfold translateUniforms.
      rewrite (while_ne_ext _ (advance L step))
        by apply translateUniforms_body_advance.
      by rewrite while_ne_starved.
  - intros st st'. rewrite translateUniforms_body_advance. apply Hnext.
Qed.

(** C10. On an empty range ([begin = end]) both translations write nothing:
    the run finishes at once, whatever the fuel, with the world it was
    given, every byte of the destination included.  And on any range the
    light container and the render block are never changed: not by an
    iteration of either loop, and so not by a finished run. *)
Theorem empty_range_writes_nothing L (fuel : nat) w (data step : Z) (b : nat) :
  translateBuffer L fuel w data b b = Finished w
  ∧ translateUniforms L fuel w data step b b = Finished w
  ∧ (∀ e w', translateBuffer L fuel w data b e = Finished w' →
       w_lights w' = w_lights w ∧ w_stats w' = w_stats w)
  ∧ (∀ e w', translateUniforms L fuel w data step b e = Finished w' →
       w_lights w' = w_lights w ∧ w_stats w' = w_stats w)
  ∧ (∀ st st', translateBuffer_body L st = Some st' →
       w_lights (ls_world st') = w_lights (ls_world st)
       ∧ w_stats (ls_world st') = w_stats (ls_world st))
  ∧ (∀ st st', translateUniforms_body L step st = Some st' →
       w_lights (ls_world st') = w_lights (ls_world st)
       ∧ w_stats (ls_world st') = w_stats (ls_world st)).
Proof.
  assert (Hkeeps : ∀ stride st st', advance L stride st = Some st' →
            w_lights (ls_world st') = w_lights (ls_world st)
            ∧ w_stats (ls_world st') = w_stats (ls_world st)).
  { intros stride st st'. unfold advance.
    destruct (w_lights (ls_world st) !! ls_begin st); simpl; [|done].
    destruct (write_record L _ _ _); simpl; [|done].
    by intros [= <-]. }
  split; [|split; [|split; [|split; [|split]]]].
  - unfold translateBuffer. destruct fuel; simpl; by rewrite decide_True.
  - unfold translateUniforms. destruct fuel; simpl; by rewrite decide_True.
  - by intros e w' (_ & _ & ? & ?)%translateBuffer_Finished.
  - by intros e w' (_ & _ & ? & ?)%translateUniforms_Finished.
  - intros st st'. rewrite translateBuffer_body_advance. apply Hkeeps.
  - intros st st'. rewrite translateUniforms_body_advance. apply Hkeeps.
Qed.

End Claims.

Section DirectionAndPerspective.
Context {F : Type} `{Scalar F} `{Stored F}.
Implicit Types (L : DataLayout) (w : World F).

(** The direction member of the record of light [begin + k]. *)
Lemma direction_member L (fuel : nat) w (data step : Z) (b e k : nat) (l : Light F) :
  layout_ok L = true →
  w_lights w !! (b + k)%nat = Some l →
  (b + k < e)%nat →
  let dir := bytes_of_vec3 (m_direction (translate_light (w_stats w) l)) in
  ((e ≤ length (w_lights w))%nat → (e - b ≤ fuel)%nat →
   has_room L (w_dest w) data (sizeofDataType L) (e - b) →
   ∃ w', translateBuffer L fuel w data b e = Finished w'
     ∧ load_bytes (w_dest w')
         (data + Z.of_nat k * sizeofDataType L + DirectionOffset L) 12 = Some dir)
  ∧ ((e ≤ length (w_lights w))%nat → (e - b ≤ fuel)%nat →
     has_room L (w_dest w) data step (e - b) → sizeofDataType L ≤ Z.abs step →
     ∃ w', translateUniforms L fuel w data step b e = Finished w'
       ∧ load_bytes (w_dest w')
           (data + Z.of_nat k * step + DirectionOffset L) 12 = Some dir)
  ∧ ((S k ≤ fuel)%nat → has_room L (w_dest w) data step (S k) →
     ∃ w', translateUniforms L fuel w data step b (S (b + k)) = Finished w'
       ∧ load_bytes (w_dest w')
           (data + Z.of_nat k * step + DirectionOffset L) 12 = Some dir)
  ∧ (∀ w', translateBuffer L fuel w data b e = Finished w' →
       load_bytes (w_dest w')
         (data + Z.of_nat k * sizeofDataType L + DirectionOffset L) 12 = Some dir)
  ∧ (∀ w', translateUniforms L fuel w data step b e = Finished w' →
       sizeofDataType L ≤ Z.abs step →
       load_bytes (w_dest w')
         (data + Z.of_nat k * step + DirectionOffset L) 12 = Some dir)
  ∧ (∀ w', translateUniforms L fuel w data step b (S (b + k)) = Finished w' →
       load_bytes (w_dest w')
         (data + Z.of_nat k * step + DirectionOffset L) 12 = Some dir).
Proof.
  intros Hok Hl Hk. cbv zeta.
  exact (after_the_runs
           (λ m slot,
              load_bytes m (slot + DirectionOffset L) 12
              = Some (bytes_of_vec3 (m_direction (translate_light (w_stats w) l))))
           L fuel w data step b e k l Hok Hl Hk
           (λ m slot, record_at_direction L m slot (translate_light (w_stats w) l))).
Qed.

(** The perspective member of the record of light [begin + k]. *)
Lemma perspective_member L (fuel : nat) w (data step : Z) (b e k : nat) (l : Light F) :
  layout_ok L = true →
  w_lights w !! (b + k)%nat = Some l →
  (b + k < e)%nat →
  let persp := bytes_of_mat4 (m_perspTrans (translate_light (w_stats w) l)) in
  (∀ w', translateBuffer L fuel w data b e = Finished w' →
     load_bytes (w_dest w')
       (data + Z.of_nat k * sizeofDataType L + PerpectiveOffset L) 64 = Some persp)
  ∧ (∀ w', translateUniforms L fuel w data step b e = Finished w' →
       sizeofDataType L ≤ Z.abs step →
       load_bytes (w_dest w')
         (data + Z.of_nat k * step + PerpectiveOffset L) 64 = Some persp)
  ∧ (∀ w', translateUniforms L fuel w data step b (S (b + k)) = Finished w' →
       load_bytes (w_dest w')
         (data + Z.of_nat k * step + PerpectiveOffset L) 64 = Some persp).
Proof.
  intros Hok Hl Hk. cbv zeta. split; [|split].
  - intros w' Hrun. apply record_at_perspTrans.
    by eapply translateBuffer_record_at.
  - intros w' Hrun Hstep. apply record_at_perspTrans.
    by eapply translateUniforms_record_at.
  - intros w' Hrun. apply record_at_perspTrans.
    by eapply translateUniforms_last_record_at.
Qed.

End DirectionAndPerspective.

(** C3, as amended.  For every light, the direction member of its record
    is the normalization of the world-to-view matrix applied to the light's
    direction extended with [w = 0], its first three components: with room
    in the destination the run finishes and the member reads back so, after
    either function, as it does after every finished run.  In binary32 the
    translation column of the matrix, when finite, does not affect it
    beyond the sign of a zero component.  And in binary32 it has unit
    length, to within [2^-20], whenever the length of the transformed
    direction neither overflows nor underflows: [w] is zero, [x], [y] and
    [z] are finite and of magnitude less than [2^60], and one of them is of
    magnitude [2^-60] or more; its components are finite then.  (Outside
    that range unit length can fail: the squared length overflows or
    underflows, or a view matrix that is not affine leaves [w] non-zero.) *)
Theorem direction_is_normalized_view_direction :
  (∀ (F : Type) (HS : Scalar F) (HT : Stored F) (L : DataLayout) (fuel : nat)
     (w : World F) (data step : Z) (b e k : nat) (l : Light F),
     layout_ok L = true →
     w_lights w !! (b + k)%nat = Some l →
     (b + k < e)%nat →
     let dir :=
       bytes_of_vec3
         (glm.to_vec3
            (glm.normalize
               (glm.mat4_mul_vec4 (worldToView (w_stats w))
                  (Vec4 (v3x (direction l)) (v3y (direction l))
                        (v3z (direction l)) fzero)))) in
     ((e ≤ length (w_lights w))%nat → (e - b ≤ fuel)%nat →
      has_room L (w_dest w) data (sizeofDataType L) (e - b) →
      ∃ w', translateBuffer L fuel w data b e = Finished w'
        ∧ load_bytes (w_dest w')
            (data + Z.of_nat k * sizeofDataType L + DirectionOffset L) 12 = Some dir)
     ∧ ((e ≤ length (w_lights w))%nat → (e - b ≤ fuel)%nat →
        has_room L (w_dest w) data step (e - b) → sizeofDataType L ≤ Z.abs step →
        ∃ w', translateUniforms L fuel w data step b e = Finished w'
          ∧ load_bytes (w_dest w')
              (data + Z.of_nat k * step + DirectionOffset L) 12 = Some dir)
     ∧ ((S k ≤ fuel)%nat → has_room L (w_dest w) data step (S k) →
        ∃ w', translateUniforms L fuel w data step b (S (b + k)) = Finished w'
          ∧ load_bytes (w_dest w')
              (data + Z.of_nat k * step + DirectionOffset L) 12 = Some dir)
     ∧ (∀ w', translateBuffer L fuel w data b e = Finished w' →
          load_bytes (w_dest w')
            (data + Z.of_nat k * sizeofDataType L + DirectionOffset L) 12 = Some dir)
     ∧ (∀ w', translateUniforms L fuel w data step b e = Finished w' →
          sizeofDataType L ≤ Z.abs step →
          load_bytes (w_dest w')
            (data + Z.of_nat k * step + DirectionOffset L) 12 = Some dir)
     ∧ (∀ w', translateUniforms L fuel w data step b (S (b + k)) = Finished w' →
          load_bytes (w_dest w')
            (data + Z.of_nat k * step + DirectionOffset L) 12 = Some dir))
  ∧ (∀ (stats : OpenGLRenderBlock Binary32.float) (c : vec4 Binary32.float)
       (l : Light Binary32.float),
       let d := Vec4 (v3x (direction l)) (v3y (direction l)) (v3z (direction l))
                  (S754_zero false) in
       let view := worldToView stats in
       finite4 c = true → finite4 (col3 view) = true →
       alike3
         (glm.to_vec3
            (glm.normalize
               (glm.mat4_mul_vec4 (Mat4 (col0 view) (col1 view) (col2 view) c) d)))
         (glm.to_vec3 (glm.normalize (glm.mat4_mul_vec4 view d))))
  ∧ (∀ (stats : OpenGLRenderBlock Binary32.float) (l : Light Binary32.float),
       let v :=
         glm.mat4_mul_vec4 (worldToView stats)
           (Vec4 (v3x (direction l)) (v3y (direction l)) (v3z (direction l))
                 (S754_zero false)) in
       normalizable v = true →
       finite3 (glm.to_vec3 (glm.normalize v)) = true
       ∧ (Rabs (exact_length3 (glm.to_vec3 (glm.normalize v)) - 1)
          <= / 1048576)%R).
Proof.
  split; [|split].
  - intros F HS HT L fuel w data step b e k l Hok Hl Hk.
    exact (direction_member L fuel w data step b e k l Hok Hl Hk).
  - intros stats c l d view Hc Hm.
    destruct (direction_ignores_translation view c (direction l) Hc Hm)
      as (Hx & Hy & Hz & Hw).
    by apply normalize_alike.
  - intros stats l v Hv. exact (normalize_unit v Hv).
Qed.

(** The record of the example's light under identity matrices. *)
Lemma example_record (stats : OpenGLRenderBlock Binary32.float)
    (l : Light Binary32.float) :
  worldToView stats = glm.identity →
  worldToPersp stats = glm.identity →
  innerAngle l = Binary32.of_Z 10 →
  outerAngle l = Binary32.of_Z 30 →
  translation l = Vec3 (Binary32.of_Z 0) (Binary32.of_Z 0) (Binary32.of_Z (-5)) →
  ordinary_mat (toMatrix l) = true →
  m_diffAngle (translate_light stats l) = Binary32.of_Z 20
  ∧ m_viewTrans (translate_light stats l)
    = Vec3 (Binary32.of_Z 0) (Binary32.of_Z 0) (Binary32.of_Z (-5))
  ∧ m_perspTrans (translate_light stats l) = toMatrix l.
Proof.
  intros Hview Hpersp Hinner Houter Hpos Hmat.
  unfold translate_light.
  cbn [m_diffAngle m_viewTrans m_perspTrans].
  rewrite Hview, Hpersp, Hinner, Houter, Hpos. split; [|split].
  - reflexivity.
  - reflexivity.
  - destruct (toMatrix l) as [c0 c1 c2 c3] eqn:E.
    change (Karma.ToGlm_mat (Mat4 c0 c1 c2 c3)) with (Mat4 c0 c1 c2 c3).
    by apply identity_mul_mat.
Qed.

(** C5. For every light, the perspective member of its record is the
    world-to-perspective matrix times the light's local-to-world matrix,
    world-to-perspective on the left.  In particular, in binary32 and with
    identity view and perspective matrices, a light with inner angle 10,
    outer angle 30 and translation [(0, 0, -5)] gets angle delta 20,
    position [(0, 0, -5)] and its own local-to-world matrix as perspective
    transform; in exact arithmetic the last holds for every matrix. *)
Theorem perspective_is_persp_times_local :
  (∀ (F : Type) (HS : Scalar F) (HT : Stored F) (L : DataLayout) (fuel : nat)
     (w : World F) (data step : Z) (b e k : nat) (l : Light F),
     layout_ok L = true →
     w_lights w !! (b + k)%nat = Some l →
     (b + k < e)%nat →
     let persp :=
       bytes_of_mat4 (glm.mat4_mul (worldToPersp (w_stats w)) (toMatrix l)) in
     (∀ w', translateBuffer L fuel w data b e = Finished w' →
        load_bytes (w_dest w')
          (data + Z.of_nat k * sizeofDataType L + PerpectiveOffset L) 64
        = Some persp)
     ∧ (∀ w', translateUniforms L fuel w data step b e = Finished w' →
          sizeofDataType L ≤ Z.abs step →
          load_bytes (w_dest w')
            (data + Z.of_nat k * step + PerpectiveOffset L) 64 = Some persp)
     ∧ (∀ w', translateUniforms L fuel w data step b (S (b + k)) = Finished w' →
          load_bytes (w_dest w')
            (data + Z.of_nat k * step + PerpectiveOffset L) 64 = Some persp))
  ∧ (∀ (L : DataLayout) (fuel : nat) (w : World Binary32.float) (data step : Z)
       (b e k : nat) (l : Light Binary32.float),
       layout_ok L = true →
       w_lights w !! (b + k)%nat = Some l →
       (b + k < e)%nat →
       worldToView (w_stats w) = glm.identity →
       worldToPersp (w_stats w) = glm.identity →
       innerAngle l = Binary32.of_Z 10 →
       outerAngle l = Binary32.of_Z 30 →
       translation l
         = Vec3 (Binary32.of_Z 0) (Binary32.of_Z 0) (Binary32.of_Z (-5)) →
       ordinary_mat (toMatrix l) = true →
       (∀ w', translateBuffer L fuel w data b e = Finished w' →
          example_members L (w_dest w') (data + Z.of_nat k * sizeofDataType L) l)
       ∧ (∀ w', translateUniforms L fuel w data step b (S (b + k)) = Finished w' →
            example_members L (w_dest w') (data + Z.of_nat k * step) l))
  ∧ (∀ (stats : OpenGLRenderBlock R) (l : Light R),
       worldToView stats = glm.identity →
       worldToPersp stats = glm.identity →
       m_perspTrans (translate_light stats l) = toMatrix l
       ∧ m_viewTrans (translate_light stats l) = translation l).
Proof.
  split; [|split].
  - intros F HS HT L fuel w data step b e k l Hok Hl Hk.
    exact (perspective_member L fuel w data step b e k l Hok Hl Hk).
  - intros L fuel w data step b e k l Hok Hl Hk Hview Hpersp Hinner Houter
      Hpos Hmat.
    destruct (example_record (w_stats w) l Hview Hpersp Hinner Houter Hpos Hmat)
      as (Hdelta & Hposition & Hmatrix).
    assert (Hslot : ∀ m slot,
              record_at L m slot (translate_light (w_stats w) l) →
              example_members L m slot l).
    { intros m slot Hat. unfold example_members.
      rewrite <- Hdelta, <- Hposition, <- Hmatrix.
      split; [|split].
      - by apply record_at_diffAngle.
      - by apply record_at_viewTrans.
      - by apply record_at_perspTrans. }
    split; intros w' Hrun; apply Hslot.
    + by eapply translateBuffer_record_at.
    + by eapply translateUniforms_last_record_at.
  - intros stats l Hview Hpersp. unfold translate_light.
    cbn [m_perspTrans m_viewTrans]. rewrite Hview, Hpersp. split.
    + destruct (toMatrix l) as [c0 c1 c2 c3].
      change (Karma.ToGlm_mat (Mat4 c0 c1 c2 c3)) with (Mat4 c0 c1 c2 c3).
      apply real_identity_mul.
    + apply real_identity_point.
Qed.

(** ** The mesh *)

(** C8, as amended.  [initializeMesh] declares six per-instance vertex
    attributes, in this order: translation, direction, attenuation and
    diffuse with four [float] components at slots 1, 2, 4 and 5, specular
    with three at slot 6, and the perspective transform as four columns of
    four at slot 7, which therefore takes slots 7 to 10; every one with
    divisor 1, stride [sizeof(DataType)] and the offset of its member. *)
Theorem mesh_declares_six_instanced_attributes (L : DataLayout) (mesh : OpenGLMesh) :
  ∃ declared : list VertexAttrib,
    initializeMesh L mesh = mesh ++ declared
    ∧ length declared = 6%nat
    ∧ map va_location declared = [1; 2; 4; 5; 6; 7]
    ∧ map va_elements declared = [4; 4; 4; 4; 3; 4]
    ∧ map va_count declared = [1; 1; 1; 1; 1; 4]
    ∧ map va_slots declared = [[1]; [2]; [4]; [5]; [6]; [7; 8; 9; 10]]
    ∧ map va_offset declared
      = [TranslationOffset L; DirectionOffset L; AttenuationOffset L;
         DiffuseOffset L; SpecularOffset L; PerpectiveOffset L]
    ∧ Forall (λ a, va_divisor a = 1 ∧ va_type a = Float
                   ∧ va_normalized a = false
                   ∧ va_stride a = sizeofDataType L) declared.
Proof.
  eexists. split.
  - unfold initializeMesh, vertexAttribPointerDivisor, vertexAttribPointerDivisor_n.
    rewrite <- !(assoc_L (++)). simpl. reflexivity.
  - repeat split; try reflexivity.
    repeat constructor.
Qed.

(** The count of five does not hold: on an empty mesh six declarations are
    made. *)
Lemma mesh_attributes_are_not_five :
  length (initializeMesh Sample.packed []) ≠ 5%nat.
Proof. vm_compute. discriminate. Qed.

(** ** Directions that do not come out at length 1 *)

(** Unit length does not hold for every light.  [Sample.distant] has the
    direction [(2^100, 0, 0)], of length [2^100]; the view matrix is the
    identity.  The squared length overflows to infinity, its inverse square
    root is 0, and the direction member of the record is the zero vector:
    the run finishes, the member holds twelve zero bytes, and its length,
    0, is not within 1/2 of 1. *)
Lemma distant_direction_is_not_unit :
  ∃ w',
    translateBuffer Sample.packed 1 Sample.distant_scene 0 0 1 = Finished w'
    ∧ Binary32.value (v3x (direction Sample.distant)) = powerRZ 2 100
    ∧ load_bytes (w_dest w') (0 + DirectionOffset Sample.packed) 12
      = Some (repeat x00 12)
    ∧ m_direction (translate_light Sample.still Sample.distant)
      = Vec3 (S754_zero false) (S754_zero false) (S754_zero false)
    ∧ exact_length3 (m_direction (translate_light Sample.still Sample.distant))
      = 0%R
    ∧ Binary32.within (Binary32.of_scaled 1 (-1))
        (glm.length3 (m_direction (translate_light Sample.still Sample.distant)))
        fone = false.
Proof.
  eexists. split; [vm_compute; reflexivity|].
  split.
  { change (v3x (direction Sample.distant)) with (S754_finite false 8388608 77).
    cbn [Binary32.value Binary32.sign_of].
    change 100 with (23 + 77). rewrite pow2_add, <- (IZR_pow2 23) by lia.
    change (2 ^ 23) with 8388608. lra. }
  split; [vm_compute; reflexivity|].
  assert (E : m_direction (translate_light Sample.still Sample.distant)
              = Vec3 (S754_zero false) (S754_zero false) (S754_zero false))
    by (vm_compute; reflexivity).
  split; [exact E|]. rewrite E. split; [|vm_compute; reflexivity].
  unfold exact_length3. cbn [v3x v3y v3z Binary32.value].
  rewrite !Rmult_0_l, !Rplus_0_l. apply sqrt_0.
Qed.

(** Nor does it hold under a view matrix that is not affine.  With the
    bottom row [(1, 0, 0, 1)] the direction [(1, 0, 0)] is sent to
    [(1, 0, 0, 1)], whose [w] takes part in the normalization: the
    direction member comes out as [(0.7071, 0, 0)]. *)
Example skewed_direction_is_not_unit :
  m_direction (translate_light Sample.skewed (Sample.aimed 1 0 0))
  = Vec3 (S754_finite false 11863283 (-24)) (S754_zero false) (S754_zero false)
  ∧ Binary32.within (Binary32.of_scaled 1 (-2))
      (glm.length3 (m_direction (translate_light Sample.skewed (Sample.aimed 1 0 0))))
      fone = false.
Proof. vm_compute. done. Qed.

(** A direction of length zero is not guarded either: every component of
    the direction member is a NaN. *)
Example zero_direction_gives_nans :
  m_direction (translate_light Sample.still Sample.aimless)
  = Vec3 S754_nan S754_nan S754_nan.
Proof. vm_compute. reflexivity. Qed.

(** In exact arithmetic [Sample.real_lamp], pointing along [(3, 0, 4)],
    gets a direction of length exactly 1. *)
Example real_lamp_direction_is_unit :
  glm.length3 (m_direction (translate_light Sample.still Sample.real_lamp)) = 1%R.
Proof.
  unfold translate_light. cbn [m_direction].
  apply real_normalize_unit.
  - unfold glm.mat4_mul_vec4, glm.vec4_add, glm.vec4_mul, glm.splat,
      Karma.ToGlm_w, Sample.still, glm.identity, Sample.real_lamp.
    cbn [v3x v3y v3z v4x v4y v4z v4w col0 col1 col2 col3 worldToView direction
         fadd fsub fmul fdiv fsqrt fone fzero real_scalar].
    lra.
  - unfold glm.dot, glm.mat4_mul_vec4, glm.vec4_add, glm.vec4_mul, glm.splat,
      Karma.ToGlm_w, Sample.still, glm.identity, Sample.real_lamp.
    cbn [v3x v3y v3z v4x v4y v4z v4w col0 col1 col2 col3 worldToView direction
         fadd fsub fmul fdiv fsqrt fone fzero real_scalar].
    lra.
Qed.

(** In binary32 the direction of [Sample.lantern], [(1, 2, 2)], seen by a
    camera moved off the origin, comes out with length 1 to within
    [2^-23]. *)
Example lantern_direction_is_unit :
  Binary32.within (Binary32.of_scaled 1 (-23))
    (glm.length3 (m_direction (translate_light Sample.shifted Sample.lantern)))
    fone = true.
Proof. vm_compute. reflexivity. Qed.

(** So does every one of the 728 small integer directions, to within
    [2^-24]; not all of them come out at exactly 1. *)
Example small_directions_are_unit :
  forallb (Sample.unit_within (Binary32.of_scaled 1 (-24)) Sample.shifted)
    Sample.small_directions = true
  ∧ length Sample.small_directions = 728%nat
  ∧ forallb (Sample.unit_within (S754_zero false) Sample.shifted)
      Sample.small_directions = false.
Proof. vm_compute. done. Qed.

(** ** The byte image of binary32 values *)

Example binary32_images :
  Binary32.bits (Binary32.of_Z 1) = 1065353216
  ∧ Binary32.bits (Binary32.of_Z (-5)) = 3231711232
  ∧ Binary32.bits (Binary32.of_Z 20) = 1101004800
  ∧ Binary32.bits (Binary32.of_scaled 1 (-149)) = 1
  ∧ Binary32.bits (Binary32.of_scaled 1 (-126)) = 8388608
  ∧ Binary32.bits (Binary32.of_scaled 1 200) = 2139095040
  ∧ bytes_of_float (Binary32.of_Z 1) = [x00; x00; x80; x3f].
Proof. vm_compute. done. Qed.

(** ** The statements at work on the sample scene *)

Lemma sample_room (stride : Z) :
  0 ≤ stride ≤ 144 →
  has_room Sample.packed (w_dest Sample.scene) 0 stride 2.
Proof.
  intros Hstride k Hk.
  change (Z.of_nat (length (w_dest Sample.scene))) with 288.
  change (sizeofDataType Sample.packed) with 144.
  destruct k as [|[|k]]; [simpl; lia | rewrite Z.mul_1_l; lia | lia].
Defined.

Lemma one_record_per_light_witness :
  layout_ok Sample.packed = true
  ∧ (0 ≤ 2 ≤ length (w_lights Sample.scene))%nat
  ∧ (∃ w', translateBuffer Sample.packed 2 Sample.scene 0 0 2 = Finished w'
       ∧ record_at Sample.packed (w_dest w') 0
           (translate_light Sample.still Sample.lamp)
       ∧ record_at Sample.packed (w_dest w') 144
           (translate_light Sample.still Sample.lantern))
  ∧ (∃ w', translateUniforms Sample.packed 2 Sample.scene 0 144 0 2 = Finished w').
Proof.
  assert (Hok : layout_ok Sample.packed = true) by reflexivity.
  assert (Hrange : (0 ≤ 2 ≤ length (w_lights Sample.scene))%nat) by (simpl; lia).
  destruct (one_record_per_light Sample.packed 2 Sample.scene 0 144 0 2
              Hok Hrange (le_n 2%nat)) as [(_ & _ & HB) (_ & _ & HU)].
  split; [exact Hok|]. split; [exact Hrange|]. split.
  - destruct (HB (sample_room 144 ltac:(lia))) as (w' & Hrun & Hslots & _).
    exists w'. split; [exact Hrun|]. split.
    + exact (Hslots 0%nat Sample.lamp (Nat.lt_0_succ 1) eq_refl).
    + exact (Hslots 1%nat Sample.lantern (Nat.lt_succ_diag_r 1) eq_refl).
  - destruct (HU (sample_room 144 ltac:(lia))) as (w' & Hrun & _).
    exists w'. exact Hrun.
Defined.

Lemma wide_room (stride : Z) :
  0 ≤ stride ≤ 176 →
  has_room Sample.packed (w_dest Sample.wide_scene) 0 stride 2.
Proof.
  intros Hstride k Hk.
  change (Z.of_nat (length (w_dest Sample.wide_scene))) with 320.
  change (sizeofDataType Sample.packed) with 144.
  destruct k as [|[|k]]; [simpl; lia | rewrite Z.mul_1_l; lia | lia].
Defined.

Lemma angle_delta_witness :
  layout_ok Sample.packed = true
  ∧ w_lights Sample.scene !! 1%nat = Some Sample.lantern
  ∧ (∃ w', translateBuffer Sample.packed 2 Sample.scene 0 0 2 = Finished w'
       ∧ load_bytes (w_dest w') (144 + 8) 4
         = Some (bytes_of_float (Binary32.of_Z 10)))
  ∧ (∃ w', translateUniforms Sample.packed 2 Sample.scene 0 144 0 2 = Finished w'
       ∧ load_bytes (w_dest w') (144 + 8) 4
         = Some (bytes_of_float (Binary32.of_Z 10)))
  ∧ (∃ w', translateUniforms Sample.packed 2 Sample.scene 0 100 0 2 = Finished w'
       ∧ load_bytes (w_dest w') (100 + 8) 4
         = Some (bytes_of_float (Binary32.of_Z 10))).
Proof.
  assert (Hlen : (2 ≤ length (w_lights Sample.scene))%nat) by (simpl; lia).
  destruct (angle_delta_is_outer_minus_inner Sample.packed 2 Sample.scene
              0 144 0 2 1 Sample.lantern eq_refl eq_refl (le_n 2%nat))
    as (HB & HU & _).
  destruct (angle_delta_is_outer_minus_inner Sample.packed 2 Sample.scene
              0 100 0 2 1 Sample.lantern eq_refl eq_refl (le_n 2%nat))
    as (_ & _ & HL & _).
  split; [reflexivity|]. split; [reflexivity|]. split; [|split].
  - exact (HB Hlen (le_n 2%nat) (sample_room 144 ltac:(lia))).
  - exact (HU Hlen (le_n 2%nat) (sample_room 144 ltac:(lia)) ltac:(simpl; lia)).
  - exact (HL (le_n 2%nat) (sample_room 100 ltac:(lia))).
Defined.

Lemma position_witness :
  layout_ok Sample.packed = true
  ∧ w_lights Sample.shifted_scene !! 1%nat = Some Sample.lantern
  ∧ (∃ w', translateBuffer Sample.packed 2 Sample.shifted_scene 0 0 2 = Finished w'
       ∧ load_bytes (w_dest w') (144 + 68) 12
         = Some (bytes_of_vec3
                   (Vec3 (Binary32.of_Z 4) (Binary32.of_Z 2) (Binary32.of_Z 7))))
  ∧ (∃ w', translateUniforms Sample.packed 2 Sample.shifted_scene 0 144 0 2 = Finished w'
       ∧ load_bytes (w_dest w') (144 + 68) 12
         = Some (bytes_of_vec3
                   (Vec3 (Binary32.of_Z 4) (Binary32.of_Z 2) (Binary32.of_Z 7))))
  ∧ (∃ w', translateUniforms Sample.packed 2 Sample.shifted_scene 0 100 0 2 = Finished w'
       ∧ load_bytes (w_dest w') (100 + 68) 12
         = Some (bytes_of_vec3
                   (Vec3 (Binary32.of_Z 4) (Binary32.of_Z 2) (Binary32.of_Z 7)))).
Proof.
  assert (Hlen : (2 ≤ length (w_lights Sample.shifted_scene))%nat) by (simpl; lia).
  destruct (position_is_view_of_translation Sample.packed 2 Sample.shifted_scene
              0 144 0 2 1 Sample.lantern eq_refl eq_refl (le_n 2%nat))
    as (HB & HU & _).
  destruct (position_is_view_of_translation Sample.packed 2 Sample.shifted_scene
              0 100 0 2 1 Sample.lantern eq_refl eq_refl (le_n 2%nat))
    as (_ & _ & HL & _).
  split; [reflexivity|]. split; [reflexivity|]. split; [|split].
  - exact (HB Hlen (le_n 2%nat) (sample_room 144 ltac:(lia))).
  - exact (HU Hlen (le_n 2%nat) (sample_room 144 ltac:(lia)) ltac:(simpl; lia)).
  - exact (HL (le_n 2%nat) (sample_room 100 ltac:(lia))).
Defined.

Lemma record_starts_witness :
  (0 ≤ 2 ≤ length (w_lights Sample.wide_scene))%nat
  ∧ (∃ w', translateUniforms Sample.packed 2 Sample.wide_scene 0 160 0 2 = Finished w'
       ∧ record_at Sample.packed (w_dest w') 0
           (translate_light Sample.still Sample.lamp)
       ∧ record_at Sample.packed (w_dest w') 160
           (translate_light Sample.still Sample.lantern)
       ∧ load_bytes (w_dest w') (160 + 8) 4
         = Some (bytes_of_float (Binary32.of_Z 10)))
  ∧ (∃ w', translateUniforms Sample.packed 2 Sample.wide_scene 0 100 0 2 = Finished w'
       ∧ record_at Sample.packed (w_dest w') 100
           (translate_light Sample.still Sample.lantern))
  ∧ (∃ w', translateBuffer Sample.packed 2 Sample.wide_scene 0 0 2 = Finished w'
       ∧ record_at Sample.packed (w_dest w') 144
           (translate_light Sample.still Sample.lantern)).
Proof.
  assert (Hok : layout_ok Sample.packed = true) by reflexivity.
  assert (Hrange : (0 ≤ 2 ≤ length (w_lights Sample.wide_scene))%nat) by (simpl; lia).
  destruct (record_starts_differ_by_stride Sample.packed 2 Sample.wide_scene
              0 160 0 2 Hrange (le_n 2%nat))
    as [(_ & _ & _ & _ & _ & HU) (_ & _ & _ & HB)].
  destruct (record_starts_differ_by_stride Sample.packed 2 Sample.wide_scene
              0 100 0 2 Hrange (le_n 2%nat))
    as [(_ & _ & _ & _ & HL & _) _].
  split; [exact Hrange|]. split; [|split].
  - destruct (HU Hok (wide_room 160 ltac:(lia)) ltac:(simpl; lia)) as (w' & Hrun & Hat).
    exists w'. split; [exact Hrun|].
    pose proof (Hat 0%nat Sample.lamp (Nat.lt_0_succ 1) eq_refl) as H0.
    pose proof (Hat 1%nat Sample.lantern (Nat.lt_succ_diag_r 1) eq_refl) as H1.
    split; [exact H0|]. split; [exact H1|].
    exact (record_at_diffAngle Sample.packed _ _ _ H1).
  - exact (HL 1%nat Sample.lantern Hok (Nat.lt_succ_diag_r 1) eq_refl
             (wide_room 100 ltac:(lia))).
  - destruct (HB Hok (wide_room 144 ltac:(lia))) as (w' & Hrun & Hat).
    exists w'. split; [exact Hrun|].
    exact (Hat 1%nat Sample.lantern (Nat.lt_succ_diag_r 1) eq_refl).
Defined.

Lemma translation_terminates_witness :
  layout_ok Sample.packed = true
  ∧ (0 ≤ 2 ≤ length (w_lights Sample.scene))%nat
  ∧ translateBuffer Sample.packed 7 Sample.scene 0 0 2
    = translateBuffer Sample.packed 2 Sample.scene 0 0 2
  ∧ (∃ w', translateBuffer Sample.packed 7 Sample.scene 0 0 2 = Finished w')
  ∧ (∃ w', translateUniforms Sample.packed 7 Sample.scene 0 144 0 2 = Finished w').
Proof.
  assert (Hok : layout_ok Sample.packed = true) by reflexivity.
  assert (Hrange : (0 ≤ 2 ≤ length (w_lights Sample.scene))%nat) by (simpl; lia).
  destruct (translation_terminates Sample.packed 7 Sample.scene 0 144 0 2
              Hok Hrange ltac:(simpl; lia))
    as [(Hsame & _ & HB & _) (_ & _ & HU & _)].
  split; [exact Hok|]. split; [exact Hrange|]. split; [exact Hsame|]. split.
  - exact (proj1 (HB (sample_room 144 ltac:(lia)))).
  - exact (proj1 (HU (sample_room 144 ltac:(lia)))).
Defined.

Lemma direction_witness :
  (∃ w', translateBuffer Sample.packed 2 Sample.shifted_scene 0 0 2 = Finished w'
     ∧ load_bytes (w_dest w') (144 + 44) 12
       = Some (bytes_of_vec3
                 (Vec3 (S754_finite false 11184811 (-25))
                       (S754_finite false 11184811 (-24))
                       (S754_finite false 11184811 (-24)))))
  ∧ (∃ w', translateUniforms Sample.packed 2 Sample.shifted_scene 0 144 0 2 = Finished w'
       ∧ load_bytes (w_dest w') (144 + 44) 12
         = Some (bytes_of_vec3
                   (Vec3 (S754_finite false 11184811 (-25))
                         (S754_finite false 11184811 (-24))
                         (S754_finite false 11184811 (-24)))))
  ∧ normalizable
      (glm.mat4_mul_vec4 (worldToView Sample.shifted)
         (Vec4 (Sample.f32 1) (Sample.f32 2) (Sample.f32 2) (S754_zero false))) = true
  ∧ (Rabs (exact_length3 (m_direction (translate_light Sample.shifted Sample.lantern)) - 1)
     <= / 1048576)%R
  ∧ (Rabs (exact_length3 (m_direction (translate_light Sample.still Sample.lamp)) - 1)
     <= / 1048576)%R
  ∧ finite4 (Vec4 (Sample.f32 5) (Sample.f32 6) (Sample.f32 7) (Sample.f32 1)) = true
  ∧ alike3
      (m_direction
         (translate_light
            {| worldToView :=
                 Mat4 (col0 (worldToView Sample.shifted)) (col1 (worldToView Sample.shifted))
                      (col2 (worldToView Sample.shifted))
                      (Vec4 (Sample.f32 5) (Sample.f32 6) (Sample.f32 7) (Sample.f32 1));
               worldToPersp := worldToPersp Sample.shifted |} Sample.lantern))
      (m_direction (translate_light Sample.shifted Sample.lantern)).
Proof.
  destruct direction_is_normalized_view_direction as (Hmember & Hcolumn & Hunit).
  assert (Hlen : (2 ≤ length (w_lights Sample.shifted_scene))%nat) by (simpl; lia).
  destruct (Hmember _ _ _ Sample.packed 2%nat Sample.shifted_scene 0 144 0%nat 2%nat
              1%nat Sample.lantern eq_refl eq_refl (le_n 2%nat))
    as (HB & HU & _).
  split; [|split; [|split; [|split; [|split; [|split]]]]].
  - exact (HB Hlen (le_n 2%nat) (sample_room 144 ltac:(lia))).
  - exact (HU Hlen (le_n 2%nat) (sample_room 144 ltac:(lia)) ltac:(simpl; lia)).
  - reflexivity.
  - exact (proj2 (Hunit Sample.shifted Sample.lantern eq_refl)).
  - exact (proj2 (Hunit Sample.still Sample.lamp eq_refl)).
  - reflexivity.
  - exact (Hcolumn Sample.shifted
             (Vec4 (Sample.f32 5) (Sample.f32 6) (Sample.f32 7) (Sample.f32 1))
             Sample.lantern eq_refl eq_refl).
Defined.

Lemma perspective_witness :
  (∃ w', translateUniforms Sample.packed 2 Sample.shifted_scene 0 144 0 2 = Finished w'
     ∧ load_bytes (w_dest w') (144 + 80) 64
       = Some (bytes_of_mat4
                 (Sample.translate_matrix (Binary32.of_Z 4) (Binary32.of_Z 2)
                    (Binary32.of_Z 7))))
  ∧ (∃ w', translateBuffer Sample.packed 2 Sample.scene 0 0 2 = Finished w'
       ∧ example_members Sample.packed (w_dest w') 0 Sample.lamp).
Proof.
  split.
  - destruct (translateUniforms Sample.packed 2 Sample.shifted_scene 0 144 0 2)
      as [w'| |] eqn:Hrun; [|vm_compute in Hrun; discriminate..].
    exists w'. split; [reflexivity|].
    exact (proj1 (proj2 (proj1 perspective_is_persp_times_local _ _ _
                           Sample.packed 2%nat Sample.shifted_scene 0 144 0%nat
                           2%nat 1%nat Sample.lantern eq_refl eq_refl (le_n 2%nat)))
             w' Hrun ltac:(simpl; lia)).
  - destruct (translateBuffer Sample.packed 2 Sample.scene 0 0 2)
      as [w'| |] eqn:Hrun; [|vm_compute in Hrun; discriminate..].
    exists w'. split; [reflexivity|].
    exact (proj1 (proj1 (proj2 perspective_is_persp_times_local) Sample.packed 2%nat
                    Sample.scene 0 144 0%nat 2%nat 0%nat Sample.lamp eq_refl eq_refl
                    (Nat.lt_0_succ 1) eq_refl eq_refl eq_refl eq_refl eq_refl eq_refl)
             w' Hrun).
Defined.

Lemma empty_range_witness :
  translateBuffer Sample.packed 0 Sample.scene 0 1 1 = Finished Sample.scene
  ∧ translateUniforms Sample.packed 0 Sample.scene 0 64 1 1 = Finished Sample.scene.
Proof.
  destruct (empty_range_writes_nothing Sample.packed 0 Sample.scene 0 64 1)
    as (HB & HU & _).
  split; [exact HB|exact HU].
Defined.

(** ** Further properties *)

Section Further.
Context {F : Type} `{Scalar F} `{Stored F}.
Implicit Types (L : DataLayout) (w : World F).

Lemma record_at_copied L (m : Mem) slot (stats : OpenGLRenderBlock F) (l : Light F) :
  record_at L m slot (translate_light stats l) → copied_members L m slot l.
Proof.
  intros Hat. unfold copied_members.
  destruct l as [inner outer [ax ay az] dep [dr dg db da] [sx sy sz] dir tr mat].
  cbn [innerAngle outerAngle attenuation depth diffuse specular v3x v3y v3z].
  split; [|split; [|split; [|split]]].
  - rewrite <- (bytes_of_float_length inner).
    apply (record_at_field L _ _ _ _ _ Hat). unfold field_images. find_member.
  - rewrite <- (bytes_of_float_length outer).
    apply (record_at_field L _ _ _ _ _ Hat). unfold field_images. find_member.
  - rewrite <- (bytes_of_vec4_length (Vec4 ax ay az dep)).
    apply (record_at_field L _ _ _ _ _ Hat). unfold field_images. find_member.
  - rewrite <- (bytes_of_vec4_length (Vec4 dr dg db da)).
    apply (record_at_field L _ _ _ _ _ Hat). unfold field_images. find_member.
  - rewrite <- (bytes_of_vec3_length (Vec3 sx sy sz)).
    apply (record_at_field L _ _ _ _ _ Hat). unfold field_images. find_member.
Qed.

(** X1. For every light, the inner-angle, outer-angle, attenuation, diffuse
    and specular members of its record hold the light's own values, the
    attenuation with the depth as its fourth component: with room in the
    destination the run finishes and the members read back so, after either
    function, as they do after every finished run. *)
Theorem copied_members_hold L (fuel : nat) w (data step : Z) (b e k : nat)
    (l : Light F) :
  layout_ok L = true →
  w_lights w !! (b + k)%nat = Some l →
  (b + k < e)%nat →
  ((e ≤ length (w_lights w))%nat → (e - b ≤ fuel)%nat →
   has_room L (w_dest w) data (sizeofDataType L) (e - b) →
   ∃ w', translateBuffer L fuel w data b e = Finished w'
     ∧ copied_members L (w_dest w') (data + Z.of_nat k * sizeofDataType L) l)
  ∧ ((e ≤ length (w_lights w))%nat → (e - b ≤ fuel)%nat →
     has_room L (w_dest w) data step (e - b) → sizeofDataType L ≤ Z.abs step →
     ∃ w', translateUniforms L fuel w data step b e = Finished w'
       ∧ copied_members L (w_dest w') (data + Z.of_nat k * step) l)
  ∧ ((S k ≤ fuel)%nat → has_room L (w_dest w) data step (S k) →
     ∃ w', translateUniforms L fuel w data step b (S (b + k)) = Finished w'
       ∧ copied_members L (w_dest w') (data + Z.of_nat k * step) l)
  ∧ (∀ w', translateBuffer L fuel w data b e = Finished w' →
       copied_members L (w_dest w') (data + Z.of_nat k * sizeofDataType L) l)
  ∧ (∀ w', translateUniforms L fuel w data step b e = Finished w' →
       sizeofDataType L ≤ Z.abs step →
       copied_members L (w_dest w') (data + Z.of_nat k * step) l)
  ∧ (∀ w', translateUniforms L fuel w data step b (S (b + k)) = Finished w' →
       copied_members L (w_dest w') (data + Z.of_nat k * step) l).
Proof.
  intros Hok Hl Hk.
  exact (after_the_runs (λ m slot, copied_members L m slot l)
           L fuel w data step b e k l Hok Hl Hk
           (λ m slot, record_at_copied L m slot (w_stats w) l)).
Qed.

(** X2. [translateUniforms] touches only the records: a byte of the
    destination that lies in none of the [end - begin] record extents, such
    as the padding a stride larger than the record leaves between
    elements, keeps its value. *)
Theorem uniforms_leave_padding L (fuel : nat) w (data step : Z) (b e : nat)
    (w' : World F) (i : nat) :
  layout_ok L = true →
  translateUniforms L fuel w data step b e = Finished w' →
  (∀ k : nat, (k < e - b)%nat →
     Z.of_nat i < data + Z.of_nat k * step
     ∨ data + Z.of_nat k * step + sizeofDataType L ≤ Z.of_nat i) →
  w_dest w' !! i = w_dest w !! i.
Proof.
  intros Hok ((Hbe & Hrange & _) & Hreplay & _)%translateUniforms_Finished Hclear.
  eapply replay_frame; [done|exact Hreplay|].
  apply (record_writes_dest (w_stats w) data step (range (w_lights w) b e)
           (λ d, Z.of_nat i < d ∨ d + sizeofDataType L ≤ Z.of_nat i)).
  intros k Hk. apply Hclear.
  destruct (decide (b = e)) as [->|Hne].
  - rewrite range_nil in Hk. simpl in Hk. lia.
  - rewrite range_length in Hk by (apply Hrange; lia). done.
Qed.

End Further.

Lemma copied_members_witness :
  layout_ok Sample.packed = true
  ∧ w_lights Sample.scene !! 1%nat = Some Sample.lantern
  ∧ (∃ w', translateBuffer Sample.packed 2 Sample.scene 0 0 2 = Finished w'
       ∧ copied_members Sample.packed (w_dest w') 144 Sample.lantern)
  ∧ (∃ w', translateUniforms Sample.packed 2 Sample.scene 0 144 0 2 = Finished w'
       ∧ copied_members Sample.packed (w_dest w') 144 Sample.lantern)
  ∧ (∃ w', translateUniforms Sample.packed 2 Sample.scene 0 100 0 2 = Finished w'
       ∧ copied_members Sample.packed (w_dest w') 100 Sample.lantern).
Proof.
  assert (Hlen : (2 ≤ length (w_lights Sample.scene))%nat) by (simpl; lia).
  destruct (copied_members_hold Sample.packed 2 Sample.scene
              0 144 0 2 1 Sample.lantern eq_refl eq_refl (le_n 2%nat))
    as (HB & HU & _).
  destruct (copied_members_hold Sample.packed 2 Sample.scene
              0 100 0 2 1 Sample.lantern eq_refl eq_refl (le_n 2%nat))
    as (_ & _ & HL & _).
  split; [reflexivity|]. split; [reflexivity|]. split; [|split].
  - exact (HB Hlen (le_n 2%nat) (sample_room 144 ltac:(lia))).
  - exact (HU Hlen (le_n 2%nat) (sample_room 144 ltac:(lia)) ltac:(simpl; lia)).
  - exact (HL (le_n 2%nat) (sample_room 100 ltac:(lia))).
Defined.

Lemma uniforms_leave_padding_witness :
  layout_ok Sample.packed = true
  ∧ ∃ w', translateUniforms Sample.packed 1 Sample.scene 0 200 0 1 = Finished w'
      ∧ w_dest w' !! 150%nat = Some x00.
Proof.
  split; [reflexivity|].
  destruct (translateUniforms Sample.packed 1 Sample.scene 0 200 0 1)
    as [w'| |] eqn:Hrun; [|vm_compute in Hrun; discriminate..].
  exists w'. split; [reflexivity|].
  rewrite (uniforms_leave_padding Sample.packed 1 Sample.scene 0 200 0 1 w' 150
             eq_refl Hrun).
  - reflexivity.
  - intros k Hk. right. destruct k as [|k]; [simpl; lia|lia].
Defined.

(** ** Sequences of stores *)

Section StoreFacts.
Implicit Types (m : Mem) (ss : list Store) (i : nat).

Lemma extent_covers_spec i (e : Z * Z) :
  extent_covers i e = true ↔ e.1 ≤ Z.of_nat i < e.1 + e.2.
Proof.
  unfold extent_covers. rewrite andb_true_iff, Z.leb_le, Z.ltb_lt. done.
Qed.

Lemma extent_in_buffer_spec (len : nat) (e : Z * Z) :
  extent_in_buffer len e = true ↔ 0 ≤ e.1 ∧ e.1 + e.2 ≤ Z.of_nat len.
Proof.
  unfold extent_in_buffer. rewrite andb_true_iff, !Z.leb_le. done.
Qed.

(** The bytes after one store. *)
Lemma store_bytes_lookup m addr bs m' i :
  store_bytes m addr bs = Some m' →
  m' !! i = if extent_covers i (addr, Z.of_nat (length bs))
            then bs !! Z.to_nat (Z.of_nat i - addr)
            else m !! i.
Proof.
  intros Hst. pose proof Hst as [[Hlo Hhi] ->]%store_bytes_Some.
  destruct (extent_covers i (addr, Z.of_nat (length bs))) eqn:Hc.
  - apply extent_covers_spec in Hc. simpl in Hc.
    etrans; [apply list_lookup_inserts; lia|]. f_equal. lia.
  - assert (¬ (addr ≤ Z.of_nat i < addr + Z.of_nat (length bs))) as Hn.
    { intros Hin. apply (extent_covers_spec i (addr, Z.of_nat (length bs))) in Hin.
      congruence. }
    destruct (decide (Z.of_nat i < addr)).
    + apply list_lookup_inserts_lt. lia.
    + apply list_lookup_inserts_ge. lia.
Qed.

Lemma store_all_app m ss1 ss2 :
  store_all m (ss1 ++ ss2) = store_all m ss1 ≫= λ m1, store_all m1 ss2.
Proof.
  revert m. induction ss1 as [|[a bs] ss1 IH]; intros m; simpl; [done|].
  destruct (store_bytes m a bs); simpl; [apply IH|done].
Qed.

Lemma store_all_length m ss m' :
  store_all m ss = Some m' → length m' = length m.
Proof.
  revert m. induction ss as [|[a bs] ss IH]; intros m; simpl.
  - by intros [= <-].
  - destruct (store_bytes m a bs) as [m1|] eqn:E; [|done].
    intros Hrest. rewrite (IH _ Hrest). by eapply store_bytes_length.
Qed.

(** A sequence of stores is defined exactly when each store lies inside
    the buffer. *)
Lemma store_all_defined m ss :
  is_Some (store_all m ss)
  ↔ Forall (λ s : Store, extent_in_buffer (length m) (image_extent s) = true) ss.
Proof.
  revert m. induction ss as [|[a bs] ss IH]; intros m; simpl.
  - split; [constructor|eauto].
  - rewrite Forall_cons, extent_in_buffer_spec. simpl. split.
    + destruct (store_bytes m a bs) as [m1|] eqn:E; [|by intros [? ?]].
      intros Hrest. pose proof E as [Hin _]%store_bytes_Some.
      split; [done|]. apply IH in Hrest.
      by rewrite (store_bytes_length _ _ _ _ E) in Hrest.
    + intros [[Hlo Hhi] Hrest].
      destruct (store_bytes_fits m a bs Hlo Hhi) as [m1 E]. rewrite E.
      apply IH. by rewrite (store_bytes_length _ _ _ _ E).
Qed.

(** Every byte after a sequence of stores: the last one stored there, or
    the byte that was there before. *)
Lemma store_all_lookup m ss m' i :
  store_all m ss = Some m' →
  m' !! i = match last_written ss i with
            | Some b => Some b
            | None => m !! i
            end.
Proof.
  revert m. induction ss as [|[a bs] ss IH]; intros m; simpl.
  - by intros [= <-].
  - destruct (store_bytes m a bs) as [m1|] eqn:E; [|done].
    intros Hrest. rewrite (IH _ Hrest).
    destruct (last_written ss i); [done|].
    rewrite (store_bytes_lookup _ _ _ _ i E).
    unfold image_extent. simpl.
    destruct (extent_covers i (a, Z.of_nat (length bs))) eqn:Hc; [|done].
    apply extent_covers_spec in Hc. simpl in Hc.
    destruct (lookup_lt_is_Some_2 bs (Z.to_nat (Z.of_nat i - a)) ltac:(lia))
      as [x ->].
    done.
Qed.

Lemma last_written_None ss i :
  last_written ss i = None
  ↔ Forall (λ s : Store, extent_covers i (image_extent s) = false) ss.
Proof.
  induction ss as [|[a bs] ss IH]; simpl.
  - split; [constructor|done].
  - rewrite Forall_cons, <- IH. unfold image_extent. simpl.
    destruct (last_written ss i); [split; [done|by intros [_ ?]]|].
    destruct (extent_covers i (a, Z.of_nat (length bs))) eqn:Hc.
    + apply extent_covers_spec in Hc. simpl in Hc.
      destruct (lookup_lt_is_Some_2 bs (Z.to_nat (Z.of_nat i - a)) ltac:(lia))
        as [x ->].
      split; [done|by intros [? _]].
    + done.
Qed.

(** Storing the same sequence again changes nothing. *)
Lemma store_all_again m ss m' :
  store_all m ss = Some m' → store_all m' ss = Some m'.
Proof.
  intros Hst.
  assert (is_Some (store_all m' ss)) as [m'' Hagain].
  { apply store_all_defined. rewrite (store_all_length _ _ _ Hst).
    apply store_all_defined. eauto. }
  rewrite Hagain. f_equal. apply list_eq. intros i.
  etrans; [exact (store_all_lookup _ _ _ i Hagain)|].
  pose proof (store_all_lookup _ _ _ i Hst) as Hfirst.
  destruct (last_written ss i); [by symmetry|done].
Qed.

End StoreFacts.

Section RunStoreFacts.
Context {F : Type} `{Scalar F} `{Stored F}.
Variable L : DataLayout.
Implicit Types (m : Mem) (ws : list (Z * LightData F)).

Lemma store_fields_store_all m dest (fs : list FieldImage) :
  store_fields m dest fs
  = store_all m (map (λ f : FieldImage, (dest + f.1, f.2)) fs).
Proof.
  revert m. induction fs as [|[off bs] fs IH]; intros m; simpl; [done|].
  destruct (store_bytes m (dest + off) bs); [apply IH|done].
Qed.

(** A replay of record writes is the sequence of their member stores. *)
Lemma replay_store_all m ws : replay L m ws = store_all m (run_stores L ws).
Proof.
  revert m. induction ws as [|[dest r] ws IH]; intros m; [done|].
  cbn [replay run_stores].
  rewrite store_all_app. unfold write_record, record_stores.
  rewrite store_fields_store_all.
  destruct (store_all m _); simpl; [apply IH|done].
Qed.

Lemma record_stores_extents dest (r : LightData F) :
  map image_extent (record_stores L dest r)
  = map (λ e : Z * Z, (dest + e.1, e.2)) (field_extents L).
Proof.
  unfold record_stores. rewrite <- (field_images_extents L r).
  rewrite <- !list_fmap_compose. done.
Qed.

(** The extents of the stores of a run depend on the number of lights
    only. *)
Lemma run_stores_extents (stats : OpenGLRenderBlock F) data stride
    (ls : list (Light F)) :
  map image_extent (run_stores L (record_writes stats data stride ls))
  = run_extents L data stride (length ls).
Proof.
  revert data. induction ls as [|l ls IH]; intros data; [done|].
  cbn [record_writes run_stores run_extents length].
  rewrite map_app, record_stores_extents, IH. done.
Qed.

Lemma run_extents_Forall (P : Z * Z → Prop) data stride (n : nat) :
  Forall P (run_extents L data stride n)
  ↔ ∀ (k : nat) (ext : Z * Z), (k < n)%nat → ext ∈ field_extents L →
      P (data + Z.of_nat k * stride + ext.1, ext.2).
Proof.
  revert data. induction n as [|n IH]; intros data; cbn [run_extents].
  - split; [intros _ k ext Hk; lia|constructor].
  - rewrite Forall_app, Forall_fmap, IH, Forall_forall. split.
    + intros [Hfirst Hrest] k ext Hk Hext. destruct k as [|k].
      * replace (data + Z.of_nat 0 * stride + ext.1) with (data + ext.1) by lia.
        by apply Hfirst.
      * replace (data + Z.of_nat (S k) * stride + ext.1)
          with (data + stride + Z.of_nat k * stride + ext.1) by lia.
        apply Hrest; [lia|done].
    + intros Hall. split.
      * intros ext Hext. simpl.
        replace (data + ext.1) with (data + Z.of_nat 0 * stride + ext.1) by lia.
        apply Hall; [lia|done].
      * intros k ext Hk Hext.
        replace (data + stride + Z.of_nat k * stride + ext.1)
          with (data + Z.of_nat (S k) * stride + ext.1) by lia.
        apply Hall; [lia|done].
Qed.

Lemma Forall_image_extent (P : Z * Z → Prop) (ss : list Store) :
  Forall (λ s : Store, P (image_extent s)) ss ↔ Forall P (map image_extent ss).
Proof. by rewrite Forall_fmap. Qed.

(** The replay of a run is defined exactly when every member of every
    record lies inside the buffer. *)
Lemma replay_defined m (stats : OpenGLRenderBlock F) data stride
    (ls : list (Light F)) :
  is_Some (replay L m (record_writes stats data stride ls))
  ↔ members_in_buffer L (length m) data stride (length ls).
Proof.
  rewrite replay_store_all, store_all_defined.
  rewrite (Forall_image_extent (λ e, extent_in_buffer (length m) e = true)).
  rewrite run_stores_extents, run_extents_Forall.
  unfold members_in_buffer. split; intros Hall k ext Hk Hext.
  - specialize (Hall k ext Hk Hext). by apply extent_in_buffer_spec in Hall.
  - apply extent_in_buffer_spec. simpl. by apply Hall.
Qed.

(** No store of the run contains byte [i] exactly when [i] belongs to no
    member of a record. *)
Lemma run_never_written (stats : OpenGLRenderBlock F) data stride
    (ls : list (Light F)) (i : nat) :
  last_written (run_stores L (record_writes stats data stride ls)) i = None
  ↔ ¬ in_some_member L data stride (length ls) i.
Proof.
  rewrite last_written_None.
  rewrite (Forall_image_extent (λ e, extent_covers i e = false)).
  rewrite run_stores_extents, run_extents_Forall.
  unfold in_some_member. split.
  - intros Hall (k & ext & Hk & Hext & Hin).
    specialize (Hall k ext Hk Hext).
    apply (extent_covers_spec i (_, _)) in Hin. congruence.
  - intros Hnone k ext Hk Hext.
    destruct (extent_covers i _) eqn:Hc; [|done].
    apply extent_covers_spec in Hc. simpl in Hc.
    exfalso. apply Hnone. exists k, ext. done.
Qed.

End RunStoreFacts.

(** ** Runs in parts, repeated runs, and what a run needs and leaves *)

Section RunLaws.
Context {F : Type} `{Scalar F} `{Stored F}.
Implicit Types (L : DataLayout) (w : World F) (st : LoopState F).

Lemma range_app (lights : list (Light F)) (b mid e : nat) :
  (b ≤ mid ≤ e)%nat →
  range lights b e = range lights b mid ++ range lights mid e.
Proof.
  intros Hle. unfold range.
  replace (e - b)%nat with ((mid - b) + (e - mid))%nat by lia.
  rewrite <- take_take_drop, drop_drop.
  by replace (b + (mid - b))%nat with mid by lia.
Qed.

Lemma record_writes_app (stats : OpenGLRenderBlock F) data stride
    (ls1 ls2 : list (Light F)) :
  record_writes stats data stride (ls1 ++ ls2)
  = record_writes stats data stride ls1
      ++ record_writes stats (data + Z.of_nat (length ls1) * stride) stride ls2.
Proof.
  revert data. induction ls1 as [|l ls1 IH]; intros data; simpl.
  - f_equal. lia.
  - rewrite IH. do 3 f_equal. lia.
Qed.

Lemma replay_app L (m : Mem) (ws1 ws2 : list (Z * LightData F)) :
  replay L m (ws1 ++ ws2) = replay L m ws1 ≫= λ m1, replay L m1 ws2.
Proof.
  revert m. induction ws1 as [|[d r] ws1 IH]; intros m; simpl; [done|].
  destruct (write_record L m d r); simpl; [apply IH|done].
Qed.

Lemma finished_range_length L (lights : list (Light F)) (b e : nat) :
  (b ≤ e)%nat → (b < e → e ≤ length lights)%nat →
  length (range lights b e) = (e - b)%nat.
Proof.
  intros Hbe Hrange. destruct (decide (b = e)) as [->|Hne].
  - by rewrite range_nil, Nat.sub_diag.
  - apply range_length. apply Hrange. lia.
Qed.

(** X3. A translation can be done in two parts: over [[begin, mid)] and
    then over [[mid, end)] at the place the first part left off, that is
    [mid - begin] records (for [translateUniforms], strides) further into
    the destination.  If the first part is undefined so is the whole. *)
Theorem translation_in_two_parts L (fuel : nat) w (data step : Z)
    (b mid e : nat) :
  (b ≤ mid ≤ e)%nat →
  (e ≤ length (w_lights w))%nat →
  (e - b ≤ fuel)%nat →
  translateBuffer L fuel w data b e
  = match translateBuffer L fuel w data b mid with
    | Finished w1 =>
        translateBuffer L fuel w1
          (data + Z.of_nat (mid - b) * sizeofDataType L) mid e
    | Undefined => Undefined
    | OutOfFuel => OutOfFuel
    end
  ∧ translateUniforms L fuel w data step b e
    = match translateUniforms L fuel w data step b mid with
      | Finished w1 =>
          translateUniforms L fuel w1 (data + Z.of_nat (mid - b) * step) step mid e
      | Undefined => Undefined
      | OutOfFuel => OutOfFuel
      end.
Proof.
  intros [Hbm Hme] He Hfuel.
  assert (Hlen : length (range (w_lights w) b mid) = (mid - b)%nat)
    by (apply range_length; lia).
  split.
  - rewrite (translateBuffer_replay L fuel w data b e) by (lia || by intros).
    rewrite (translateBuffer_replay L fuel w data b mid) by (lia || (intros; lia)).
    rewrite (range_app _ b mid e), record_writes_app, replay_app, Hlen by done.
    destruct (replay L (w_dest w) _) as [m1|]; simpl; [|done].
    rewrite translateBuffer_replay by (simpl; lia || (intros; simpl; lia)).
    done.
  - rewrite (translateUniforms_replay L fuel w data step b e) by (lia || by intros).
    rewrite (translateUniforms_replay L fuel w data step b mid)
      by (lia || (intros; lia)).
    rewrite (range_app _ b mid e), record_writes_app, replay_app, Hlen by done.
    destruct (replay L (w_dest w) _) as [m1|]; simpl; [|done].
    rewrite translateUniforms_replay by (simpl; lia || (intros; simpl; lia)).
    done.
Qed.

Lemma replay_again L (m m' : Mem) (ws : list (Z * LightData F)) :
  replay L m ws = Some m' → replay L m' ws = Some m'.
Proof. rewrite !replay_store_all. apply store_all_again. Qed.

(** X4. Translating again changes nothing: a finished run, repeated on the
    world it produced with the same arguments, finishes with that same
    world.  The destination is written, never read. *)
Theorem translation_twice_is_once L (fuel : nat) w (data step : Z) (b e : nat) :
  (∀ w', translateBuffer L fuel w data b e = Finished w' →
     translateBuffer L fuel w' data b e = Finished w')
  ∧ (∀ w', translateUniforms L fuel w data step b e = Finished w' →
       translateUniforms L fuel w' data step b e = Finished w').
Proof.
  split.
  - intros [m' lights' stats']
      ((Hbe & Hrange & Hfuel) & Hreplay & Hlights & Hstats)%translateBuffer_Finished.
    simpl in *. subst lights' stats'.
    rewrite translateBuffer_replay by done. simpl.
    by rewrite (replay_again _ _ _ _ Hreplay).
  - intros [m' lights' stats']
      ((Hbe & Hrange & Hfuel) & Hreplay & Hlights & Hstats)%translateUniforms_Finished.
    simpl in *. subst lights' stats'.
    rewrite translateUniforms_replay by done. simpl.
    by rewrite (replay_again _ _ _ _ Hreplay).
Qed.

Lemma finished_with_is_Some w (o : option Mem) :
  (∃ w', finished_with w o = Finished w') ↔ is_Some o.
Proof.
  destruct o; simpl; split; eauto.
  - intros [w' [=]].
  - intros [? [=]].
Qed.

Lemma finished_with_Undefined w (o : option Mem) :
  ¬ is_Some o → finished_with w o = Undefined.
Proof. destruct o; simpl; [|done]. intros Hn. exfalso. eauto. Qed.

(** X5. Neither translation checks the destination: over a well-formed
    range a run finishes exactly when every member of every record it
    writes lies inside the buffer, and is undefined otherwise, with no
    partial result. *)
Theorem finishes_exactly_when_members_fit L (fuel : nat) w (data step : Z)
    (b e : nat) :
  (b ≤ e ≤ length (w_lights w))%nat →
  (e - b ≤ fuel)%nat →
  (((∃ w', translateBuffer L fuel w data b e = Finished w')
    ↔ members_in_buffer L (length (w_dest w)) data (sizeofDataType L) (e - b))
   ∧ (¬ members_in_buffer L (length (w_dest w)) data (sizeofDataType L) (e - b) →
      translateBuffer L fuel w data b e = Undefined))
  ∧ (((∃ w', translateUniforms L fuel w data step b e = Finished w')
      ↔ members_in_buffer L (length (w_dest w)) data step (e - b))
     ∧ (¬ members_in_buffer L (length (w_dest w)) data step (e - b) →
        translateUniforms L fuel w data step b e = Undefined)).
Proof.
  intros [Hbe He] Hfuel.
  assert (Hlen : length (range (w_lights w) b e) = (e - b)%nat)
    by by apply range_length.
  split.
  - rewrite translateBuffer_replay by (done || by intros).
    rewrite finished_with_is_Some, replay_defined, Hlen. split; [done|].
    intros Hno. apply finished_with_Undefined.
    by rewrite replay_defined, Hlen.
  - rewrite translateUniforms_replay by (done || by intros).
    rewrite finished_with_is_Some, replay_defined, Hlen. split; [done|].
    intros Hno. apply finished_with_Undefined.
    by rewrite replay_defined, Hlen.
Qed.

Lemma replay_keeps L (m m' : Mem) (stats : OpenGLRenderBlock F) data stride
    (ls : list (Light F)) (i : nat) :
  replay L m (record_writes stats data stride ls) = Some m' →
  ¬ in_some_member L data stride (length ls) i →
  m' !! i = m !! i.
Proof.
  rewrite replay_store_all. intros Hst Hout.
  etrans; [exact (store_all_lookup _ _ _ i Hst)|].
  apply (run_never_written L stats data stride ls i) in Hout.
  by rewrite Hout.
Qed.

(** X6. A run writes the members of its records and nothing else: the
    destination keeps its length, and every byte that belongs to no member
    of a record, padding inside a record included, keeps its value. *)
Theorem bytes_outside_members_are_kept L (fuel : nat) w (data step : Z)
    (b e : nat) :
  (∀ w', translateBuffer L fuel w data b e = Finished w' →
     length (w_dest w') = length (w_dest w)
     ∧ ∀ i : nat, ¬ in_some_member L data (sizeofDataType L) (e - b) i →
         w_dest w' !! i = w_dest w !! i)
  ∧ (∀ w', translateUniforms L fuel w data step b e = Finished w' →
       length (w_dest w') = length (w_dest w)
       ∧ ∀ i : nat, ¬ in_some_member L data step (e - b) i →
           w_dest w' !! i = w_dest w !! i).
Proof.
  split.
  - intros w' ((Hbe & Hrange & _) & Hreplay & _)%translateBuffer_Finished.
    split.
    + rewrite replay_store_all in Hreplay. by eapply store_all_length.
    + intros i Hout. eapply replay_keeps; [exact Hreplay|].
      by rewrite finished_range_length.
  - intros w' ((Hbe & Hrange & _) & Hreplay & _)%translateUniforms_Finished.
    split.
    + rewrite replay_store_all in Hreplay. by eapply store_all_length.
    + intros i Hout. eapply replay_keeps; [exact Hreplay|].
      by rewrite finished_range_length.
Qed.

Lemma replay_written_same L (m1 m2 m1' m2' : Mem) (stats : OpenGLRenderBlock F)
    data stride (ls : list (Light F)) (i : nat) :
  replay L m1 (record_writes stats data stride ls) = Some m1' →
  replay L m2 (record_writes stats data stride ls) = Some m2' →
  in_some_member L data stride (length ls) i →
  m1' !! i = m2' !! i.
Proof.
  rewrite !replay_store_all. intros Hst1 Hst2 Hin.
  etrans; [exact (store_all_lookup _ _ _ i Hst1)|].
  etrans; [|symmetry; exact (store_all_lookup _ _ _ i Hst2)].
  destruct (last_written _ i) eqn:Hlast; [done|].
  by apply (run_never_written L stats data stride ls i) in Hlast.
Qed.

(** X7. What a run writes depends on the render block and on the lights of
    the range only: two finished runs with the same matrices and the same
    lights in [[begin, end)] leave the same value in every byte that
    belongs to a member of a record, whatever the destinations held before
    and whatever lights lie outside the range. *)
Theorem written_bytes_depend_on_range_only L (fuel : nat) (w1 w2 : World F)
    (data step : Z) (b e : nat) :
  w_stats w1 = w_stats w2 →
  range (w_lights w1) b e = range (w_lights w2) b e →
  (∀ w1' w2' (i : nat),
     translateBuffer L fuel w1 data b e = Finished w1' →
     translateBuffer L fuel w2 data b e = Finished w2' →
     in_some_member L data (sizeofDataType L) (e - b) i →
     w_dest w1' !! i = w_dest w2' !! i)
  ∧ (∀ w1' w2' (i : nat),
       translateUniforms L fuel w1 data step b e = Finished w1' →
       translateUniforms L fuel w2 data step b e = Finished w2' →
       in_some_member L data step (e - b) i →
       w_dest w1' !! i = w_dest w2' !! i).
Proof.
  intros Hstats Hlights. split.
  - intros w1' w2' i
      ((Hbe & Hrange & _) & Hreplay1 & _)%translateBuffer_Finished
      (_ & Hreplay2 & _)%translateBuffer_Finished Hin.
    rewrite <- Hstats, <- Hlights in Hreplay2.
    eapply replay_written_same; [exact Hreplay1|exact Hreplay2|].
    by rewrite finished_range_length.
  - intros w1' w2' i
      ((Hbe & Hrange & _) & Hreplay1 & _)%translateUniforms_Finished
      (_ & Hreplay2 & _)%translateUniforms_Finished Hin.
    rewrite <- Hstats, <- Hlights in Hreplay2.
    eapply replay_written_same; [exact Hreplay1|exact Hreplay2|].
    by rewrite finished_range_length.
Qed.

End RunLaws.

(** ** Ranges whose end cannot be reached *)

Section Unreachable.
Context {F : Type} `{Scalar F} `{Stored F}.
Implicit Types (L : DataLayout) (w : World F) (st : LoopState F).

Lemma while_ne_unreachable L stride (e fuel : nat) st :
  ls_begin st ≠ e →
  (e < ls_begin st ∨ length (w_lights (ls_world st)) < e)%nat →
  (∀ st', while_ne (advance L stride) e fuel st ≠ Finished st')
  ∧ ((length (w_lights (ls_world st)) - ls_begin st < fuel)%nat →
     while_ne (advance L stride) e fuel st = Undefined).
Proof.
  revert st. induction fuel as [|fuel IH]; intros [[m lights stats] data b];
    simpl; intros Hne Hfar.
  - rewrite decide_False by done. split; [done|lia].
  - rewrite decide_False by done.
    unfold advance at 1 3. simpl.
    destruct (lights !! b) as [l|] eqn:Hl; simpl; [|done].
    destruct (write_record L m data (translate_light stats l)) as [m1|];
      simpl; [|done].
    apply lookup_lt_Some in Hl.
    destruct (IH {| ls_world := {| w_dest := m1; w_lights := lights;
                                   w_stats := stats |};
                    ls_data := data + stride; ls_begin := S b |})
      as [Hnever Hundefined]; simpl; [lia..|].
    split; [exact Hnever|]. intros Hfuel. apply Hundefined. simpl in *. lia.
Qed.

(** X8. The loops stop only when [begin] reaches [end].  When it cannot,
    because [end] lies before [begin] or beyond the container, a run never
    finishes: it walks off the container, which is undefined behaviour. *)
Theorem unreachable_end_never_finishes L (fuel : nat) w (data step : Z)
    (b e : nat) :
  b ≠ e →
  (e < b ∨ length (w_lights w) < e)%nat →
  ((∀ w', translateBuffer L fuel w data b e ≠ Finished w')
   ∧ ((length (w_lights w) - b < fuel)%nat →
      translateBuffer L fuel w data b e = Undefined))
  ∧ ((∀ w', translateUniforms L fuel w data step b e ≠ Finished w')
     ∧ ((length (w_lights w) - b < fuel)%nat →
        translateUniforms L fuel w data step b e = Undefined)).
Proof.
  intros Hne Hfar. split.
  - unfold translateBuffer.
    rewrite (while_ne_ext _ (advance L (sizeofDataType L)))
      by apply translateBuffer_body_advance.
    destruct (while_ne_unreachable L (sizeofDataType L) e fuel
                {| ls_world := w; ls_data := data; ls_begin := b |} Hne Hfar)
      as [Hnever Hundefined].
    split.
    + intros w' (st' & Hrun & _)%outcome_map_Finished. by eapply Hnever.
    + intros Hfuel. by rewrite Hundefined.
  - unfold translateUniforms.
    rewrite (while_ne_ext _ (advance L step))
      by apply translateUniforms_body_advance.
    destruct (while_ne_unreachable L step e fuel
                {| ls_world := w; ls_data := data; ls_begin := b |} Hne Hfar)
      as [Hnever Hundefined].
    split.
    + intros w' (st' & Hrun & _)%outcome_map_Finished. by eapply Hnever.
    + intros Hfuel. by rewrite Hundefined.
Qed.

End Unreachable.

(** ** Identity matrices in binary32, for every ordinary light *)

Lemma identity_mul_direction (x y z : Binary32.float) :
  Binary32.ordinary x = true → Binary32.ordinary y = true →
  Binary32.ordinary z = true →
  glm.mat4_mul_vec4 glm.identity (Vec4 x y z fzero) = Vec4 x y z fzero.
Proof.
  intros Hx Hy Hz.
  unfold glm.mat4_mul_vec4, glm.vec4_add, glm.vec4_mul, glm.splat, glm.identity.
  cbn [v4x v4y v4z v4w col0 col1 col2 col3].
  rewrite !mul_one_l, !mul_zero_l by done.
  do 3 rewrite ?add_zeros, ?(add_zero_r x), ?(add_zero_r y), ?(add_zero_r z),
    ?(add_zero_r fzero), ?(add_zero_l x), ?(add_zero_l y), ?(add_zero_l z),
    ?(add_zero_l fzero) by done.
  done.
Qed.

(** The record of a light with ordinary components under identity
    matrices. *)
Lemma identity_record (stats : OpenGLRenderBlock Binary32.float)
    (l : Light Binary32.float) :
  worldToView stats = glm.identity →
  worldToPersp stats = glm.identity →
  ordinary_vec (translation l) = true →
  ordinary_vec (direction l) = true →
  ordinary_mat (toMatrix l) = true →
  m_viewTrans (translate_light stats l) = translation l
  ∧ m_perspTrans (translate_light stats l) = toMatrix l
  ∧ m_direction (translate_light stats l)
    = glm.to_vec3
        (glm.normalize
           (Vec4 (v3x (direction l)) (v3y (direction l)) (v3z (direction l))
                 fzero)).
Proof.
  intros Hview Hpersp Hpos Hdir Hmat.
  unfold translate_light. cbn [m_viewTrans m_perspTrans m_direction].
  rewrite Hview, Hpersp.
  destruct (translation l) as [tx ty tz]. destruct (direction l) as [dx dy dz].
  unfold ordinary_vec in Hpos, Hdir. cbn [v3x v3y v3z] in *.
  apply andb_prop in Hpos as [[Htx Hty]%andb_prop Htz].
  apply andb_prop in Hdir as [[Hdx Hdy]%andb_prop Hdz].
  unfold Karma.ToGlm_w. cbn [v3x v3y v3z].
  rewrite identity_mul_point, identity_mul_direction by done.
  split; [done|]. split; [|done].
  destruct (toMatrix l) as [c0 c1 c2 c3].
  change (Karma.ToGlm_mat (Mat4 c0 c1 c2 c3)) with (Mat4 c0 c1 c2 c3).
  by apply identity_mul_mat.
Qed.

(** X9. In binary32, identity view and perspective matrices change nothing:
    for every light whose translation, direction and matrix entries are
    finite and not [-0], and whose direction has components of magnitude
    less than [2^60], one of them of magnitude [2^-60] or more, the position
    member of its record is the light's translation and the perspective
    member its local-to-world matrix, bit for bit, and the direction member
    is the light's own direction normalized, a vector of finite components
    whose length is within [2^-20] of 1.  With room in the destination the
    run finishes and the members read back so, after either function, as
    they do after every finished run. *)
Theorem identity_matrices_are_transparent (L : DataLayout) (fuel : nat)
    (w : World Binary32.float) (data step : Z) (b e k : nat)
    (l : Light Binary32.float) :
  layout_ok L = true →
  w_lights w !! (b + k)%nat = Some l →
  (b + k < e)%nat →
  worldToView (w_stats w) = glm.identity →
  worldToPersp (w_stats w) = glm.identity →
  ordinary_vec (translation l) = true →
  ordinary_vec (direction l) = true →
  ordinary_mat (toMatrix l) = true →
  normalizable
    (Vec4 (v3x (direction l)) (v3y (direction l)) (v3z (direction l))
          (S754_zero false)) = true →
  let own_direction :=
    glm.to_vec3
      (glm.normalize
         (Vec4 (v3x (direction l)) (v3y (direction l)) (v3z (direction l))
               (S754_zero false))) in
  finite3 own_direction = true
  ∧ (Rabs (exact_length3 own_direction - 1) <= / 1048576)%R
  ∧ ((e ≤ length (w_lights w))%nat → (e - b ≤ fuel)%nat →
     has_room L (w_dest w) data (sizeofDataType L) (e - b) →
     ∃ w', translateBuffer L fuel w data b e = Finished w'
       ∧ identity_members L (w_dest w') (data + Z.of_nat k * sizeofDataType L) l)
  ∧ ((e ≤ length (w_lights w))%nat → (e - b ≤ fuel)%nat →
     has_room L (w_dest w) data step (e - b) → sizeofDataType L ≤ Z.abs step →
     ∃ w', translateUniforms L fuel w data step b e = Finished w'
       ∧ identity_members L (w_dest w') (data + Z.of_nat k * step) l)
  ∧ ((S k ≤ fuel)%nat → has_room L (w_dest w) data step (S k) →
     ∃ w', translateUniforms L fuel w data step b (S (b + k)) = Finished w'
       ∧ identity_members L (w_dest w') (data + Z.of_nat k * step) l)
  ∧ (∀ w', translateBuffer L fuel w data b e = Finished w' →
       identity_members L (w_dest w') (data + Z.of_nat k * sizeofDataType L) l)
  ∧ (∀ w', translateUniforms L fuel w data step b e = Finished w' →
       sizeofDataType L ≤ Z.abs step →
       identity_members L (w_dest w') (data + Z.of_nat k * step) l)
  ∧ (∀ w', translateUniforms L fuel w data step b (S (b + k)) = Finished w' →
       identity_members L (w_dest w') (data + Z.of_nat k * step) l).
Proof.
  intros Hok Hl Hk Hview Hpersp Hpos Hdir Hmat Hmod. cbv zeta.
  destruct (identity_record (w_stats w) l Hview Hpersp Hpos Hdir Hmat)
    as (Hposition & Hmatrix & Hdirection).
  split; [exact (proj1 (normalize_unit _ Hmod))|].
  split; [exact (proj2 (normalize_unit _ Hmod))|].
  apply (after_the_runs (λ m slot, identity_members L m slot l)
           L fuel w data step b e k l Hok Hl Hk).
  intros m slot Hat. unfold identity_members.
  rewrite <- Hposition, <- Hmatrix.
  change (S754_zero false) with (@fzero _ binary32_scalar).
  rewrite <- Hdirection.
  split; [|split].
  - by apply record_at_viewTrans.
  - by apply record_at_perspTrans.
  - by apply record_at_direction.
Qed.

(** ** The mesh layout and the buffer written *)

(** X10. The attributes [initializeMesh] declares fit the records
    [translateBuffer] writes: the declared stride is the distance between
    records, so instance [k] reads, at each attribute's address, the member
    of the record of light [begin + k] that the attribute is named after.
    The attenuation, diffuse, specular and perspective attributes read
    exactly their member; the translation and direction attributes are
    declared with four components, of which the first three are the
    member. *)
Theorem instances_read_their_records {F : Type} `{Scalar F} `{Stored F}
    (L : DataLayout) (fuel : nat) (w : World F) (data : Z) (b e k : nat)
    (l : Light F) (mesh : OpenGLMesh) (w' : World F) :
  layout_ok L = true →
  w_lights w !! (b + k)%nat = Some l →
  (b + k < e)%nat →
  translateBuffer L fuel w data b e = Finished w' →
  let r := translate_light (w_stats w) l in
  ∃ a1 a2 a4 a5 a6 a7 : VertexAttrib,
    initializeMesh L mesh = mesh ++ [a1; a2; a4; a5; a6; a7]
    ∧ load_bytes (w_dest w') (instance_address a1 data k) 12
      = Some (bytes_of_vec3 (m_viewTrans r))
    ∧ load_bytes (w_dest w') (instance_address a2 data k) 12
      = Some (bytes_of_vec3 (m_direction r))
    ∧ load_bytes (w_dest w') (instance_address a4 data k) (attribute_size a4)
      = Some (bytes_of_vec4 (m_attenuation r))
    ∧ load_bytes (w_dest w') (instance_address a5 data k) (attribute_size a5)
      = Some (bytes_of_vec4 (m_diffuse r))
    ∧ load_bytes (w_dest w') (instance_address a6 data k) (attribute_size a6)
      = Some (bytes_of_vec3 (m_specular r))
    ∧ load_bytes (w_dest w') (instance_address a7 data k) (attribute_size a7)
      = Some (bytes_of_mat4 (m_perspTrans r)).
Proof.
  intros Hok Hl Hk Hrun. cbv zeta.
  pose proof (translateBuffer_record_at L Hok fuel w data b e w' k l Hrun Hl Hk)
    as Hat.
  destruct (record_at_copied L _ _ _ _ Hat) as (_ & _ & Hatt & Hdiff & Hspec).
  do 6 eexists. split.
  - unfold initializeMesh, vertexAttribPointerDivisor, vertexAttribPointerDivisor_n.
    rewrite <- !(assoc_L (++)). simpl. reflexivity.
  - unfold instance_address, attribute_size. cbn [va_stride va_offset va_elements va_count].
    split; [by apply record_at_viewTrans|].
    split; [by apply record_at_direction|].
    split; [exact Hatt|].
    split; [destruct l as [? ? ? ? [dr dg db da] ? ? ? ?]; exact Hdiff|].
    split; [destruct l as [? ? ? ? ? [sx sy sz] ? ? ?]; exact Hspec|].
    by apply record_at_perspTrans.
Qed.

(** ** The further properties at work on the sample scene *)

Lemma has_room_members {F : Type} `{Stored F} (L : DataLayout) (m : Mem)
    (data stride : Z) (n : nat) :
  layout_ok L = true →
  has_room L m data stride n →
  members_in_buffer L (length m) data stride n.
Proof.
  intros Hok Hroom k ext Hk Hext.
  pose proof (layout_ok_inside L Hok) as Hin.
  rewrite Forall_forall in Hin. specialize (Hin ext Hext).
  specialize (Hroom k Hk). lia.
Qed.

Lemma translation_in_two_parts_witness :
  (0 ≤ 1 ≤ 2)%nat
  ∧ (2 ≤ length (w_lights Sample.scene))%nat
  ∧ translateBuffer Sample.packed 2 Sample.scene 0 0 2
    = match translateBuffer Sample.packed 2 Sample.scene 0 0 1 with
      | Finished w1 => translateBuffer Sample.packed 2 w1 144 1 2
      | Undefined => Undefined
      | OutOfFuel => OutOfFuel
      end
  ∧ translateUniforms Sample.packed 2 Sample.scene 0 100 0 2
    = match translateUniforms Sample.packed 2 Sample.scene 0 100 0 1 with
      | Finished w1 => translateUniforms Sample.packed 2 w1 100 100 1 2
      | Undefined => Undefined
      | OutOfFuel => OutOfFuel
      end.
Proof.
  assert (Hmid : (0 ≤ 1 ≤ 2)%nat) by lia.
  assert (Hend : (2 ≤ length (w_lights Sample.scene))%nat) by (simpl; lia).
  split; [exact Hmid|]. split; [exact Hend|].
  exact (translation_in_two_parts Sample.packed 2 Sample.scene 0 100 0 1 2
           Hmid Hend (le_n 2%nat)).
Defined.

Lemma translation_twice_witness :
  ∃ w', translateUniforms Sample.packed 2 Sample.scene 0 100 0 2 = Finished w'
    ∧ translateUniforms Sample.packed 2 w' 0 100 0 2 = Finished w'.
Proof.
  destruct (translateUniforms Sample.packed 2 Sample.scene 0 100 0 2)
    as [w'| |] eqn:Hrun; [|vm_compute in Hrun; discriminate..].
  exists w'. split; [reflexivity|].
  exact (proj2 (translation_twice_is_once Sample.packed 2 Sample.scene 0 100 0 2)
           w' Hrun).
Defined.

Lemma members_fit_witness :
  (0 ≤ 2 ≤ length (w_lights Sample.scene))%nat
  ∧ (∃ w', translateBuffer Sample.packed 2 Sample.scene 0 0 2 = Finished w')
  ∧ translateBuffer Sample.packed 2 Sample.scene 200 0 2 = Undefined.
Proof.
  assert (Hrange : (0 ≤ 2 ≤ length (w_lights Sample.scene))%nat) by (simpl; lia).
  split; [exact Hrange|]. split.
  - apply (proj1 (proj1 (finishes_exactly_when_members_fit Sample.packed 2
                           Sample.scene 0 144 0 2 Hrange (le_n 2%nat)))).
    apply (has_room_members Sample.packed (w_dest Sample.scene) 0 144 2 eq_refl).
    apply (sample_room 144). lia.
  - apply (proj2 (proj1 (finishes_exactly_when_members_fit Sample.packed 2
                           Sample.scene 200 144 0 2 Hrange (le_n 2%nat)))).
    intros Hfit.
    specialize (Hfit 0%nat (PerpectiveOffset Sample.packed, 64) (Nat.lt_0_succ 1)).
    change (Z.of_nat (length (w_dest Sample.scene))) with 288 in Hfit.
    simpl in Hfit. unfold field_extents in Hfit.
    assert (200 + 0 + 80 + 64 ≤ 288) as Habsurd; [|lia].
    apply Hfit. find_member.
Defined.

Lemma bytes_kept_witness :
  ∃ w', translateUniforms Sample.packed 1 Sample.scene 0 200 0 1 = Finished w'
    ∧ length (w_dest w') = 288%nat
    ∧ w_dest w' !! 150%nat = Some x00.
Proof.
  destruct (translateUniforms Sample.packed 1 Sample.scene 0 200 0 1)
    as [w'| |] eqn:Hrun; [|vm_compute in Hrun; discriminate..].
  exists w'.
  destruct (proj2 (bytes_outside_members_are_kept Sample.packed 1 Sample.scene
                     0 200 0 1) w' Hrun) as [Hlen Hkept].
  split; [reflexivity|]. split; [exact Hlen|].
  rewrite (Hkept 150%nat); [reflexivity|].
  intros (k & ext & Hk & Hext & Hin).
  pose proof (layout_ok_inside Sample.packed eq_refl) as Hinside.
  rewrite Forall_forall in Hinside. specialize (Hinside ext Hext).
  change (sizeofDataType Sample.packed) with 144 in Hinside.
  destruct k as [|k]; [simpl in Hin; lia|lia].
Defined.

Lemma range_only_witness :
  w_stats Sample.scene = w_stats Sample.other_scene
  ∧ range (w_lights Sample.scene) 0 2 = range (w_lights Sample.other_scene) 0 2
  ∧ ∃ w1' w2',
      translateBuffer Sample.packed 2 Sample.scene 0 0 2 = Finished w1'
      ∧ translateBuffer Sample.packed 2 Sample.other_scene 0 0 2 = Finished w2'
      ∧ w_dest w1' !! 152%nat = w_dest w2' !! 152%nat.
Proof.
  split; [reflexivity|]. split; [reflexivity|].
  destruct (translateBuffer Sample.packed 2 Sample.scene 0 0 2)
    as [w1'| |] eqn:Hrun1; [|vm_compute in Hrun1; discriminate..].
  destruct (translateBuffer Sample.packed 2 Sample.other_scene 0 0 2)
    as [w2'| |] eqn:Hrun2; [|vm_compute in Hrun2; discriminate..].
  exists w1', w2'. split; [reflexivity|]. split; [reflexivity|].
  apply (proj1 (written_bytes_depend_on_range_only Sample.packed 2 Sample.scene
                  Sample.other_scene 0 100 0 2 eq_refl eq_refl)
           w1' w2' 152%nat Hrun1 Hrun2).
  exists 1%nat, (DiffAngleOffset Sample.packed, 4).
  split; [lia|]. split; [unfold field_extents; find_member|]. simpl. lia.
Defined.

Lemma unreachable_end_witness :
  (1 ≠ 0)%nat
  ∧ translateBuffer Sample.packed 5 Sample.scene 0 1 0 = Undefined
  ∧ translateUniforms Sample.packed 5 Sample.scene 0 100 0 3 = Undefined.
Proof.
  split; [discriminate|]. split.
  - apply (proj2 (proj1 (unreachable_end_never_finishes Sample.packed 5
                           Sample.scene 0 100 1 0 ltac:(discriminate)
                           (or_introl (Nat.lt_0_succ 0))))).
    simpl. lia.
  - apply (proj2 (proj2 (unreachable_end_never_finishes Sample.packed 5
                           Sample.scene 0 100 0 3 ltac:(discriminate)
                           (or_intror (le_n 3%nat))))).
    simpl. lia.
Defined.

Lemma identity_witness :
  ordinary_vec (translation Sample.lantern) = true
  ∧ ordinary_vec (direction Sample.lantern) = true
  ∧ ordinary_mat (toMatrix Sample.lantern) = true
  ∧ normalizable
      (Vec4 (Sample.f32 1) (Sample.f32 2) (Sample.f32 2) (S754_zero false)) = true
  ∧ (∃ w', translateBuffer Sample.packed 2 Sample.scene 0 0 2 = Finished w'
       ∧ identity_members Sample.packed (w_dest w') 144 Sample.lantern
       ∧ load_bytes (w_dest w') (144 + 68) 12
         = Some (bytes_of_vec3 (translation Sample.lantern)))
  ∧ (∃ w', translateUniforms Sample.packed 2 Sample.scene 0 144 0 2 = Finished w'
       ∧ identity_members Sample.packed (w_dest w') 144 Sample.lantern)
  ∧ (∃ w', translateUniforms Sample.packed 2 Sample.scene 0 100 0 2 = Finished w'
       ∧ identity_members Sample.packed (w_dest w') 100 Sample.lantern).
Proof.
  assert (Hlen : (2 ≤ length (w_lights Sample.scene))%nat) by (simpl; lia).
  destruct (identity_matrices_are_transparent Sample.packed 2 Sample.scene
              0 144 0 2 1 Sample.lantern eq_refl eq_refl (le_n 2%nat)
              eq_refl eq_refl eq_refl eq_refl eq_refl eq_refl)
    as (_ & _ & HB & HU & _).
  destruct (identity_matrices_are_transparent Sample.packed 2 Sample.scene
              0 100 0 2 1 Sample.lantern eq_refl eq_refl (le_n 2%nat)
              eq_refl eq_refl eq_refl eq_refl eq_refl eq_refl)
    as (_ & _ & _ & _ & HL & _).
  split; [reflexivity|]. split; [reflexivity|]. split; [reflexivity|].
  split; [reflexivity|]. split; [|split].
  - destruct (HB Hlen (le_n 2%nat) (sample_room 144 ltac:(lia))) as (w' & Hrun & Hat).
    exists w'. split; [exact Hrun|]. split; [exact Hat|]. exact (proj1 Hat).
  - exact (HU Hlen (le_n 2%nat) (sample_room 144 ltac:(lia)) ltac:(simpl; lia)).
  - exact (HL (le_n 2%nat) (sample_room 100 ltac:(lia))).
Defined.

Lemma instances_witness :
  layout_ok Sample.packed = true
  ∧ ∃ w', translateBuffer Sample.packed 2 Sample.scene 0 0 2 = Finished w'
      ∧ ∃ a1 a2 a4 a5 a6 a7 : VertexAttrib,
          initializeMesh Sample.packed [] = [a1; a2; a4; a5; a6; a7]
          ∧ instance_address a6 0 1 = 144 + 56
          ∧ load_bytes (w_dest w') (instance_address a6 0 1) (attribute_size a6)
            = Some (bytes_of_vec3 (specular Sample.lantern)).
Proof.
  split; [reflexivity|].
  destruct (translateBuffer Sample.packed 2 Sample.scene 0 0 2)
    as [w'| |] eqn:Hrun; [|vm_compute in Hrun; discriminate..].
  exists w'. split; [reflexivity|].
  destruct (instances_read_their_records Sample.packed 2 Sample.scene 0 0 2 1
              Sample.lantern [] w' eq_refl eq_refl (le_n 2%nat) Hrun)
    as (a1 & a2 & a4 & a5 & a6 & a7 & Hmesh & _ & _ & _ & _ & Hspec & _).
  exists a1, a2, a4, a5, a6, a7. split; [exact Hmesh|].
  injection Hmesh as <- <- <- <- <- <-.
  split; [reflexivity|exact Hspec].
Defined.
